(** * layr: registries (Layer) and models, checked against the source

    A shallow embedding of [Layer] (component registry with delegation-based
    forking) and of [Model] (fields, field masks, serialization), followed by
    the theorems that settle the specification's claims. *)

From stdpp Require Import gmap strings list fin_maps.

Open Scope string_scope.
Open Scope list_scope.
Open Scope nat_scope.
Set Warnings "-register-all,-clear-no-such-hyp".

(** ** Outcomes of JavaScript calls: a value or a thrown error *)

Inductive error : Type :=
| ArgumentError            (* an [ow] argument check failed *)
| InvalidComponentName     (* validateComponentName rejected the name *)
| ComponentNotRegistered   (* "The component class ... is not registered in the layer" *)
| ExpectedClassGotInstance (* "Expected a component class, but received a component instance" *)
| ExpectedClassGotOther    (* "Expected a component class, but received a value of type ..." *)
| AlreadyRegistered        (* "Cannot register ... that is already registered" *)
| SameNameRegistered       (* "... with the same name is already registered" *)
| SameNameAsProperty       (* "... that has the same name as an existing property" *)
| TypeMismatch             (* "Type mismatch (expected: 'Model' or 'Object', ...)" *)
| PropertyNotFound         (* "Property not found" *)
| FieldNotFound            (* "Field not found" *)
| NotAField                (* "Found property is not a field" *)
| TypeRedeclaration        (* "Cannot change the type of an existing field" *)
| NativeTypeError          (* a TypeError raised by the JavaScript runtime itself *)
| DepthExhausted.          (* no program outcome: the nesting bound of the embedding ran out *)

Inductive result (A : Type) : Type :=
| Ok (a : A)
| Throw (e : error).
Arguments Ok {A} a.
Arguments Throw {A} e.

#[global] Instance error_eq_dec : EqDecision error.
Proof. solve_decision. Defined.

(** ** The registry: [Layer] *)

Module Layer.

(** Objects live in a store and are addressed by their index; an object has a
    prototype link and own properties, as a JavaScript object does.  The
    registry objects and their [_components] maps are such objects. *)

Abbreviation loc := nat (only parsing).

Inductive val : Type :=
| VUndef
| VStr (s : string)
| VObj (l : loc)          (* a layer, or a [_components] map *)
| VComp (c : loc)         (* a component class *)
| VGetter (name : string) (* accessor installed by Object.defineProperty *).

Record obj : Type := MkObj {
  proto : option loc;
  own : gmap string val
}.

Inductive compKind : Type := ComponentClass | ComponentInstance.

(** What the registry uses of a component class: its name, the layer it is
    bound to, and the class it was forked from. *)
Record comp : Type := MkComp {
  ckind : compKind;
  cname : string;
  clayer : option loc;
  corigin : option loc
}.

Record heap : Type := MkHeap {
  objs : list obj;
  comps : list comp
}.

(** What [getComponent] hands back: the class, or its prototype when an
    instance name was asked for. *)
Inductive cref : Type :=
| ClassRef (c : loc)
| PrototypeRef (c : loc).

(** An argument given to [registerComponent]. *)
Inductive arg : Type :=
| AComponent (c : loc)
| AOther.

(** *** Property access along the prototype chain *)

Fixpoint get_from (fuel : nat) (os : list obj) (l : loc) (k : string) : option val :=
  match fuel with
  | 0 => None
  | S n =>
      match os !! l with
      | None => None
      | Some o =>
          match own o !! k with
          | Some v => Some v
          | None =>
              match proto o with
              | Some p => get_from n os p k
              | None => None
              end
          end
      end
  end.

(** [o[k]]: [None] when no object of the chain has the key.  Prototypes are
    created before the objects that delegate to them, so [S l] links are
    enough to walk the chain of [l]. *)
Definition get (h : heap) (l : loc) (k : string) : option val :=
  get_from (S l) (objs h) l k.

(** [hasOwnProperty(o, k)] *)
Definition hasOwnProperty (h : heap) (l : loc) (k : string) : bool :=
  match objs h !! l with
  | Some o => bool_decide (is_Some (own o !! k))
  | None => false
  end.

(** [o[k] = v]: the write always lands on the object itself. *)
Definition set (l : loc) (k : string) (v : val) (h : heap) : heap :=
  match objs h !! l with
  | Some o => MkHeap (<[l := MkObj (proto o) (<[k := v]> (own o))]> (objs h)) (comps h)
  | None => h
  end.

(** [Object.create(p)] *)
Definition create (p : option loc) (h : heap) : loc * heap :=
  (length (objs h), MkHeap (objs h ++ [MkObj p ∅]) (comps h)).

(** Names every layer inherits from [Layer.prototype] and [Object.prototype]. *)
Definition Layer_prototype_keys : list string :=
  [ "constructor"; "getName"; "setName"; "unsetName"; "getComponent";
    "registerComponent"; "getComponents"; "fork"; "isForkOf"; "getGhost";
    "ghost"; "describe";
    "hasOwnProperty"; "isPrototypeOf"; "propertyIsEnumerable"; "toString";
    "toLocaleString"; "valueOf"; "__proto__"; "__defineGetter__";
    "__defineSetter__"; "__lookupGetter__"; "__lookupSetter__" ].

(** [k in layer] *)
Definition has_in (h : heap) (l : loc) (k : string) : bool :=
  bool_decide (is_Some (get h l k)) || bool_decide (k ∈ Layer_prototype_keys).

(** JavaScript truthiness of a property read ([None] reads as undefined). *)
Definition truthy (v : option val) : bool :=
  match v with
  | None | Some VUndef => false
  | Some (VStr s) => negb (String.eqb s "")
  | Some _ => true
  end.

(** *** The component operations the registry calls *)

(** Modelled from the spec: [Component.fork()] of the component package, which
    is not among the sources.  The fork is a new class delegating to its
    origin (it starts with the origin's name and layer); the origin is not
    touched. *)
Definition Component_fork (c : loc) (h : heap) : option (loc * heap) :=
  match comps h !! c with
  | Some o =>
      Some (length (comps h),
            MkHeap (objs h) (comps h ++ [MkComp (ckind o) (cname o) (clayer o) (Some c)]))
  | None => None
  end.

(** Modelled from the spec: [Component.setLayer(layer)] records the back
    reference on the component it is called on. *)
Definition Component_setLayer (c : loc) (layer : loc) (h : heap) : heap :=
  match comps h !! c with
  | Some o =>
      MkHeap (objs h) (<[c := MkComp (ckind o) (cname o) (Some layer) (corigin o)]> (comps h))
  | None => h
  end.

(** Modelled from the spec: [Component.hasLayer()]. *)
Definition Component_hasLayer (c : loc) (h : heap) : bool :=
  match comps h !! c with
  | Some o => bool_decide (is_Some (clayer o))
  | None => false
  end.

Inductive nameKind : Type := componentClassName | componentInstanceName.

Section Registry.

(** The naming helpers of the component package, taken as given:
    [validateComponentName(name, {allowInstances})] classifies a name or
    throws ([None]); [getComponentClassNameFromComponentInstanceName] maps an
    instance name to its class name. *)
Variable validateComponentName : string -> bool -> option nameKind.
Variable getComponentClassNameFromComponentInstanceName : string -> string.

(** *** [getComponent(name, {throwIfMissing, includePrototypes})] *)
Definition getComponent (this : loc) (name : string)
    (throwIfMissing includePrototypes : bool) (h : heap)
  : result (option cref) * heap :=
  if String.eqb name "" then (Throw ArgumentError, h) else
  match validateComponentName name includePrototypes with
  | None => (Throw InvalidComponentName, h)
  | Some kind =>
      let isInstanceName :=
        match kind with componentInstanceName => true | componentClassName => false end in
      let className :=
        if isInstanceName then getComponentClassNameFromComponentInstanceName name
        else name in
      let ret c := if isInstanceName then PrototypeRef c else ClassRef c in
      match get h this "_components" with
      | Some (VObj cm) =>
          match get h cm className with
          | None | Some VUndef =>
              if throwIfMissing then (Throw ComponentNotRegistered, h) else (Ok None, h)
          | Some (VComp c) =>
              if hasOwnProperty h cm className then (Ok (Some (ret c)), h)
              else
                (* Since the layer has been forked, the component must be forked as well *)
                match Component_fork c h with
                | Some (c', h1) =>
                    let h2 := Component_setLayer c' this h1 in
                    let h3 := set cm className (VComp c') h2 in
                    (Ok (Some (ret c')), h3)
                | None => (Throw NativeTypeError, h)
                end
          | Some _ => (Throw NativeTypeError, h)   (* the map holds component classes only *)
          end
      | _ => (Throw NativeTypeError, h)
      end
  end.

(** *** [registerComponent(Component)] *)
Definition registerComponent (this : loc) (Component : arg) (h : heap)
  : result unit * heap :=
  match Component with
  | AOther => (Throw ExpectedClassGotOther, h)
  | AComponent c =>
      match comps h !! c with
      | None => (Throw ExpectedClassGotOther, h)
      | Some o =>
          match ckind o with
          | ComponentInstance => (Throw ExpectedClassGotInstance, h)
          | ComponentClass =>
              if Component_hasLayer c h then (Throw AlreadyRegistered, h) else
              let componentName := cname o in
              match get h this "_components" with
              | Some (VObj cm) =>
                  let existingComponent := get h cm componentName in
                  match existingComponent with
                  | Some VUndef | None =>
                      if has_in h this componentName then (Throw SameNameAsProperty, h)
                      else
                        let h1 := Component_setLayer c this h in
                        let h2 := set cm componentName (VComp c) h1 in
                        let h3 := set this componentName (VGetter componentName) h2 in
                        (Ok tt, h3)
                  | Some _ => (Throw SameNameRegistered, h)
                  end
              | _ => (Throw NativeTypeError, h)
              end
          end
      end
  end.

(** *** [fork()] *)
Definition fork (this : loc) (h : heap) : result loc * heap :=
  let '(forkedLayer, h1) := create (Some this) h in
  match get h1 this "_components" with
  | Some (VObj cm) =>
      let '(cm', h2) := create (Some cm) h1 in
      (Ok forkedLayer, set forkedLayer "_components" (VObj cm') h2)
  | _ => (Throw NativeTypeError, h1)
  end.

(** *** [getGhost()] *)
Definition getGhost (this : loc) (h : heap) : result (option val) * heap :=
  if negb (truthy (get h this "_ghost")) then
    match fork this h with
    | (Ok g, h1) =>
        let h2 := set this "_ghost" (VObj g) h1 in
        (Ok (get h2 this "_ghost"), h2)
    | (Throw e, h1) => (Throw e, h1)
    end
  else (Ok (get h this "_ghost"), h).

(** *** The constructor, [new Layer(components, {name})] *)
Fixpoint registerAll (this : loc) (cs : list arg) (h : heap) : result unit * heap :=
  match cs with
  | [] => (Ok tt, h)
  | c :: cs' =>
      match registerComponent this c h with
      | (Ok _, h1) => registerAll this cs' h1
      | (Throw e, h1) => (Throw e, h1)
      end
  end.

Definition new_Layer (components : option (list arg)) (name : option string) (h : heap)
  : result loc * heap :=
  match name with
  | Some "" => (Throw ArgumentError, h)
  | _ =>
      let '(this, h1) := create None h in
      let '(cm, h2) := create None h1 in
      let h3 := set this "_components" (VObj cm) h2 in
      let h4 := match name with Some n => set this "_name" (VStr n) h3 | None => h3 end in
      match components with
      | None => (Ok this, h4)
      | Some cs =>
          match registerAll this cs h4 with
          | (Ok _, h5) => (Ok this, h5)
          | (Throw e, h5) => (Throw e, h5)
          end
      end
  end.

(** The class name [getComponent] looks up for [name], and the reference it
    hands back. *)
Definition className_of (name : string) (kind : nameKind) : string :=
  match kind with
  | componentInstanceName => getComponentClassNameFromComponentInstanceName name
  | componentClassName => name
  end.

Definition cref_of (kind : nameKind) (c : loc) : cref :=
  match kind with
  | componentInstanceName => PrototypeRef c
  | componentClassName => ClassRef c
  end.

End Registry.

(** The store after [this.fork()], where [cm] is [this._components]: the
    forked layer and its component map are the two new objects. *)
Definition forked_heap (this cm : loc) (h : heap) : heap :=
  MkHeap (objs h ++ [MkObj (Some this) {["_components" := VObj (S (length (objs h)))]};
                     MkObj (Some cm) ∅])
         (comps h).

(** [L] is a layer whose [_ghost] holds the truthy value [g]. *)
Definition has_ghost (h : heap) (L cm : loc) (g : val) : Prop :=
  get h L "_components" = Some (VObj cm) ∧
  get h L "_ghost" = Some g ∧
  truthy (Some g) = true.

(** *** Names *)

(** [getName()]: [this._name], read along the prototype chain. *)
Definition getName (this : loc) (h : heap) : val :=
  default VUndef (get h this "_name").

(** [setName(name)]: [ow(name, ow.optional.string.nonEmpty)], then
    [this._name = name]. *)
Definition setName (this : loc) (name : val) (h : heap) : result unit * heap :=
  match name with
  | VUndef => (Ok tt, set this "_name" VUndef h)
  | VStr s =>
      if String.eqb s "" then (Throw ArgumentError, h)
      else (Ok tt, set this "_name" (VStr s) h)
  | _ => (Throw ArgumentError, h)
  end.

(** [unsetName()]: [this._name = undefined]. *)
Definition unsetName (this : loc) (h : heap) : heap :=
  set this "_name" VUndef h.

(** *** [isForkOf(layer)] *)

(** [isPrototypeOf(layer, this)]: whether [target] is on the prototype chain
    of [l]. *)
Fixpoint inPrototypeChain (fuel : nat) (os : list obj) (target l : loc) : bool :=
  match fuel with
  | 0 => false
  | S n =>
      match os !! l with
      | Some o =>
          match proto o with
          | Some p => Nat.eqb p target || inPrototypeChain n os target p
          | None => false
          end
      | None => false
      end
  end.

(** [this.isForkOf(layer)] for an argument that is a layer. *)
Definition isForkOf (this layer : loc) (h : heap) : bool :=
  inPrototypeChain (S this) (objs h) layer this.

(** Stores built by allocation: every prototype link points to an object
    created earlier.  On such a store the walk of [get] never runs short. *)
Definition heap_wf (h : heap) : Prop :=
  ∀ l o p, objs h !! l = Some o → proto o = Some p → p < l.

(** *** A sample registry *)

(** Class names start with an upper-case letter; the instance name of a class
    is its name with the first letter in lower case. *)
Definition is_upper (c : Ascii.ascii) : bool :=
  (65 <=? Ascii.nat_of_ascii c) && (Ascii.nat_of_ascii c <=? 90).

Definition sampleValidate (name : string) (allowInstances : bool) : option nameKind :=
  match name with
  | EmptyString => None
  | String c _ =>
      if is_upper c then Some componentClassName
      else if allowInstances then Some componentInstanceName
      else None
  end.

Definition sampleClassName (name : string) : string :=
  match name with
  | EmptyString => EmptyString
  | String c rest => String (Ascii.ascii_of_nat (Ascii.nat_of_ascii c - 32)) rest
  end.

(** Two unregistered component classes and a component instance. *)
Definition sampleComponents : heap :=
  MkHeap [] [MkComp ComponentClass "Movie" None None;
             MkComp ComponentClass "Actor" None None;
             MkComp ComponentInstance "movie" None None].

(** [new Layer([Movie], {name: 'backend'})]: the layer is object 0 and its
    component map is object 1. *)
Definition sampleLayer : heap :=
  (new_Layer (Some [AComponent 0]) (Some "backend") sampleComponents).2.

End Layer.

(** ** Models *)

Module Model.

(** *** Data *)

Section Shapes.
Variable V : Type.

(** What a [Field] holds: its declared type, the type tag of its scalar
    (used for cycle detection), whether it is exposed, the default its
    generator computes, and the value slot (active or not). *)
Record fieldData : Type := MkField {
  f_type : string;
  f_scalarType : string;
  f_exposed : bool;
  f_default : V;
  f_active : bool;
  f_value : V
}.

Inductive descriptor : Type :=
| DField (f : fieldData)
| DMethod.

(** A property is bound to the entity that owns it. *)
Record property : Type := MkProperty {
  p_parent : nat;
  p_desc : descriptor
}.

(** A [__properties] object: own entries, in insertion order. *)
Definition table : Type := list (string * property).

(** A model (instance or prototype) as its methods see it: its own
    [__properties] object, if it has one, and the [__properties] objects of
    the entities it delegates to, nearest first; its [isNew] mark; and what
    [layer?.getId()] and [parentLayer?.getId()] give for the layer it is
    registered in ([None] for undefined). *)
Record model : Type := MkModel {
  m_id : nat;
  m_own : option table;
  m_inherited : list table;
  m_isNew : bool;
  m_layerId : option string;
  m_parentLayerId : option string
}.
End Shapes.

Arguments MkField {V}.
Arguments f_type {V}.
Arguments f_scalarType {V}.
Arguments f_exposed {V}.
Arguments f_default {V}.
Arguments f_active {V}.
Arguments f_value {V}.
Arguments DField {V}.
Arguments DMethod {V}.
Arguments MkProperty {V}.
Arguments p_parent {V}.
Arguments p_desc {V}.
Arguments MkModel {V}.
Arguments m_id {V}.
Arguments m_own {V}.
Arguments m_inherited {V}.
Arguments m_isNew {V}.
Arguments m_layerId {V}.
Arguments m_parentLayerId {V}.

(** JavaScript values that reach a model. *)
Inductive val : Type :=
| VUndefined
| VNull
| VBool (b : bool)
| VNumber (n : Z)
| VString (s : string)
| VFunction
| VObject (entries : list (string * val))   (* own enumerable entries, in order *)
| VModel (m : model val).

Abbreviation Field := (fieldData val).
Abbreviation Property := (property val).
Abbreviation Table := (table val).
Abbreviation Model := (model val).

Definition typeof (v : val) : string :=
  match v with
  | VUndefined => "undefined"
  | VNull => "object"
  | VBool _ => "boolean"
  | VNumber _ => "number"
  | VString _ => "string"
  | VFunction => "function"
  | VObject _ => "object"
  | VModel _ => "object"
  end.

(** [isModel(object)]: [typeof object?.constructor?.$isModel === 'function'].
    Among the values of [val] it is the model instances whose constructor
    carries [$isModel]: the entries of a [VObject] are data, and its
    constructor is [Object]. *)
Definition isModel (v : val) : bool :=
  match v with
  | VModel _ => true
  | _ => false
  end.

(** *** Plain objects as ordered key/value lists *)

Section Assoc.
Context {A : Type}.

Fixpoint assoc_get (k : string) (l : list (string * A)) : option A :=
  match l with
  | [] => None
  | (k', a) :: l' => if decide (k = k') then Some a else assoc_get k l'
  end.

(** [o[k] = a]: replaces the entry in place, or appends a new one. *)
Fixpoint assoc_set (k : string) (a : A) (l : list (string * A)) : list (string * A) :=
  match l with
  | [] => [(k, a)]
  | (k', a') :: l' =>
      if decide (k = k') then (k, a) :: l' else (k', a') :: assoc_set k a l'
  end.

Definition assoc_has (k : string) (l : list (string * A)) : bool :=
  bool_decide (is_Some (assoc_get k l)).

(** [{...a, ...b}] *)
Definition spread (a b : list (string * A)) : list (string * A) :=
  foldl (λ acc kv, assoc_set kv.1 kv.2 acc) a b.

End Assoc.

(** Keys in first-occurrence order, skipping those already seen. *)
Fixpoint dedup (seen : list string) (l : list string) : list string :=
  match l with
  | [] => []
  | x :: l' =>
      if decide (x ∈ seen) then dedup seen l' else x :: dedup (x :: seen) l'
  end.

(** *** The order in which [for ... in] visits the keys of an object *)

Definition digitOf (c : Ascii.ascii) : option N :=
  let n := Ascii.N_of_ascii c in
  if ((48 <=? n) && (n <=? 57))%N then Some (n - 48)%N else None.

Fixpoint digitsOf (s : string) (acc : N) : option N :=
  match s with
  | EmptyString => Some acc
  | String c s' =>
      match digitOf c with
      | Some d => digitsOf s' (10 * acc + d)%N
      | None => None
      end
  end.

(** A key is an array index when it is the canonical decimal numeral (no
    leading zero) of an integer below 2^32 - 1. *)
Definition arrayIndex (key : string) : option N :=
  match key with
  | EmptyString => None
  | String c rest =>
      if (Ascii.N_of_ascii c =? 48)%N && negb (String.eqb rest "") then None
      else
        match digitsOf key 0 with
        | Some n => if (n <? 4294967295)%N then Some n else None
        | None => None
        end
  end.

Definition isArrayIndex (key : string) : bool :=
  match arrayIndex key with Some _ => true | None => false end.

Fixpoint insertKey (key : string) (sorted : list string) : list string :=
  match sorted with
  | [] => [key]
  | key' :: sorted' =>
      if (default 0 (arrayIndex key) <=? default 0 (arrayIndex key'))%N
      then key :: sorted
      else key' :: insertKey key sorted'
  end.

Definition sortKeys (keys : list string) : list string := foldr insertKey [] keys.

(** The own keys of an object, as the engine lists them: the array indices
    in ascending numeric order, then the other keys in the order in which
    they were created. *)
Definition ownKeys (keys : list string) : list string :=
  sortKeys (List.filter isArrayIndex keys)
  ++ List.filter (λ key, negb (isArrayIndex key)) keys.

(** *** Field masks *)

(** A selector or mask: a boolean, or a mapping from field names to nested
    selectors. *)
Inductive fmask : Type :=
| FBool (b : bool)
| FObj (entries : list (string * fmask)).

(** JavaScript truthiness of a mask read ([None] is undefined). *)
Definition mask_truthy (m : option fmask) : bool :=
  match m with
  | None | Some (FBool false) => false
  | Some _ => true
  end.

(** The methods a plain object inherits from [Object.prototype]. *)
Definition Object_prototype_methods : list string :=
  ["constructor"; "__defineGetter__"; "__defineSetter__"; "hasOwnProperty";
   "__lookupGetter__"; "__lookupSetter__"; "isPrototypeOf"; "propertyIsEnumerable";
   "toString"; "valueOf"; "toLocaleString"].

(** What a plain object that has no own entry for [name] answers to
    [object[name]].  An inherited method is a function: it is truthy and not
    of typeof 'object', so wherever a selector is read it is used as a
    whole, as [true] is.  [__proto__] answers with [Object.prototype]
    itself, an object whose own [__proto__] is null. *)
Definition Object_prototype_member (name : string) : option fmask :=
  if bool_decide (name ∈ Object_prototype_methods) then Some (FBool true)
  else if bool_decide (name = "__proto__") then Some (FObj [("__proto__", FBool false)])
  else None.

(** [selector[name]] for a selector that is a plain object: the own entry,
    or else the member inherited from [Object.prototype]. *)
Definition object_get (name : string) (entries : list (string * fmask)) : option fmask :=
  match assoc_get name entries with
  | Some x => Some x
  | None => Object_prototype_member name
  end.

(** Modelled from the spec: the [FieldMask] class of [./field-mask], which is
    not among the sources.  A [FieldMask] wraps a normalized mapping;
    [get(name)] gives the nested selector or [false]; [set(name, mask)]
    stores one. *)
Definition FieldMask : Type := list (string * fmask).

Definition FieldMask_get (m : FieldMask) (name : string) : fmask :=
  match assoc_get name m with
  | Some x => x
  | None => FBool false
  end.

Definition FieldMask_set (name : string) (x : fmask) (m : FieldMask) : FieldMask :=
  assoc_set name x m.

(** *** State and errors *)

(** A method runs on [this], may change it, and returns or throws. *)
Definition M (A : Type) : Type := Model → result A * Model.

Definition ret {A} (a : A) : M A := λ this, (Ok a, this).
Definition throw {A} (e : error) : M A := λ this, (Throw e, this).
Definition bind {A B} (c : M A) (k : A → M B) : M B :=
  λ this,
    match c this with
    | (Ok a, this') => k a this'
    | (Throw e, this') => (Throw e, this')
    end.
Definition gets {A} (f : Model → A) : M A := λ this, (Ok (f this), this).
Definition modify (f : Model → Model) : M unit := λ this, (Ok tt, f this).

Notation "'do' x <- c ; k" := (bind c (λ x, k))
  (at level 10, x name, c at level 100, k at level 200).
Notation "'do' ' p <- c ; k" := (bind c (λ x, match x with p => k end))
  (at level 10, p pattern, c at level 100, k at level 200).
Notation "'run' c ; k" := (bind c (λ _, k))
  (at level 10, c at level 100, k at level 200).

(** *** Properties *)

(** [this.__properties], read along the delegation chain: the objects a
    lookup walks, nearest first. *)
Definition chain (this : Model) : list Table :=
  match m_own this with
  | Some t => t :: m_inherited this
  | None => m_inherited this
  end.

(** [properties[name]] *)
Fixpoint lookup_chain (name : string) (ts : list Table) : option Property :=
  match ts with
  | [] => None
  | t :: ts' =>
      match assoc_get name t with
      | Some p => Some p
      | None => lookup_chain name ts'
      end
  end.

(** [__getProperties()]: makes sure [this] has a [__properties] object of its
    own, created empty and delegating to the inherited one. *)
Definition __getProperties : M Table :=
  λ this,
    match m_own this with
    | Some t => (Ok t, this)
    | None =>
        (Ok [],
         MkModel (m_id this) (Some []) (m_inherited this) (m_isNew this)
                 (m_layerId this) (m_parentLayerId this))
    end.

(** [properties[name] = property], on the own [__properties] object. *)
Definition setOwnProperty (name : string) (p : Property) : M unit :=
  modify (λ this,
    MkModel (m_id this)
            (Some (assoc_set name p (default [] (m_own this))))
            (m_inherited this) (m_isNew this) (m_layerId this) (m_parentLayerId this)).

(** Modelled from the spec: [property.fork(parent)] of the property classes,
    which are not among the sources.  The fork carries the same descriptor and
    is bound to the requesting entity. *)
Definition Property_fork (p : Property) (parent : Model) : Property :=
  MkProperty (m_id parent) (p_desc p).

(** [$getProperty(name, {throwIfNotFound})] *)
Definition getProperty (name : string) (throwIfNotFound : bool) : M (option Property) :=
  do properties <- __getProperties;
  do property <- gets (λ this, lookup_chain name (chain this));
  match property with
  | None =>
      if throwIfNotFound then throw PropertyNotFound else ret None
  | Some property =>
      if assoc_has name properties then ret (Some property)
      else
        do forked <- gets (Property_fork property);
        run setOwnProperty name forked;
        ret (Some forked)
  end.

(** [$hasProperty(name)] *)
Definition hasProperty (name : string) : M bool :=
  do p <- getProperty name false;
  ret (bool_decide (is_Some p)).

(** [$getPropertyNames()]: the keys a [for ... in] over [this.__properties]
    visits: the keys of the object itself, then those of each object it
    delegates to, every object's keys in the order of [ownKeys], each name
    once. *)
Definition getPropertyNames (this : Model) : list string :=
  dedup [] (concat (map (λ t, ownKeys (map fst t)) (chain this))).

(** A [for (const property of this.$getProperties({filter}))] loop: each name
    is resolved with [$getProperty] when the loop reaches it, then filtered,
    then handed to the body together with the loop's accumulator. *)
Fixpoint forProperties {S : Type} (names : list string) (filter : Property → bool)
    (body : string → Property → S → M S) (acc : S) : M S :=
  match names with
  | [] => ret acc
  | name :: names' =>
      do property <- getProperty name true;
      match property with
      | Some property =>
          if filter property then
            do acc' <- body name property acc;
            forProperties names' filter body acc'
          else forProperties names' filter body acc
      | None => forProperties names' filter body acc
      end
  end.

Definition isField (p : Property) : bool :=
  match p_desc p with DField _ => true | DMethod => false end.

Definition isMethod (p : Property) : bool :=
  match p_desc p with DField _ => false | DMethod => true end.

(** [$getField(name, {throwIfNotFound})] *)
Definition getField (name : string) (throwIfNotFound : bool) : M (option Property) :=
  do property <- getProperty name false;
  match property with
  | None => if throwIfNotFound then throw FieldNotFound else ret None
  | Some property =>
      if negb (isField property) then throw NotAField else ret (Some property)
  end.

(** [$hasField(name)] *)
Definition hasField (name : string) : M bool :=
  do f <- getField name false;
  ret (bool_decide (is_Some f)).

(** The filter [$getFields({filter})] hands to [$getProperties]. *)
Definition fieldsFilter (otherFilter : option (Field → bool)) (p : Property) : bool :=
  match p_desc p with
  | DMethod => false
  | DField f =>
      match otherFilter with
      | Some g => g f
      | None => true
      end
  end.

(** The filter of [$getActiveFields({filter})]. *)
Definition activeFilter (otherFilter : option (Field → bool)) : option (Field → bool) :=
  Some (λ f,
    if negb (f_active f) then false
    else match otherFilter with
         | Some g => g f
         | None => true
         end).

(** A loop over [this.$getFields({filter})]. *)
Definition forFields {S : Type} (filter : option (Field → bool))
    (body : string → Field → S → M S) (acc : S) : M S :=
  do names <- gets getPropertyNames;
  forProperties names (fieldsFilter filter)
    (λ name p acc,
       match p_desc p with
       | DField f => body name f acc
       | DMethod => ret acc
       end) acc.

(** [$getFieldNames()], as a loop collecting the names in order. *)
Definition getFieldNames : M (list string) :=
  forFields None (λ name _ acc, ret (acc ++ [name])) [].


(** The field object yielded for [name] is the entry of the own
    [__properties] object; a method that changes the field changes that
    entry. *)
Fixpoint assoc_alter {A : Type} (g : A → A) (k : string) (l : list (string * A))
  : list (string * A) :=
  match l with
  | [] => []
  | (k', a) :: l' =>
      if decide (k = k') then (k', g a) :: l' else (k', a) :: assoc_alter g k l'
  end.

Definition onField (g : Field → Field) (p : Property) : Property :=
  match p_desc p with
  | DField f => MkProperty (p_parent p) (DField (g f))
  | DMethod => p
  end.

Definition mutateField (name : string) (g : Field → Field) : M unit :=
  modify (λ this,
    MkModel (m_id this)
            (option_map (assoc_alter (onField g) name) (m_own this))
            (m_inherited this) (m_isNew this) (m_layerId this) (m_parentLayerId this)).

(** Runs a method on another object, one that is not [this].  What the
    method stores there (the forks of a walk over its properties) is part
    of that object's state, which the state of [this] does not hold; it is
    not kept. *)
Definition onOther {A : Type} (other : Model) (c : M A) : M A :=
  λ this, ((c other).1, this).

Definition is_undefined (v : val) : bool :=
  match v with VUndefined => true | _ => false end.

Definition val_is (v : val) (s : string) : bool :=
  match v with VString s' => bool_decide (s' = s) | _ => false end.

(** *** The state of a model, as its property lookups see it *)

Definition own_table (this : Model) : Table := default [] (m_own this).

Definition with_own (t : Table) (this : Model) : Model :=
  MkModel (m_id this) (Some t) (m_inherited this) (m_isNew this)
          (m_layerId this) (m_parentLayerId this).

(** The property a lookup of [name] finds, and its descriptor. *)
Definition resolve (this : Model) (name : string) : option Property :=
  lookup_chain name (chain this).

Definition descOf (this : Model) (name : string) : option (descriptor val) :=
  p_desc <$> resolve this name.

(** [this] once [$getProperty(name)] has run on it. *)
Definition materialize (name : string) (this : Model) : Model :=
  match resolve this name with
  | Some p =>
      if assoc_has name (own_table this) then with_own (own_table this) this
      else with_own (assoc_set name (Property_fork p this) (own_table this)) this
  | None => with_own (own_table this) this
  end.

(** [this] once the field object stored under [name] holds [f]. *)
Definition setFieldData (name : string) (f : Field) (this : Model) : Model :=
  (mutateField name (λ _, f) this).2.

(** What stays fixed while properties are read and fields are written. *)
Definition same_frame (this this' : Model) : Prop :=
  m_id this' = m_id this ∧ m_inherited this' = m_inherited this ∧
  m_isNew this' = m_isNew this ∧ m_layerId this' = m_layerId this ∧
  m_parentLayerId this' = m_parentLayerId this.

(** *** What a loop over the fields computes *)

Definition passes (filter : option (Field → bool)) (f : Field) : bool :=
  match filter with
  | Some g => g f
  | None => true
  end.

(** The accumulator of a loop whose body returns [au name field acc] at each
    field that passes the filter; [d] gives the descriptor of each name. *)
Fixpoint loopAcc {S : Type} (filter : option (Field → bool))
    (au : string → Field → S → result S)
    (d : string → option (descriptor val)) (names : list string) (acc : S) : result S :=
  match names with
  | [] => Ok acc
  | n :: ns =>
      match d n with
      | Some (DField f) =>
          if passes filter f then
            match au n f acc with
            | Ok acc' => loopAcc filter au d ns acc'
            | Throw e => Throw e
            end
          else loopAcc filter au d ns acc
      | _ => loopAcc filter au d ns acc
      end
  end.

(** The descriptor of [n] after a loop whose body leaves [fu n field] in
    each field that passes the filter. *)
Definition updDesc (filter : option (Field → bool)) (fu : string → Field → Field)
    (n : string) (d : option (descriptor val)) : option (descriptor val) :=
  match d with
  | Some (DField f) => if passes filter f then Some (DField (fu n f)) else d
  | _ => d
  end.

(** The loop shared by [__assignObject] and [__assignOther]: each entry whose
    name is a field is stored with [store]. *)
Definition assignEntries (store : val → Field → Field) (entries : list (string * val))
  : M unit :=
  foldr (λ '(name, value) rest,
           do has <- hasField name;
           run (if has then
                  run getField name true;
                  mutateField name (store value)
                else ret tt);
           rest)
        (ret tt) entries.

(** The descriptor of [name] once the entries have been assigned. *)
Definition assignedDesc (store : val → Field → Field) (entries : list (string * val))
    (name : string) (d : option (descriptor val)) : option (descriptor val) :=
  match d, assoc_get name entries with
  | Some (DField f), Some v => Some (DField (store v f))
  | _, _ => d
  end.

Section Methods.

(** The parts of the field, serialization and registration classes that the
    model calls and that are not among the sources, taken as given. *)

(** The value [field.createValue(raw)] builds for a field of a given type. *)
Variable createdValue : string → val → val.
(** [field.serializeValue({target, fields})] *)
Variable serializeValue : Field → option string → fmask → val.
(** [field.deserializeValue(value, {source, fields})]: the field afterwards
    and the [missingFields] it reports. *)
Variable deserializeValue : Field → val → option string → fmask → Field * option FieldMask.
(** [super.$serialize()] and [super.$deserialize(object)] *)
Variable super_serialize : Model → list (string * val).
Variable super_deserialize : list (string * val) → Model → Model.
(** [new Field(parent, name, options)] and [property.getOptions()] *)
Variable Field_new : Model → string → list (string * val) → result (descriptor val).
Variable getOptions : Property → list (string * val).
(** The prototypes of the registered model classes, by type name. *)
Variable schema : gmap string Model.

(** Modelled from the spec: [field.createValue(value)] and
    [field.setValue(value)] of [./field]; both leave the field active. *)
Definition Field_createValue (value : val) (f : Field) : Field :=
  MkField (f_type f) (f_scalarType f) (f_exposed f) (f_default f) true
          (createdValue (f_type f) value).

Definition Field_setValue (value : val) (f : Field) : Field :=
  MkField (f_type f) (f_scalarType f) (f_exposed f) (f_default f) true value.

(** *** The constructor, after [super(object, {isDeserializing})] *)
Definition constructor (object : list (string * val)) (isDeserializing : bool) : M unit :=
  if isDeserializing then ret tt
  else
    forFields None
      (λ name field _,
         match assoc_get name object with
         | Some value => mutateField name (Field_createValue value)
         | None =>
             let defaultValue := f_default field in
             mutateField name (Field_setValue defaultValue)
         end) tt.

(** *** [$assign] *)
Definition __assignObject (object : val) : M unit :=
  match object with
  | VObject entries =>
      foldr (λ '(name, value) rest,
               do has <- hasField name;
               run (if has then
                      run getField name true;
                      mutateField name (Field_createValue value)
                    else ret tt);
               rest)
            (ret tt) entries
  | _ => throw NativeTypeError   (* Object.entries(null) *)
  end.

(** The names and values [other.$getActiveFields()] yields. *)
Definition activeFieldsOf (other : Model) : M (list (string * val)) :=
  onOther other
    (forFields (activeFilter None)
       (λ name field acc, ret (acc ++ [(name, f_value field)])) []).

Definition __assignOther (other : val) : M unit :=
  match other with
  | VModel other =>
      do otherFields <- activeFieldsOf other;
      foldr (λ '(name, value) rest,
               do has <- hasField name;
               run (if has then
                      run getField name true;
                      mutateField name (Field_setValue value)
                    else ret tt);
               rest)
            (ret tt) otherFields
  | _ => throw NativeTypeError
  end.

Definition assign (object : val) : M unit :=
  match object with
  | VUndefined => ret tt   (* NOOP *)
  | _ =>
      if isModel object then __assignOther object
      else if bool_decide (typeof object = "object") then __assignObject object
      else throw TypeMismatch
  end.

(** *** Field masks *)

(** Modelled from the spec: [field._createFieldMask(fieldMask, {...})] of
    [./field].  It computes the nested mask for the field's value type: when
    the scalar type names a registered model, that model's prototype
    normalizes the nested selector with the same [_typeStack]; any other type
    has no fields to select from and gives [true]. *)
Definition Field__createFieldMask
    (recur : fmask → gset string → M (list (string * fmask) * gset string))
    (field : Field) (fieldMask : fmask) (_typeStack : gset string)
  : M (fmask * gset string) :=
  match schema !! f_scalarType field with
  | Some prototype =>
      do '(nested, stack) <- onOther prototype (recur fieldMask _typeStack);
      ret (FObj nested, stack)
  | None => ret (FBool true, _typeStack)
  end.

(** The body of the loop of [__createFieldMask], for the field [name]. *)
Definition maskStep
    (recur : fmask → gset string → M (list (string * fmask) * gset string))
    (rootFieldMask : fmask) (name : string) (field : Field)
    (acc : list (string * fmask) * gset string)
  : M (list (string * fmask) * gset string) :=
  let '(normalizedFieldMask, _typeStack) := acc in
  let type := f_scalarType field in
  if bool_decide (type ∈ _typeStack) then
    (* Avoid looping indefinitely when a circular type is encountered *)
    ret (normalizedFieldMask, _typeStack)
  else
    let fieldMask :=
      match rootFieldMask with
      | FObj entries => object_get name entries
      | FBool b => Some (FBool b)
      end in
    match fieldMask with
    | None | Some (FBool false) => ret (normalizedFieldMask, _typeStack)
    | Some fieldMask =>
        let _typeStack := {[type]} ∪ _typeStack in
        do '(nested, _typeStack) <-
          Field__createFieldMask recur field fieldMask _typeStack;
        let _typeStack := _typeStack ∖ {[type]} in
        ret (assoc_set name nested normalizedFieldMask, _typeStack)
    end.

(** [__createFieldMask(rootFieldMask, {filter, includeReferencedEntities,
    _typeStack})].  The [_typeStack] set is shared by all the nested calls:
    it is passed in and handed back.  [fuel] bounds the nesting depth. *)
Fixpoint __createFieldMask (fuel : nat) (filter : option (Field → bool))
    (includeReferencedEntities : bool) (rootFieldMask : fmask)
    (_typeStack : gset string)
  : M (list (string * fmask) * gset string) :=
  match fuel with
  | 0 => throw DepthExhausted
  | S fuel' =>
      forFields filter
        (maskStep (__createFieldMask fuel' filter includeReferencedEntities) rootFieldMask)
        ([], _typeStack)
  end.

(** What the selector [rootFieldMask] says about the field [name]. *)
Definition selected (rootFieldMask : fmask) (name : string) : option fmask :=
  match rootFieldMask with
  | FObj entries => object_get name entries
  | FBool b => Some (FBool b)
  end.

(** What [field._createFieldMask] returns; it does not depend on [this]. *)
Definition nestedMask
    (recur : fmask → gset string → M (list (string * fmask) * gset string))
    (field : Field) (fieldMask : fmask) (_typeStack : gset string)
  : result (fmask * gset string) :=
  match schema !! f_scalarType field with
  | Some prototype =>
      match (recur fieldMask _typeStack prototype).1 with
      | Ok (nested, stack) => Ok (FObj nested, stack)
      | Throw e => Throw e
      end
  | None => Ok (FBool true, _typeStack)
  end.

(** What one step of the loop returns. *)
Definition maskStepResult
    (recur : fmask → gset string → M (list (string * fmask) * gset string))
    (rootFieldMask : fmask) (name : string) (field : Field)
    (acc : list (string * fmask) * gset string)
  : result (list (string * fmask) * gset string) :=
  let type := f_scalarType field in
  if bool_decide (type ∈ acc.2) then Ok acc
  else if mask_truthy (selected rootFieldMask name) then
    match nestedMask recur field (default (FBool false) (selected rootFieldMask name))
                     ({[type]} ∪ acc.2) with
    | Ok (nested, stack) => Ok (assoc_set name nested acc.1, stack ∖ {[type]})
    | Throw e => Throw e
    end
  else Ok acc.

(** What a finished mask holds for [name], given the descriptor [d] of that
    name: nothing, unless [name] is a field that passes the filter, whose
    scalar type is not in [stack] and which the selector selects; then it
    holds the nested mask computed with the type added to [stack]. *)
Definition maskEntrySpec
    (recur : fmask → gset string → M (list (string * fmask) * gset string))
    (filter : option (Field → bool)) (root : fmask) (stack : gset string)
    (name : string) (d : option (descriptor val)) (entry : option fmask) : Prop :=
  match d with
  | Some (DField f) =>
      if passes filter f && negb (bool_decide (f_scalarType f ∈ stack))
         && mask_truthy (selected root name)
      then ∃ nested,
             entry = Some nested ∧
             nestedMask recur f (default (FBool false) (selected root name))
                        ({[f_scalarType f]} ∪ stack)
             = Ok (nested, {[f_scalarType f]} ∪ stack)
      else entry = None
  | _ => entry = None
  end.

(** [$createFieldMask(fields = true, {filter, includeReferencedEntities})].
    A fresh [_typeStack] is made for each call.  No nesting is deeper than
    the number of registered model types plus one. *)
Definition createFieldMask (fields : option fmask) (filter : option (Field → bool))
    (includeReferencedEntities : bool) : M FieldMask :=
  let fields := default (FBool true) fields in
  do '(fields, _) <-
    __createFieldMask (S (size schema)) filter includeReferencedEntities fields ∅;
  ret fields.

(** [$createFieldMaskForExposedFields(fields = true)] *)
Definition createFieldMaskForExposedFields (fields : option fmask) : M FieldMask :=
  createFieldMask fields (Some f_exposed) false.

(** *** [$serialize({target, fields})] *)

Definition targetIsLower (target : option string) (this : Model) : bool :=
  match target with
  | None => false
  | Some t =>
      negb (bool_decide (Some t = m_layerId this)
            || bool_decide (Some t = m_parentLayerId this))
  end.

Definition serializeFields (target : option string) (rootFieldMask : FieldMask)
  : M (list (string * val)) :=
  forFields (activeFilter None)
    (λ name field serializedFields,
       let fieldMask := FieldMask_get rootFieldMask name in
       if negb (mask_truthy (Some fieldMask)) then ret serializedFields
       else
         let value := serializeValue field target fieldMask in
         if negb (is_undefined value) then ret (assoc_set name value serializedFields)
         else ret serializedFields)
    [].

Definition serialize (target : option string) (fields : option fmask)
  : M (list (string * val)) :=
  do lower <- gets (targetIsLower target);
  do rootFieldMask <-
    (if lower then createFieldMaskForExposedFields fields
     else createFieldMask fields None false);
  do serializedFields <- serializeFields target rootFieldMask;
  do base <- gets super_serialize;
  ret (spread base serializedFields).

(** *** [$deserialize(object, {source, fields})] *)

(** The loop over [this.$getFieldNames()] is the loop over [this.$getFields()]
    that hands on each field's name. *)

Definition recordMissing (name : string) (x : fmask) (rootMissingFields : option FieldMask)
  : option FieldMask :=
  Some (FieldMask_set name x (default [] rootMissingFields)).

Definition deserialize (object : list (string * val)) (source : option string)
    (fields : option fmask) : M (option FieldMask) :=
  run modify (super_deserialize object);
  do rootFieldMask <- createFieldMask fields None false;
  do isNew <- gets m_isNew;
  forFields None
    (λ name _ rootMissingFields,
       let fieldMask := FieldMask_get rootFieldMask name in
       if negb (mask_truthy (Some fieldMask)) then ret rootMissingFields
       else
         match assoc_get name object with
         | Some value =>
             do field <- getField name true;
             match p_desc <$> field with
             | Some (DField f) =>
                 let '(f', missingFields) := deserializeValue f value source fieldMask in
                 run mutateField name (λ _, f');
                 match missingFields with
                 | Some missingFields =>
                     ret (recordMissing name (FObj missingFields) rootMissingFields)
                 | None => ret rootMissingFields
                 end
             | _ => throw NotAField
             end
         | None =>
             if isNew then
               do field <- getField name true;
               match p_desc <$> field with
               | Some (DField f) =>
                   let defaultValue := f_default f in
                   run mutateField name (Field_setValue defaultValue);
                   ret rootMissingFields
               | _ => throw NotAField
               end
             else ret (recordMissing name fieldMask rootMissingFields)
         end)
    None.

(** *** What serialization and deserialization leave for one field *)

(** The entry [$serialize] writes for the field [f] stored under [name]. *)
Definition serializedEntry (target : option string) (rootFieldMask : FieldMask)
    (name : string) (f : Field) : option val :=
  let fieldMask := FieldMask_get rootFieldMask name in
  if negb (mask_truthy (Some fieldMask)) then None
  else
    let value := serializeValue f target fieldMask in
    if negb (is_undefined value) then Some value else None.

(** The field [$deserialize] leaves under [name], and what it records as
    missing for it. *)
Definition deserializedField (object : list (string * val)) (source : option string)
    (rootFieldMask : FieldMask) (isNew : bool) (name : string) (f : Field) : Field :=
  let fieldMask := FieldMask_get rootFieldMask name in
  if negb (mask_truthy (Some fieldMask)) then f
  else
    match assoc_get name object with
    | Some value => (deserializeValue f value source fieldMask).1
    | None => if isNew then Field_setValue (f_default f) f else f
    end.

Definition missingEntry (object : list (string * val)) (source : option string)
    (rootFieldMask : FieldMask) (isNew : bool) (name : string) (f : Field) : option fmask :=
  let fieldMask := FieldMask_get rootFieldMask name in
  if negb (mask_truthy (Some fieldMask)) then None
  else
    match assoc_get name object with
    | Some value => FObj <$> (deserializeValue f value source fieldMask).2
    | None => if isNew then None else Some fieldMask
    end.

(** *** [$setProperty] and [$setField] *)

Definition setProperty
    (ctor : Model → string → list (string * val) → result (descriptor val))
    (name : string) (options : list (string * val)) : M Property :=
  do has <- hasProperty name;
  do options <-
    (if has then
       do existingProperty <- getProperty name true;
       match existingProperty with
       | Some existingProperty => ret (spread (getOptions existingProperty) options)
       | None => throw PropertyNotFound
       end
     else ret options);
  run __getProperties;
  do made <- gets (λ this, ctor this name options);
  match made with
  | Ok desc =>
      do property <- gets (λ this, MkProperty (m_id this) desc);
      run setOwnProperty name property;
      ret property
  | Throw e => throw e
  end.

Definition setField (name : string) (options : list (string * val)) : M Property :=
  do has <- hasProperty name;
  run (if has then
         do existingField <- getField name true;
         match p_desc <$> existingField with
         | Some (DField existingField) =>
             let type := default VUndefined (assoc_get "type" options) in
             if negb (is_undefined type) && negb (val_is type (f_type existingField))
             then throw TypeRedeclaration
             else ret tt
         | _ => throw NotAField
         end
       else ret tt);
  setProperty Field_new name options.

End Methods.

(** *** Methods, validation, inspection and accessors *)

(** The errors of these functions that are not among [error]. *)
Inductive failure : Type :=
| Thrown (e : error)
| MethodNotFound            (* "Method not found" *)
| NotAMethod                (* "Found property is not a method" *)
| ValidationFailed (failedValidators : list (string * val)).
                            (* "Model validation failed", with [error.failedValidators] *)

Inductive outcome (A : Type) : Type :=
| Returns (a : A)
| Fails (f : failure).
Arguments Returns {A} a.
Arguments Fails {A} f.

Definition lift {A : Type} (c : M A) : Model → outcome A * Model :=
  λ this,
    match c this with
    | (Ok a, this') => (Returns a, this')
    | (Throw e, this') => (Fails (Thrown e), this')
    end.

(** [$getMethod(name, {throwIfNotFound})] *)
Definition getMethod (name : string) (throwIfNotFound : bool)
  : Model → outcome (option Property) * Model :=
  λ this,
    match getProperty name false this with
    | (Ok None, this') =>
        if throwIfNotFound then (Fails MethodNotFound, this') else (Returns None, this')
    | (Ok (Some property), this') =>
        if negb (isMethod property) then (Fails NotAMethod, this')
        else (Returns (Some property), this')
    | (Throw e, this') => (Fails (Thrown e), this')
    end.

(** [$hasMethod(name)] *)
Definition hasMethod (name : string) : Model → outcome bool * Model :=
  λ this,
    match getMethod name false this with
    | (Returns m, this') => (Returns (bool_decide (is_Some m)), this')
    | (Fails f, this') => (Fails f, this')
    end.

(** The filter [$getMethods({filter})] hands to [$getProperties]. *)
Definition methodsFilter (otherFilter : option (Property → bool)) (p : Property) : bool :=
  if negb (isMethod p) then false
  else match otherFilter with
       | Some g => g p
       | None => true
       end.

(** [$getMethodNames()], as a loop collecting the names in order. *)
Definition getMethodNames : M (list string) :=
  do names <- gets getPropertyNames;
  forProperties names (methodsFilter None) (λ name _ acc, ret (acc ++ [name])) [].

(** The field accessors the [field] decorator installs on a model:
    [get() { return this.$getField(name).getValue() }] and
    [set(value) { return this.$getField(name).setValue(value) }].
    Modelled from the spec: [field.getValue()] of [./field] reads the value
    slot. *)
Definition accessor_get (name : string) : M val :=
  do field <- getField name true;
  match p_desc <$> field with
  | Some (DField f) => ret (f_value f)
  | _ => throw NotAField
  end.

(** [[inspect.custom]()]: the active fields whose value is not undefined. *)
Definition inspect : M (list (string * val)) :=
  forFields (activeFilter None)
    (λ name field object,
       let value := f_value field in
       if negb (is_undefined value) then ret (assoc_set name value object)
       else ret object)
    [].

Section MoreMethods.

(** [property.getOptions()] and [new Method(parent, name, options)], taken as
    given, like their field counterparts. *)
Variable getOptions : Property → list (string * val).
Variable Method_new : Model → string → list (string * val) → result (descriptor val).
(** [field.getFailedValidators({fields})], [field.getValues()] and lodash's
    [isEmpty], taken as given. *)
Variable Field_getFailedValidators : Field → fmask → val.
Variable Field_getValues : Field → list val.
Variable isEmpty : val → bool.
(** The prototypes of the registered model classes, by type name. *)
Variable schema : gmap string Model.

(** [$setMethod(name, options)] *)
Definition setMethod (name : string) (options : list (string * val))
  : Model → outcome Property * Model :=
  λ this,
    match hasProperty name this with
    | (Ok has, this1) =>
        match (if has then getMethod name true this1 (* Make sure the property is a method *)
               else (Returns None, this1)) with
        | (Returns _, this2) => lift (setProperty getOptions Method_new name options) this2
        | (Fails f, this2) => (Fails f, this2)
        end
    | (Throw e, this1) => (Fails (Thrown e), this1)
    end.

(** The setter of the field accessor. *)
Definition accessor_set (name : string) (value : val) : M unit :=
  run getField name true;
  mutateField name (Field_setValue value).

(** [$createFieldMaskForActiveFields()] *)
Definition createFieldMaskForActiveFields : M FieldMask :=
  createFieldMask schema (Some (FBool true)) (Some f_active) false.

(** [$getFieldValues({fields, filter})]: the root mask is computed when the
    method is called; the values are then yielded field by field. *)
Definition getFieldValues (fields : option fmask) (filter : option (Field → bool))
  : M (list (val * fmask)) :=
  do rootFieldMask <- createFieldMask schema fields None true;
  forFields (activeFilter filter)
    (λ name field yielded,
       let fieldMask := FieldMask_get rootFieldMask name in
       if negb (mask_truthy (Some fieldMask)) then ret yielded
       else ret (yielded ++ map (λ value, (value, fieldMask)) (Field_getValues field)))
    [].

(** [$getFailedValidators({fields})] *)
Definition getFailedValidators (fields : option fmask) : M (option (list (string * val))) :=
  do rootFieldMask <- createFieldMask schema fields None false;
  forFields (activeFilter None)
    (λ name field result,
       let fieldMask := FieldMask_get rootFieldMask name in
       if negb (mask_truthy (Some fieldMask)) then ret result
       else
         let failedValidators := Field_getFailedValidators field fieldMask in
         if negb (isEmpty failedValidators)
         then ret (Some (assoc_set name failedValidators (default [] result)))
         else ret result)
    None.

(** [$validate({fields})] *)
Definition validate (fields : option fmask) : Model → outcome unit * Model :=
  λ this,
    match getFailedValidators fields this with
    | (Ok (Some failedValidators), this') => (Fails (ValidationFailed failedValidators), this')
    | (Ok None, this') => (Returns tt, this')
    | (Throw e, this') => (Fails (Thrown e), this')
    end.

(** [$isValid({fields})] *)
Definition isValid (fields : option fmask) : M bool :=
  do failedValidators <- getFailedValidators fields;
  ret (match failedValidators with None => true | Some _ => false end).

End MoreMethods.

(** The type check of [$setField] on an existing field: a [type] option
    that is given and differs from the field's type. *)
Definition redeclares (options : list (string * val)) (f : Field) : bool :=
  negb (is_undefined (default VUndefined (assoc_get "type" options)))
  && negb (val_is (default VUndefined (assoc_get "type" options)) (f_type f)).

(** What [$getFailedValidators] records for the active field [name]. *)
Definition failedEntry (Field_getFailedValidators : Field → fmask → val)
    (isEmpty : val → bool) (rootFieldMask : FieldMask) (name : string) (field : Field)
  : option val :=
  let fieldMask := FieldMask_get rootFieldMask name in
  if negb (mask_truthy (Some fieldMask)) then None
  else
    let failedValidators := Field_getFailedValidators field fieldMask in
    if negb (isEmpty failedValidators) then Some failedValidators else None.

(** No property of [this] has the name of a member of [Object.prototype]. *)
Definition plainlyNamed (this : Model) : bool :=
  forallb (λ name, negb (bool_decide (is_Some (resolve this name))))
          ("__proto__" :: Object_prototype_methods).

(** Whether [name] resolves to a field, or to a method, of [this]. *)
Definition isFieldName (this : Model) (name : string) : bool :=
  match descOf this name with Some (DField _) => true | _ => false end.

Definition isMethodName (this : Model) (name : string) : bool :=
  match descOf this name with Some DMethod => true | _ => false end.

(** *** A sample model: [Movie] with a field [title] and a method [load] *)

Definition titleField : Field :=
  MkField "string" "string" false (VString "") false VUndefined.

Definition Movie_properties : Table :=
  [("title", MkProperty 1 (DField titleField)); ("load", MkProperty 1 DMethod)].

Definition Movie_prototype : Model :=
  MkModel 1 (Some Movie_properties) [] false None None.

(** An instance of [Movie] before its constructor has filled any field. *)
Definition movie : Model :=
  MkModel 2 None [Movie_properties] true None None.

(** A [createValue] that stores the raw value as it is. *)
Definition rawValue : string → val → val := λ _ v, v.

(** A model type that refers to itself: [Person] with [name : string] and
    [friend : Person], both exposed. *)
Definition Person_properties : Table :=
  [("name", MkProperty 3 (DField (MkField "string" "string" true (VString "") false VUndefined)));
   ("friend", MkProperty 3 (DField (MkField "Person" "Person" true VUndefined false VUndefined)))].

Definition Person_prototype : Model :=
  MkModel 3 (Some Person_properties) [] false (Some "backend") None.

Definition sampleSchema : gmap string Model := {["Person" := Person_prototype]}.

(** A hydrated person in the layer [backend], with [name] active. *)
Definition alice : Model :=
  MkModel 4
    (Some [("name", MkProperty 4 (DField (MkField "string" "string" true (VString "")
                                            true (VString "Alice"))))])
    [Person_properties] false (Some "backend") None.

(** A model one of whose fields has the name of a member of
    [Object.prototype]. *)
Definition oddlyNamed : Model :=
  MkModel 6
    (Some [("constructor", MkProperty 6 (DField titleField));
           ("title", MkProperty 6 (DField titleField))])
    [] false None None.

(** A model some of whose property names are array indices. *)
Definition numbered : Model :=
  MkModel 7
    (Some [("b", MkProperty 7 (DField titleField));
           ("10", MkProperty 7 (DField titleField));
           ("load", MkProperty 7 DMethod);
           ("2", MkProperty 7 (DField titleField))])
    [] false None None.

(** Stand-ins for the collaborators: values serialize to themselves, the base
    representation is the type tag, deserialization stores the raw value and
    reports nothing missing, the base merge changes nothing, and the field
    constructor takes its type from the options. *)
Definition sampleSerializeValue : Field → option string → fmask → val :=
  λ f _ _, f_value f.

Definition sampleBase : Model → list (string * val) :=
  λ _, [("_type", VString "Person")].

Definition sampleDeserializeValue
  : Field → val → option string → fmask → Field * option FieldMask :=
  λ f v _ _,
    (MkField (f_type f) (f_scalarType f) (f_exposed f) (f_default f) true v, None).

Definition sampleMerge : list (string * val) → Model → Model := λ _ this, this.

Definition sampleFieldNew : Model → string → list (string * val) → result (descriptor val) :=
  λ _ _ options,
    match assoc_get "type" options with
    | Some (VString t) => Ok (DField (MkField t t false VUndefined false VUndefined))
    | _ => Throw ArgumentError
    end.

Definition sampleGetOptions : Property → list (string * val) :=
  λ p,
    match p_desc p with
    | DField f => [("type", VString (f_type f))]
    | DMethod => []
    end.

End Model.

(** * Properties of the registry *)

Module LayerProofs.
Import Layer.

(** ** Lookups that succeed keep succeeding *)

Lemma get_from_allocated n os l k v :
  get_from n os l k = Some v → is_Some (os !! l).
Proof.
  destruct n as [|n]; simpl; [done|].
  destruct (os !! l); [eauto | done].
Qed.

Lemma get_from_mono (n m : nat) os l k v :
  n ≤ m → get_from n os l k = Some v → get_from m os l k = Some v.
Proof.
  revert m l. induction n as [|n IH]; intros m l Hle; simpl; [done|].
  destruct m as [|m]; [lia|]. simpl.
  destruct (os !! l) as [o|]; [|done].
  destruct (own o !! k); [done|].
  destruct (proto o); [|done].
  apply IH. lia.
Qed.

Lemma get_from_app n os os' l k v :
  get_from n os l k = Some v → get_from n (os ++ os') l k = Some v.
Proof.
  revert l. induction n as [|n IH]; intros l; simpl; [done|].
  destruct (os !! l) as [o|] eqn:E; [|done].
  rewrite (lookup_app_l_Some _ _ _ _ E).
  destruct (own o !! k); [done|].
  destruct (proto o); [|done]. apply IH.
Qed.

Lemma get_from_agree n os os' l k v :
  (∀ l o, os !! l = Some o → os' !! l = Some o) →
  get_from n os l k = Some v → get_from n os' l k = Some v.
Proof.
  intros Hagree. revert l. induction n as [|n IH]; intros l; cbn [get_from]; [done|].
  destruct (os !! l) as [o|] eqn:E; [|done].
  rewrite (Hagree _ _ E).
  destruct (own o !! k); [done|].
  destruct (proto o); [|done]. apply IH.
Qed.

(** On a store built by allocation, more links than [S l] change nothing:
    the walk from [l] has ended by then. *)
Lemma get_from_enough h (n : nat) l k :
  heap_wf h → l < n → get_from n (objs h) l k = get_from (S l) (objs h) l k.
Proof.
  intros Hwf. revert n. induction (lt_wf l) as [l _ IH]. intros n Hlt.
  destruct n as [|n]; [lia|]. cbn [get_from].
  destruct (objs h !! l) as [o|] eqn:E; [|done].
  destruct (own o !! k); [done|].
  destruct (proto o) as [p|] eqn:Ep; [|done].
  pose proof (Hwf l o p E Ep) as Hp.
  rewrite (IH p Hp n) by lia. by rewrite (IH p Hp l) by lia.
Qed.

Lemma heap_wf_create h p :
  (∀ q, p = Some q → q < length (objs h)) → heap_wf h → heap_wf (create p h).2.
Proof.
  intros Hp Hwf l o q Hl Hq. cbn in Hl.
  apply lookup_app_Some in Hl as [Hl|[Hge Hl]]; [by eapply Hwf|].
  apply list_lookup_singleton_Some in Hl as [Hz <-]. cbn in Hq.
  specialize (Hp q Hq). lia.
Qed.

Lemma heap_wf_set h l k v : heap_wf h → heap_wf (set l k v h).
Proof.
  intros Hwf l' o q Hl Hq. unfold set in Hl.
  destruct (objs h !! l) as [ol|] eqn:E; [|by eapply Hwf].
  cbn [objs] in Hl. destruct (decide (l' = l)) as [->|Hne].
  - rewrite list_lookup_insert_eq in Hl by (by eapply lookup_lt_Some).
    injection Hl as <-. by eapply Hwf.
  - rewrite list_lookup_insert_ne in Hl by done. by eapply Hwf.
Qed.

Lemma get_from_insert_ne n os l' o' k' v' l k v :
  os !! l' = Some o' → k ≠ k' →
  get_from n os l k = Some v →
  get_from n (<[l' := MkObj (proto o') (<[k' := v']> (own o'))]> os) l k = Some v.
Proof.
  intros Hl' Hk. revert l. induction n as [|n IH]; intros l; simpl; [done|].
  destruct (os !! l) as [o|] eqn:E; [|done].
  destruct (decide (l = l')) as [->|Hne].
  - rewrite list_lookup_insert_eq; [|by eapply lookup_lt_Some].
    rewrite Hl' in E. injection E as <-.
    simpl. rewrite lookup_insert_ne; [|done].
    destruct (own o' !! k); [done|].
    destruct (proto o'); [|done]. apply IH.
  - rewrite list_lookup_insert_ne; [|done]. rewrite E.
    destruct (own o !! k); [done|].
    destruct (proto o); [|done]. apply IH.
Qed.

Lemma get_set_ne h l' k' v' l k v :
  k ≠ k' → get h l k = Some v → get (set l' k' v' h) l k = Some v.
Proof.
  intros Hk Hg. unfold get, set in *.
  destruct (objs h !! l') as [o'|] eqn:E; [|done].
  by apply get_from_insert_ne.
Qed.

Lemma get_set_own h l k v :
  is_Some (objs h !! l) → get (set l k v h) l k = Some v.
Proof.
  intros [o E]. unfold get, set. rewrite E. simpl.
  rewrite list_lookup_insert_eq; [|by eapply lookup_lt_Some].
  simpl. by rewrite lookup_insert_eq.
Qed.

Lemma get_create h p l k v :
  get h l k = Some v → get (create p h).2 l k = Some v.
Proof. unfold get. apply get_from_app. Qed.

(** Reading through a direct fork: a key the fork does not own is read
    from the object it delegates to. *)
Lemma get_delegates h (F : loc) o (L : loc) k v :
  objs h !! F = Some o → proto o = Some L → own o !! k = None → L < F →
  get h L k = Some v → get h F k = Some v.
Proof.
  intros HF HL Hown Hlt Hg. unfold get in *. cbn [get_from].
  rewrite HF, Hown, HL.
  eapply get_from_mono; [|exact Hg]. lia.
Qed.

Lemma set_objs_other h l k v l' :
  l' ≠ l → objs (set l k v h) !! l' = objs h !! l'.
Proof.
  intros Hne. unfold set. destruct (objs h !! l); [|done].
  simpl. by rewrite list_lookup_insert_ne.
Qed.

Lemma set_comps h l k v : comps (set l k v h) = comps h.
Proof. unfold set. by destruct (objs h !! l). Qed.

(** ** What [fork] builds *)

Lemma fork_spec this cm h :
  get h this "_components" = Some (VObj cm) →
  fork this h = (Ok (length (objs h)), forked_heap this cm h).
Proof.
  intros Hg. unfold fork.
  pose proof (get_create h (Some this) _ _ _ Hg) as Hg1.
  unfold create in *. cbn [snd] in Hg1. rewrite Hg1.
  unfold set, forked_heap. cbn [objs comps].
  rewrite <- (assoc_L (++)). rewrite lookup_app_r; [|lia].
  rewrite Nat.sub_diag. cbn [lookup list_lookup app proto own].
  f_equal. f_equal.
  rewrite insert_app_r_alt; [|lia].
  rewrite Nat.sub_diag. cbn [app insert list_insert].
  rewrite length_app. cbn [length].
  by rewrite insert_empty, Nat.add_1_r.
Qed.

Lemma get_allocated h l k v : get h l k = Some v → l < length (objs h).
Proof.
  intros Hg. apply get_from_allocated in Hg as [o Ho].
  by eapply lookup_lt_Some.
Qed.

Lemma forked_heap_old this cm h l :
  l < length (objs h) → objs (forked_heap this cm h) !! l = objs h !! l.
Proof. intros Hl. unfold forked_heap. cbn [objs]. by rewrite lookup_app_l. Qed.

Lemma forked_heap_get this cm h l k v :
  get h l k = Some v → get (forked_heap this cm h) l k = Some v.
Proof. unfold get, forked_heap. cbn [objs]. apply get_from_app. Qed.

Lemma forked_heap_layer this cm h :
  objs (forked_heap this cm h) !! length (objs h)
  = Some (MkObj (Some this) {["_components" := VObj (S (length (objs h)))]}).
Proof.
  unfold forked_heap. cbn [objs]. rewrite lookup_app_r; [|lia].
  by rewrite Nat.sub_diag.
Qed.

Lemma forked_heap_map this cm h :
  objs (forked_heap this cm h) !! S (length (objs h)) = Some (MkObj (Some cm) ∅).
Proof.
  unfold forked_heap. cbn [objs]. rewrite lookup_app_r; [|lia].
  by replace (S (length (objs h)) - length (objs h)) with 1 by lia.
Qed.

Lemma heap_wf_forked this cm h :
  heap_wf h → this < length (objs h) → cm ≤ length (objs h) →
  heap_wf (forked_heap this cm h).
Proof.
  intros Hwf Hthis Hcm l o q Hl Hq. unfold forked_heap in Hl. cbn [objs] in Hl.
  apply lookup_app_Some in Hl as [Hl|[Hge Hl]]; [by eapply Hwf|].
  destruct (l - length (objs h)) as [|[|n]] eqn:E; cbn in Hl; [| |done].
  - injection Hl as <-. cbn in Hq. injection Hq as <-. lia.
  - injection Hl as <-. cbn in Hq. injection Hq as <-. lia.
Qed.

Lemma sampleLayer_wf : heap_wf sampleLayer.
Proof.
  intros l o q Hl Hq. destruct l as [|[|l]]; vm_compute in Hl; [| |done].
  - injection Hl as <-. discriminate.
  - injection Hl as <-. discriminate.
Qed.

Lemma fork_reads_origin this cm h k v :
  get h this "_components" = Some (VObj cm) → k ≠ "_components" →
  get h this k = Some v →
  get (forked_heap this cm h) (length (objs h)) k = Some v.
Proof.
  intros Hcm Hk Hg.
  eapply get_delegates.
  - apply forked_heap_layer.
  - done.
  - cbn [own]. by rewrite lookup_singleton_ne.
  - by eapply get_allocated.
  - by apply forked_heap_get.
Qed.

(** ** The cached ghost *)

Lemma getGhost_hit h L cm g :
  has_ghost h L cm g → getGhost L h = (Ok (Some g), h).
Proof.
  intros (_ & Hg & Ht). unfold getGhost. by rewrite Hg, Ht.
Qed.

Lemma getGhost_spec h L cm :
  get h L "_components" = Some (VObj cm) →
  ∃ g h1,
    getGhost L h = (Ok (Some g), h1) ∧ has_ghost h1 L cm g ∧
    (∀ l o, l ≠ L → objs h !! l = Some o → objs h1 !! l = Some o).
Proof.
  intros Hcm. unfold getGhost.
  destruct (truthy (get h L "_ghost")) eqn:Ht; cbn [negb].
  - destruct (get h L "_ghost") as [g|] eqn:Hg; [|done].
    exists g, h. repeat split; auto.
  - rewrite (fork_spec _ _ _ Hcm).
    assert (L < length (objs h)) as HL by (by eapply get_allocated).
    assert (get (set L "_ghost" (VObj (length (objs h))) (forked_heap L cm h)) L "_ghost"
            = Some (VObj (length (objs h)))) as Hg.
    { apply get_set_own. rewrite forked_heap_old; [|done].
      by apply lookup_lt_is_Some. }
    rewrite Hg. eexists _, _. split; [done|]. split.
    + split; [|done]. apply get_set_ne; [done|]. by apply forked_heap_get.
    + intros l o Hne Hl. rewrite set_objs_other; [|done].
      rewrite forked_heap_old; [done|]. by eapply lookup_lt_Some.
Qed.

Lemma direct_fork_ghost h (F : loc) o (L : loc) cm g :
  objs h !! F = Some o → proto o = Some L → own o !! "_ghost" = None → L < F →
  has_ghost h L cm g →
  getGhost F h = (Ok (Some g), h).
Proof.
  intros HF HL Hown Hlt (Hcm & Hg & Ht).
  assert (get h F "_ghost" = Some g) as HgF by (by eapply get_delegates).
  unfold getGhost. by rewrite HgF, Ht.
Qed.

Lemma fork_then_getGhost h L cm g :
  has_ghost h L cm g →
  getGhost (length (objs h)) (forked_heap L cm h) = (Ok (Some g), forked_heap L cm h).
Proof.
  intros (Hcm & Hg & Ht).
  eapply direct_fork_ghost with (L := L) (cm := cm).
  - apply forked_heap_layer.
  - done.
  - done.
  - by eapply get_allocated.
  - split; [|split]; [by apply forked_heap_get | by apply forked_heap_get | done].
Qed.

(** C10.  [getGhost()] is idempotent and its cache is shared down forks: on
    a layer [L] the first call yields an object [g], which is what [L] then
    holds in [_ghost] and is truthy.  If [L] held no ghost, [g] is the
    object that [L.fork()] creates, a fork of [L], and the store is the one
    that fork and the write of [_ghost] leave; if [L] held one, [g] is that
    one and nothing changes.  The second call, and any number of later
    calls, yield the same [g] and change nothing; a fork made from [L]
    afterwards answers [getGhost()] with [g], which it reads from [L], and
    gets no [_ghost] of its own; and a fork made before [L]'s first call,
    asked after it, answers with the ghost that call cached in [L], found
    through delegation. *)
Theorem getGhost_cached_and_shared (h : heap) (L cm : loc) :
  get h L "_components" = Some (VObj cm) →
  ∃ g h1,
    getGhost L h = (Ok (Some g), h1) ∧
    (get h1 L "_ghost" = Some g ∧ truthy (Some g) = true) ∧
    (truthy (get h L "_ghost") = false →
       g = VObj (length (objs h)) ∧
       fork L h = (Ok (length (objs h)), forked_heap L cm h) ∧
       h1 = set L "_ghost" (VObj (length (objs h))) (forked_heap L cm h) ∧
       objs h1 !! length (objs h)
       = Some (MkObj (Some L) {["_components" := VObj (S (length (objs h)))]}) ∧
       isForkOf (length (objs h)) L h1 = true) ∧
    (truthy (get h L "_ghost") = true → get h L "_ghost" = Some g ∧ h1 = h) ∧
    getGhost L h1 = (Ok (Some g), h1) ∧
    (∀ n : nat, Nat.iter n (λ st, getGhost L st.2) (Ok (Some g), h1) = (Ok (Some g), h1)) ∧
    (∃ F h2,
        fork L h1 = (Ok F, h2) ∧ getGhost F h2 = (Ok (Some g), h2) ∧
        get h2 L "_ghost" = Some g ∧ hasOwnProperty h2 F "_ghost" = false) ∧
    (∃ F ha g' hb,
        fork L h = (Ok F, ha) ∧
        getGhost L ha = (Ok (Some g'), hb) ∧
        (get hb L "_ghost" = Some g' ∧ truthy (Some g') = true) ∧
        getGhost F hb = (Ok (Some g'), hb)).
Proof.
  intros Hcm.
  assert (L < length (objs h)) as HL by (by eapply get_allocated).
  destruct (getGhost_spec h L cm Hcm) as (g & h1 & Hcall & Hghost & _).
  pose proof (getGhost_hit _ _ _ _ Hghost) as Hagain.
  pose proof Hghost as (Hcm1 & Hg1 & Ht1).
  exists g, h1. split; [done|]. split; [done|].
  split; [|split; [|split; [done|split; [|split]]]].
  - intros Hno.
    set (G := length (objs h)).
    set (h2 := set L "_ghost" (VObj G) (forked_heap L cm h)).
    assert (get h2 L "_ghost" = Some (VObj G)) as Hg2.
    { apply get_set_own. rewrite forked_heap_old by done. by apply lookup_lt_is_Some. }
    assert (getGhost L h = (Ok (Some (VObj G)), h2)) as Hcall2.
    { unfold getGhost. rewrite Hno. cbn [negb]. rewrite (fork_spec _ _ _ Hcm).
      fold G. fold h2. by rewrite Hg2. }
    rewrite Hcall2 in Hcall. injection Hcall as <- <-.
    assert (objs h2 !! G = Some (MkObj (Some L) {["_components" := VObj (S G)]})) as HG.
    { unfold h2. rewrite set_objs_other by (unfold G; lia). apply forked_heap_layer. }
    split; [done|]. split; [by apply fork_spec|]. split; [done|]. split; [exact HG|].
    unfold isForkOf. cbn [inPrototypeChain]. rewrite HG. cbn [proto].
    by rewrite Nat.eqb_refl.
  - intros Hyes. unfold getGhost in Hcall. rewrite Hyes in Hcall. cbn [negb] in Hcall.
    by injection Hcall as -> <-.
  - induction n as [|n IH]; [done|]. rewrite Nat.iter_succ, IH. exact Hagain.
  - eexists _, _. split; [by apply fork_spec|].
    split; [by apply fork_then_getGhost|]. split; [by apply forked_heap_get|].
    unfold hasOwnProperty. rewrite forked_heap_layer. cbn [own].
    apply bool_decide_eq_false_2. rewrite lookup_singleton_ne by done. by intros [? ?].
  - pose proof (forked_heap_get L cm h _ _ _ Hcm) as Hcm'.
    destruct (getGhost_spec _ L cm Hcm') as (g' & hb & Hcall' & Hghost' & Hkeep).
    exists (length (objs h)), (forked_heap L cm h), g', hb.
    split; [by apply fork_spec|]. split; [done|].
    split; [by destruct Hghost' as (_ & ? & ?)|].
    eapply direct_fork_ghost with (L := L) (cm := cm); [| | | |exact Hghost'].
    + apply Hkeep; [lia|]. apply forked_heap_layer.
    + done.
    + done.
    + done.
Qed.

(** ** Registration *)

Lemma get_objs_eq h h' l k : objs h = objs h' → get h l k = get h' l k.
Proof. unfold get. by intros ->. Qed.

Lemma get_own h l o k v :
  objs h !! l = Some o → own o !! k = Some v → get h l k = Some v.
Proof. intros Hl Hk. unfold get. cbn [get_from]. by rewrite Hl, Hk. Qed.

Lemma set_objs_same h l o k v :
  objs h !! l = Some o →
  objs (set l k v h) !! l = Some (MkObj (proto o) (<[k := v]> (own o))).
Proof.
  intros Hl. unfold set. rewrite Hl. cbn [objs].
  apply list_lookup_insert_eq. by eapply lookup_lt_Some.
Qed.

Lemma registerComponent_failure_keeps_heap this Component h e h' :
  registerComponent this Component h = (Throw e, h') → h' = h.
Proof.
  unfold registerComponent. intros H.
  repeat (match type of H with
          | context [match ?x with _ => _ end] => destruct x eqn:?
          end; try congruence).
Qed.

Section Registration.
Variable validateComponentName : string → bool → option nameKind.
Variable getComponentClassNameFromComponentInstanceName : string → string.

Abbreviation getComponent :=
  (getComponent validateComponentName getComponentClassNameFromComponentInstanceName).
Abbreviation className_of :=
  (className_of getComponentClassNameFromComponentInstanceName).

(** C8.  [registerComponent(Component)] throws for a component instance, for
    a class that already belongs to a registry, for a name that is already
    registered, and for a name that is already a property of the registry.
    When none of these holds it succeeds: the component's back-reference is
    this registry and the component is reachable under its name (in the
    component map, through the accessor installed on the registry, and with
    [getComponent]).  Every failure leaves the store, hence the component
    map, as it was. *)
Theorem registerComponent_spec (h : heap) (this c : loc) (o : comp) :
  comps h !! c = Some o →
  (ckind o = ComponentInstance →
     registerComponent this (AComponent c) h = (Throw ExpectedClassGotInstance, h)) ∧
  (ckind o = ComponentClass → is_Some (clayer o) →
     registerComponent this (AComponent c) h = (Throw AlreadyRegistered, h)) ∧
  (∀ cm, ckind o = ComponentClass → clayer o = None →
     get h this "_components" = Some (VObj cm) →
     (∀ v, get h cm (cname o) = Some v → v ≠ VUndef →
        registerComponent this (AComponent c) h = (Throw SameNameRegistered, h)) ∧
     (get h cm (cname o) = None → has_in h this (cname o) = true →
        registerComponent this (AComponent c) h = (Throw SameNameAsProperty, h)) ∧
     (get h cm (cname o) = None → has_in h this (cname o) = false →
      cm ≠ this → is_Some (objs h !! cm) →
        ∃ h',
          registerComponent this (AComponent c) h = (Ok tt, h') ∧
          comps h' !! c = Some (MkComp ComponentClass (cname o) (Some this) (corigin o)) ∧
          get h' cm (cname o) = Some (VComp c) ∧
          get h' this (cname o) = Some (VGetter (cname o)) ∧
          (cname o ≠ "" →
           validateComponentName (cname o) false = Some componentClassName →
           ∀ throwIfMissing,
             getComponent this (cname o) throwIfMissing false h'
             = (Ok (Some (ClassRef c)), h')))) ∧
  (∀ Component e h',
     registerComponent this Component h = (Throw e, h') → h' = h).
Proof.
  intros Hc. split; [|split; [|split]].
  - intros Hk. unfold registerComponent. by rewrite Hc, Hk.
  - intros Hk Hl. unfold registerComponent, Component_hasLayer.
    rewrite Hc, Hk. by rewrite bool_decide_eq_true_2.
  - intros cm Hk Hl Hcm.
    assert (Component_hasLayer c h = false) as HnoL.
    { unfold Component_hasLayer. rewrite Hc, Hl.
      apply bool_decide_eq_false_2. by intros [? ?]. }
    split; [|split].
    + intros v Hv Hne. unfold registerComponent.
      rewrite Hc, Hk, HnoL, Hcm, Hv. by destruct v.
    + intros Hv Hin. unfold registerComponent.
      by rewrite Hc, Hk, HnoL, Hcm, Hv, Hin.
    + intros Hv Hin Hne [ocm Hocm].
      unfold registerComponent. rewrite Hc, Hk, HnoL, Hcm, Hv, Hin.
      eexists. split; [done|].
      set (h1 := Component_setLayer c this h).
      assert (objs h1 = objs h) as Hobjs.
      { unfold h1, Component_setLayer. by rewrite Hc. }
      assert (cname o ≠ "_components") as Hname.
      { intros Heq. unfold has_in in Hin. rewrite Heq, Hcm in Hin.
        rewrite bool_decide_eq_true_2 in Hin; [done|eauto]. }
      assert (this < length (objs h)) as Hthis by (by eapply get_allocated).
      set (h2 := set cm (cname o) (VComp c) h1).
      assert (objs h2 !! cm
              = Some (MkObj (proto ocm) (<[cname o := VComp c]> (own ocm)))) as Hcm2.
      { apply set_objs_same. by rewrite Hobjs. }
      assert (get (set this (cname o) (VGetter (cname o)) h2) cm (cname o)
              = Some (VComp c)) as Hreach.
      { eapply get_own.
        - rewrite set_objs_other; [exact Hcm2|done].
        - cbn [own]. apply lookup_insert_eq. }
      assert (get (set this (cname o) (VGetter (cname o)) h2) this "_components"
              = Some (VObj cm)) as Hcm3.
      { apply get_set_ne; [done|]. apply get_set_ne; [done|].
        by rewrite (get_objs_eq h1 h). }
      split; [|split; [|split]].
      * rewrite set_comps. unfold h2. rewrite set_comps.
        unfold h1, Component_setLayer. rewrite Hc. cbn [comps].
        rewrite Hk. apply list_lookup_insert_eq. by eapply lookup_lt_Some.
      * exact Hreach.
      * apply get_set_own. unfold h2. 
        destruct (decide (this = cm)) as [->|Hne']; [done|].
        rewrite set_objs_other; [|done]. rewrite Hobjs.
        by apply lookup_lt_is_Some.
      * intros Hnonempty Hvalid throwIfMissing. unfold Layer.getComponent.
        destruct (String.eqb_spec (cname o) "") as [|_]; [done|].
        rewrite Hvalid, Hcm3, Hreach.
        unfold hasOwnProperty. rewrite set_objs_other; [|done]. rewrite Hcm2.
        cbn [own]. rewrite lookup_insert_eq.
        by rewrite bool_decide_eq_true_2.
  - intros Component e h'. apply registerComponent_failure_keeps_heap.
Qed.

(** ** Forking a registry *)

(** The first access to a component through a fresh fork. *)
Lemma getComponent_through_fork h L cmL name incl kind c o throwIfMissing :
  get h L "_components" = Some (VObj cmL) →
  name ≠ "" → validateComponentName name incl = Some kind →
  get h cmL (className_of name kind) = Some (VComp c) →
  comps h !! c = Some o →
  let F := length (objs h) in
  let c' := length (comps h) in
  ∃ h2,
    getComponent F name throwIfMissing incl (forked_heap L cmL h)
    = (Ok (Some (cref_of kind c')), h2) ∧
    comps h2 = comps h ++ [MkComp (ckind o) (cname o) (Some F) (Some c)] ∧
    objs h2 !! S F
    = Some (MkObj (Some cmL) {[className_of name kind := VComp c']}) ∧
    (∀ l, l ≠ S F → objs h2 !! l = objs (forked_heap L cmL h) !! l).
Proof.
  intros Hcm Hname Hvalid Hreg Hc F c'.
  assert (cmL < length (objs h)) as HcmL by (by eapply get_allocated).
  set (h1 := forked_heap L cmL h).
  assert (get h1 F "_components" = Some (VObj (S F))) as HcmF.
  { eapply get_own; [apply forked_heap_layer|]. cbn [own]. apply lookup_singleton_eq. }
  assert (get h1 (S F) (className_of name kind) = Some (VComp c)) as Hfound.
  { eapply get_delegates.
    - apply forked_heap_map.
    - done.
    - done.
    - unfold F. lia.
    - by apply forked_heap_get. }
  assert (hasOwnProperty h1 (S F) (className_of name kind) = false) as Hnotown.
  { unfold hasOwnProperty. unfold h1, F. rewrite forked_heap_map. cbn [own].
    apply bool_decide_eq_false_2. rewrite lookup_empty. by intros [? ?]. }
  unfold Layer.getComponent.
  destruct (String.eqb_spec name "") as [|_]; [done|].
  rewrite Hvalid.
  assert ((if match kind with
              | componentClassName => false
              | componentInstanceName => true
              end
           then getComponentClassNameFromComponentInstanceName name else name)
          = className_of name kind) as -> by (by destruct kind).
  fold h1. rewrite HcmF, Hfound, Hnotown.
  unfold Component_fork. replace (comps h1) with (comps h) by done. rewrite Hc.
  unfold Component_setLayer. cbn [comps objs].
  rewrite lookup_app_r; [|lia]. rewrite Nat.sub_diag. cbn [lookup list_lookup].
  cbn [ckind cname corigin].
  rewrite insert_app_r_alt; [|lia]. rewrite Nat.sub_diag. cbn [insert list_insert].
  eexists. split.
  { f_equal. by destruct kind. }
  split; [by rewrite set_comps|]. split.
  - erewrite set_objs_same; [|apply forked_heap_map]. cbn [proto own].
    by rewrite insert_empty.
  - intros l Hl. by rewrite set_objs_other.
Qed.

End Registration.

End LayerProofs.

(** * Properties of models *)

Module ModelProofs.
Import Model.

(** ** Ordered key/value lists *)

Section AssocFacts.
Context {A : Type}.
Implicit Types (l : list (string * A)) (k : string).

Lemma assoc_get_set_eq k a l : assoc_get k (assoc_set k a l) = Some a.
Proof.
  induction l as [|[k' a'] l IH]; cbn [assoc_set assoc_get].
  - by rewrite decide_True.
  - destruct (decide (k = k')) as [->|Hne]; cbn [assoc_get].
    + by rewrite decide_True.
    + by rewrite decide_False.
Qed.

Lemma assoc_get_set_ne k k' a l :
  k' ≠ k → assoc_get k' (assoc_set k a l) = assoc_get k' l.
Proof.
  intros Hne. induction l as [|[k0 a0] l IH]; cbn [assoc_set assoc_get].
  - by rewrite decide_False.
  - destruct (decide (k = k0)) as [->|Hne0]; cbn [assoc_get].
    + by rewrite !decide_False.
    + destruct (decide (k' = k0)); [done|apply IH].
Qed.

Lemma assoc_get_alter_eq (g : A → A) k l :
  assoc_get k (assoc_alter g k l) = g <$> assoc_get k l.
Proof.
  induction l as [|[k' a'] l IH]; cbn [assoc_alter assoc_get]; [done|].
  destruct (decide (k = k')) as [->|Hne]; cbn [assoc_get].
  - by rewrite decide_True.
  - by rewrite decide_False.
Qed.

Lemma assoc_get_alter_ne (g : A → A) k k' l :
  k' ≠ k → assoc_get k' (assoc_alter g k l) = assoc_get k' l.
Proof.
  intros Hne. induction l as [|[k0 a0] l IH]; cbn [assoc_alter assoc_get]; [done|].
  destruct (decide (k = k0)) as [->|Hne0]; cbn [assoc_get].
  - by rewrite !decide_False.
  - destruct (decide (k' = k0)); [done|apply IH].
Qed.

Lemma assoc_get_Some_elem k a l : assoc_get k l = Some a → k ∈ map fst l.
Proof.
  induction l as [|[k' a'] l IH]; cbn [assoc_get map fst]; [done|].
  destruct (decide (k = k')) as [->|Hne]; [set_solver|].
  intros H. apply IH in H. set_solver.
Qed.

Lemma assoc_get_None_elem k l : assoc_get k l = None → k ∉ map fst l.
Proof.
  induction l as [|[k' a'] l IH]; cbn [assoc_get map fst]; [set_solver|].
  destruct (decide (k = k')) as [->|Hne]; [done|].
  intros H. apply IH in H. set_solver.
Qed.

Lemma assoc_has_true k l : assoc_has k l = true ↔ is_Some (assoc_get k l).
Proof. unfold assoc_has. apply bool_decide_eq_true. Qed.

End AssocFacts.

Lemma elem_of_dedup x seen l : x ∈ dedup seen l ↔ x ∈ l ∧ x ∉ seen.
Proof.
  revert seen. induction l as [|y l IH]; intros seen; cbn [dedup]; [set_solver|].
  destruct (decide (y ∈ seen)).
  - rewrite IH. set_solver.
  - rewrite elem_of_cons, IH. 
    destruct (decide (x = y)) as [->|]; set_solver.
Qed.

Lemma NoDup_dedup seen l : NoDup (dedup seen l).
Proof.
  revert seen. induction l as [|y l IH]; intros seen; cbn [dedup]; [constructor|].
  destruct (decide (y ∈ seen)); [apply IH|].
  constructor; [|apply IH]. rewrite elem_of_dedup. set_solver.
Qed.

(** ** Reading properties *)

Lemma with_own_id this t : m_own this = Some t → with_own t this = this.
Proof. destruct this. cbn. by intros ->. Qed.

Lemma resolve_with_own_table this name :
  resolve (with_own (own_table this) this) name = resolve this name.
Proof.
  unfold resolve, chain, own_table. destruct this as [i [t|] inh n l pl]; by cbn.
Qed.

Lemma resolve_own this name p :
  assoc_get name (own_table this) = Some p → resolve this name = Some p.
Proof.
  unfold resolve, chain, own_table. destruct this as [i [t|] inh n l pl]; cbn; [|done].
  by intros ->.
Qed.

Lemma resolve_not_own this name :
  assoc_get name (own_table this) = None →
  resolve this name = lookup_chain name (m_inherited this).
Proof.
  unfold resolve, chain, own_table. destruct this as [i [t|] inh n l pl]; cbn; [|done].
  by intros ->.
Qed.

Lemma resolve_with_own t this name :
  resolve (with_own t this) name =
  match assoc_get name t with
  | Some p => Some p
  | None => lookup_chain name (m_inherited this)
  end.
Proof. done. Qed.

Lemma getProperty_run name t this :
  getProperty name t this =
  (match resolve this name with
   | None => if t then Throw PropertyNotFound else Ok None
   | Some p =>
       Ok (Some (if assoc_has name (own_table this) then p else Property_fork p this))
   end,
   materialize name this).
Proof.
  unfold getProperty, materialize, bind, __getProperties, gets.
  destruct this as [i [tb|] inh n l pl]; cbn [m_own].
  - fold (resolve (MkModel i (Some tb) inh n l pl) name).
    destruct (resolve _ name) as [p|] eqn:Hr.
    + unfold own_table. cbn [m_own].
      change (default [] (Some tb)) with tb.
      by destruct (assoc_has name tb).
    + by destruct t.
  - unfold resolve. cbn.
    destruct (lookup_chain name inh) as [p|]; [done | by destruct t].
Qed.

Lemma same_frame_refl this : same_frame this this.
Proof. by repeat split. Qed.

Lemma same_frame_trans a b c : same_frame a b → same_frame b c → same_frame a c.
Proof. unfold same_frame. intros (?&?&?&?&?) (?&?&?&?&?). repeat split; congruence. Qed.

Lemma same_frame_with_own t this : same_frame this (with_own t this).
Proof. by repeat split. Qed.

Lemma materialize_frame name this : same_frame this (materialize name this).
Proof.
  unfold materialize. destruct (resolve this name); [|apply same_frame_with_own].
  destruct (assoc_has _ _); apply same_frame_with_own.
Qed.

Lemma materialize_own_Some name this : is_Some (m_own (materialize name this)).
Proof.
  unfold materialize. destruct (resolve this name); [|by eexists].
  destruct (assoc_has _ _); by eexists.
Qed.

(** Reading a property never changes what any name resolves to, up to the
    entity the property is bound to. *)
Lemma descOf_materialize name this name' :
  descOf (materialize name this) name' = descOf this name'.
Proof.
  unfold descOf, materialize.
  destruct (resolve this name) as [p|] eqn:Hr;
    [|by rewrite resolve_with_own_table].
  destruct (assoc_has name (own_table this)) eqn:Hown;
    [by rewrite resolve_with_own_table|].
  rewrite resolve_with_own.
  assert (assoc_get name (own_table this) = None) as Hnone.
  { destruct (assoc_get name (own_table this)) eqn:E; [|done].
    unfold assoc_has in Hown. rewrite E in Hown.
    by rewrite bool_decide_eq_true_2 in Hown. }
  destruct (decide (name' = name)) as [->|Hne].
  - rewrite assoc_get_set_eq, Hr. done.
  - rewrite assoc_get_set_ne; [|done].
    rewrite <- (resolve_with_own_table this name'), resolve_with_own. done.
Qed.

(** After [$getProperty(name)] the property is an own entry. *)
Lemma materialize_owns name this p :
  resolve this name = Some p →
  ∃ p', assoc_get name (own_table (materialize name this)) = Some p' ∧
        p_desc p' = p_desc p ∧
        p' = (if assoc_has name (own_table this) then p else Property_fork p this).
Proof.
  intros Hr. unfold materialize. rewrite Hr.
  destruct (assoc_has name (own_table this)) eqn:Hown.
  - exists p. split; [|done].
    apply assoc_has_true in Hown as [q Hq].
    rewrite (resolve_own _ _ _ Hq) in Hr. injection Hr as ->.
    done.
  - exists (Property_fork p this). split; [|done].
    change (own_table (with_own ?t this)) with t.
    apply assoc_get_set_eq.
Qed.

(** Writing a field object *)

Lemma mutateField_frame name g this : same_frame this (mutateField name g this).2.
Proof. by repeat split. Qed.

Lemma own_table_mutate name g this :
  own_table (mutateField name g this).2 = assoc_alter (onField g) name (own_table this).
Proof. unfold own_table, mutateField, modify. cbn. by destruct (m_own this). Qed.

Lemma resolve_via_own_table this name :
  resolve this name =
  match assoc_get name (own_table this) with
  | Some p => Some p
  | None => lookup_chain name (m_inherited this)
  end.
Proof.
  destruct (assoc_get name (own_table this)) eqn:E.
  - by apply resolve_own.
  - by apply resolve_not_own.
Qed.

Lemma descOf_mutate_ne name g this name' :
  name' ≠ name → descOf (mutateField name g this).2 name' = descOf this name'.
Proof.
  intros Hne. unfold descOf. rewrite !resolve_via_own_table, own_table_mutate.
  by rewrite assoc_get_alter_ne.
Qed.

Lemma descOf_mutate_eq name g this p f :
  assoc_get name (own_table this) = Some p → p_desc p = DField f →
  descOf (mutateField name g this).2 name = Some (DField (g f)).
Proof.
  intros Hp Hd. unfold descOf. rewrite resolve_via_own_table, own_table_mutate.
  rewrite assoc_get_alter_eq, Hp. cbn. unfold onField. by rewrite Hd.
Qed.

Lemma mutateField_ext name g g' this p f :
  assoc_get name (own_table this) = Some p → p_desc p = DField f → g f = g' f →
  mutateField name g this = mutateField name g' this.
Proof.
  intros Hp Hd Hg. unfold mutateField, modify. f_equal. f_equal.
  unfold own_table in Hp. destruct (m_own this) as [t|]; [|done]. cbn in *. f_equal.
  induction t as [|[k a] t IH]; [done|]. cbn [assoc_alter assoc_get] in *.
  destruct (decide (name = k)) as [->|Hne].
  - injection Hp as ->. unfold onField. by rewrite Hd, Hg.
  - f_equal. by apply IH.
Qed.

(** The names a loop visits are the names that resolve. *)
Lemma elem_of_chain_keys name (ts : list Table) :
  name ∈ concat (map (map fst) ts) ↔ is_Some (lookup_chain name ts).
Proof.
  induction ts as [|t ts IH]; cbn [map concat lookup_chain].
  - split; [set_solver | by intros [? ?]].
  - rewrite elem_of_app, IH. destruct (assoc_get name t) as [p|] eqn:E.
    + split; [eauto|]. intros _. left. by eapply assoc_get_Some_elem.
    + apply assoc_get_None_elem in E. split; [|eauto]. by intros [?|?].
Qed.

(** Ordering the keys of an object neither adds nor drops a key. *)
Lemma elem_of_insertKey x key sorted : x ∈ insertKey key sorted ↔ x = key ∨ x ∈ sorted.
Proof.
  induction sorted as [|key' sorted IH]; cbn [insertKey]; [set_solver|].
  destruct (_ <=? _)%N; [set_solver|]. rewrite !elem_of_cons, IH. tauto.
Qed.

Lemma elem_of_sortKeys x keys : x ∈ sortKeys keys ↔ x ∈ keys.
Proof.
  unfold sortKeys. induction keys as [|key keys IH]; cbn [foldr]; [done|].
  rewrite elem_of_insertKey, IH. set_solver.
Qed.

Lemma elem_of_ownKeys x keys : x ∈ ownKeys keys ↔ x ∈ keys.
Proof.
  unfold ownKeys. rewrite elem_of_app, elem_of_sortKeys, !list_elem_of_In, !List.filter_In.
  destruct (isArrayIndex x); cbn [negb]; intuition congruence.
Qed.

Lemma elem_of_chain_ownKeys name (ts : list Table) :
  name ∈ concat (map (λ t, ownKeys (map fst t)) ts) ↔ name ∈ concat (map (map fst) ts).
Proof.
  induction ts as [|t ts IH]; cbn [map concat]; [done|].
  by rewrite !elem_of_app, elem_of_ownKeys, IH.
Qed.

Lemma elem_of_getPropertyNames this name :
  name ∈ getPropertyNames this ↔ is_Some (resolve this name).
Proof.
  unfold getPropertyNames. rewrite elem_of_dedup, elem_of_chain_ownKeys, elem_of_chain_keys.
  unfold resolve. set_solver.
Qed.

Lemma NoDup_getPropertyNames this : NoDup (getPropertyNames this).
Proof. apply NoDup_dedup. Qed.

(** ** Loops over the fields *)

Lemma forProperties_cons {S : Type} n ns filt (b : string → Property → S → M S) acc s :
  forProperties (n :: ns) filt b acc s =
  match resolve s n with
  | Some p =>
      let p' := if assoc_has n (own_table s) then p else Property_fork p s in
      if filt p' then
        match b n p' acc (materialize n s) with
        | (Ok acc', s') => forProperties ns filt b acc' s'
        | (Throw e, s') => (Throw e, s')
        end
      else forProperties ns filt b acc (materialize n s)
  | None => (Throw PropertyNotFound, materialize n s)
  end.
Proof.
  cbn [forProperties]. unfold bind at 1. rewrite getProperty_run.
  destruct (resolve s n); [|done]. cbv zeta.
  by destruct (filt _).
Qed.

Lemma fieldsFilter_desc filter (p : Property) :
  fieldsFilter filter p
  = match p_desc p with DField f => passes filter f | DMethod => false end.
Proof. done. Qed.

Section Loop.
Context {S : Type}.
Variable filter : option (Field → bool).
Variable body : string → Field → S → M S.
Variable fu : string → Field → Field.
Variable au : string → Field → S → result S.

(** The body, run when the field is the own entry under [name], returns
    [au name f acc] and leaves [fu name f] in that entry. *)
Hypothesis Hbody : ∀ name f acc s p,
  assoc_get name (own_table s) = Some p → p_desc p = DField f →
  passes filter f = true →
  (body name f acc s).1 = au name f acc ∧
  (∀ acc', au name f acc = Ok acc' → (body name f acc s).2 = setFieldData name (fu name f) s).

Lemma loopAcc_ext d d' names (acc : S) :
  (∀ n, n ∈ names → d n = d' n) →
  loopAcc filter au d names acc = loopAcc filter au d' names acc.
Proof.
  revert acc. induction names as [|n ns IH]; intros acc Hd; [done|].
  cbn [loopAcc]. rewrite <- (Hd n) by set_solver.
  destruct (d n) as [[f|]|]; try (apply IH; set_solver).
  destruct (passes filter f); [|apply IH; set_solver].
  destruct (au n f acc); [|done]. apply IH. set_solver.
Qed.

Lemma is_Some_resolve_desc this n : is_Some (resolve this n) ↔ is_Some (descOf this n).
Proof. unfold descOf. by rewrite fmap_is_Some. Qed.

Lemma forProperties_loop names s acc :
  NoDup names → (∀ n, n ∈ names → is_Some (resolve s n)) →
  let r :=
    forProperties names (fieldsFilter filter)
      (λ name p acc,
         match p_desc p with
         | DField f => body name f acc
         | DMethod => ret acc
         end) acc s in
  r.1 = loopAcc filter au (descOf s) names acc ∧
  (∀ acc', r.1 = Ok acc' →
     same_frame s r.2 ∧
     ∀ n, descOf r.2 n
          = if decide (n ∈ names) then updDesc filter fu n (descOf s n) else descOf s n).
Proof.
  revert s acc. induction names as [|n ns IH]; intros s acc Hnd Hres.
  { cbn. split; [done|]. intros _ _. split; [apply same_frame_refl|].
    intros n. by rewrite decide_False by set_solver. }
  apply NoDup_cons in Hnd as [Hn Hnd].
  destruct (Hres n ltac:(set_solver)) as [p Hp].
  cbv zeta. rewrite forProperties_cons, Hp. cbv zeta.
  destruct (materialize_owns _ _ _ Hp) as (p' & Hown & Hdesc & Hp').
  rewrite <- Hp'. clear Hp'.
  set (s1 := materialize n s) in *.
  assert (∀ m, descOf s1 m = descOf s m) as Hs1 by (intros m; apply descOf_materialize).
  assert (descOf s n = Some (p_desc p')) as Hdn.
  { unfold descOf. by rewrite Hp, Hdesc. }
  assert (∀ m, m ∈ ns → is_Some (resolve s1 m)) as Hres1.
  { intros m Hm. rewrite is_Some_resolve_desc, Hs1, <- is_Some_resolve_desc.
    apply Hres. set_solver. }
  set (wb := λ (name : string) (p : Property) (acc : S),
               match p_desc p with
               | DField f => body name f acc
               | DMethod => ret acc
               end) in *.
  (* the cases where the loop goes on with [s1] *)
  assert (updDesc filter fu n (descOf s n) = descOf s n →
          (forProperties ns (fieldsFilter filter) wb acc s1).1
          = loopAcc filter au (descOf s) ns acc ∧
          (∀ acc', (forProperties ns (fieldsFilter filter) wb acc s1).1 = Ok acc' →
             same_frame s (forProperties ns (fieldsFilter filter) wb acc s1).2 ∧
             ∀ m, descOf (forProperties ns (fieldsFilter filter) wb acc s1).2 m
                  = if decide (m ∈ n :: ns)
                    then updDesc filter fu m (descOf s m) else descOf s m)) as Hskip.
  { intros Hupd. destruct (IH s1 acc Hnd Hres1) as [Hacc Hst].
    split.
    - rewrite Hacc. apply loopAcc_ext. intros m _. apply Hs1.
    - intros acc' Hok. destruct (Hst acc' Hok) as [Hfr Hd]. split.
      + eapply same_frame_trans; [apply materialize_frame|exact Hfr].
      + intros m. rewrite Hd, !Hs1.
        destruct (decide (m = n)) as [->|Hne].
        * rewrite decide_False by done. rewrite decide_True by set_solver. by rewrite Hupd.
        * destruct (decide (m ∈ ns)).
          -- by rewrite decide_True by set_solver.
          -- by rewrite decide_False by set_solver. }
  cbn [loopAcc]. rewrite Hdn, fieldsFilter_desc.
  destruct (p_desc p') as [f|] eqn:Hf.
  2:{ apply Hskip. by rewrite Hdn. }
  destruct (passes filter f) eqn:Hpass.
  2:{ apply Hskip. rewrite Hdn. cbn. by rewrite Hpass. }
  destruct (Hbody n f acc s1 p' Hown Hf Hpass) as [Hb1 Hb2].
  destruct (body n f acc s1) as [[acc1|e] s2] eqn:Hb; cbn in Hb1.
  2:{ rewrite <- Hb1. cbn. split; [done|]. intros acc'. discriminate. }
  rewrite <- Hb1. cbv beta iota. specialize (Hb2 acc1 (eq_sym Hb1)). cbn [snd] in Hb2. subst s2.
  set (s2 := setFieldData n (fu n f) s1).
  assert (descOf s2 n = Some (DField (fu n f))) as Hs2n.
  { unfold s2, setFieldData. by erewrite descOf_mutate_eq. }
  assert (∀ m, m ≠ n → descOf s2 m = descOf s m) as Hs2.
  { intros m Hne. unfold s2, setFieldData. by rewrite descOf_mutate_ne, Hs1. }
  assert (∀ m, m ∈ ns → is_Some (resolve s2 m)) as Hres2.
  { intros m Hm. rewrite is_Some_resolve_desc, Hs2 by set_solver.
    rewrite <- is_Some_resolve_desc. apply Hres. set_solver. }
  destruct (IH s2 acc1 Hnd Hres2) as [Hacc Hst]. split.
  - rewrite Hacc. apply loopAcc_ext. intros m Hm. apply Hs2. set_solver.
  - intros acc' Hok. destruct (Hst acc' Hok) as [Hfr Hd]. split.
    + eapply same_frame_trans; [apply materialize_frame|].
      eapply same_frame_trans; [|exact Hfr]. apply mutateField_frame.
    + intros m. rewrite Hd.
      destruct (decide (m = n)) as [->|Hne].
      * rewrite decide_False by done. rewrite decide_True by set_solver.
        rewrite Hs2n, Hdn. cbn. by rewrite Hpass.
      * rewrite Hs2 by done. destruct (decide (m ∈ ns)).
        -- by rewrite decide_True by set_solver.
        -- by rewrite decide_False by set_solver.
Qed.

Lemma forFields_spec this acc :
  let r := forFields filter body acc this in
  r.1 = loopAcc filter au (descOf this) (getPropertyNames this) acc ∧
  (∀ acc', r.1 = Ok acc' →
     same_frame this r.2 ∧
     ∀ n, descOf r.2 n = updDesc filter fu n (descOf this n)).
Proof.
  unfold forFields, bind, gets.
  destruct (forProperties_loop (getPropertyNames this) this acc
              (NoDup_getPropertyNames this)) as [Hacc Hst].
  { intros n. by rewrite elem_of_getPropertyNames. }
  split; [exact Hacc|].
  intros acc' Hok. destruct (Hst acc' Hok) as [Hfr Hd]. split; [done|].
  intros n. rewrite Hd. destruct (decide (n ∈ getPropertyNames this)) as [|Hn]; [done|].
  rewrite elem_of_getPropertyNames, is_Some_resolve_desc in Hn.
  destruct (descOf this n); [|done]. exfalso. eauto.
Qed.

End Loop.

Lemma loopAcc_inv {S : Type} (P : S → Prop) filter au d names (acc : S) :
  (∀ n f a, n ∈ names → d n = Some (DField f) → passes filter f = true → P a →
     ∃ a', au n f a = Ok a' ∧ P a') →
  P acc →
  ∃ acc', loopAcc filter au d names acc = Ok acc' ∧ P acc'.
Proof.
  revert acc. induction names as [|n ns IH]; intros acc Hstep HP; [by exists acc|].
  cbn [loopAcc].
  assert (∀ a, P a → ∃ acc', loopAcc filter au d ns a = Ok acc' ∧ P acc') as Hrest.
  { intros a Ha. apply IH; [|done]. intros m f a' Hm. apply Hstep. set_solver. }
  destruct (d n) as [[f|]|] eqn:Hd; try (by apply Hrest).
  destruct (passes filter f) eqn:Hpass; [|by apply Hrest].
  destruct (Hstep n f acc ltac:(set_solver) Hd Hpass HP) as (a' & -> & Ha').
  by apply Hrest.
Qed.

(** Storing in a field what it already holds changes nothing. *)
Lemma setFieldData_id name f this p :
  assoc_get name (own_table this) = Some p → p_desc p = DField f →
  setFieldData name f this = this.
Proof.
  intros Hp Hd. unfold setFieldData, mutateField, modify. cbn [snd].
  destruct this as [i [t|] inh n l pl]; [|done]. cbn in *. do 2 f_equal.
  induction t as [|[k a] t IH]; [done|]. cbn [assoc_alter assoc_get] in *.
  destruct (decide (name = k)) as [->|Hne].
  - injection Hp as ->. unfold onField. rewrite Hd. by destruct p; cbn in *; subst.
  - f_equal. by apply IH.
Qed.

Lemma setFieldData_mutate name g this p f :
  assoc_get name (own_table this) = Some p → p_desc p = DField f →
  (mutateField name g this).2 = setFieldData name (g f) this.
Proof.
  intros Hp Hd. unfold setFieldData.
  by rewrite (mutateField_ext name g (λ _, g f) this p f).
Qed.

Lemma isField_fork p this : isField (Property_fork p this) = isField p.
Proof. done. Qed.

Lemma getField_run name t this :
  getField name t this =
  (match resolve this name with
   | None => if t then Throw FieldNotFound else Ok None
   | Some p =>
       if isField p
       then Ok (Some (if assoc_has name (own_table this) then p else Property_fork p this))
       else Throw NotAField
   end,
   materialize name this).
Proof.
  unfold getField, bind. rewrite getProperty_run.
  destruct (resolve this name) as [p|]; [|by destruct t].
  destruct (assoc_has name (own_table this)); cbn [negb];
    rewrite ?isField_fork; by destruct (isField p).
Qed.

Lemma hasField_run name this :
  hasField name this =
  (match resolve this name with
   | None => Ok false
   | Some p => if isField p then Ok true else Throw NotAField
   end,
   materialize name this).
Proof.
  unfold hasField, bind. rewrite getField_run.
  destruct (resolve this name) as [p|]; [|done].
  by destruct (isField p).
Qed.

Lemma materialize_keeps_own name this n p :
  assoc_get n (own_table this) = Some p →
  assoc_get n (own_table (materialize name this)) = Some p.
Proof.
  intros Hn. unfold materialize. destruct (resolve this name) as [q|]; [|done].
  destruct (assoc_has name (own_table this)) eqn:Hown; [done|].
  change (own_table (with_own ?t this)) with t.
  rewrite assoc_get_set_ne; [done|]. intros ->.
  unfold assoc_has in Hown. rewrite Hn in Hown.
  by rewrite bool_decide_eq_true_2 in Hown.
Qed.

(** ** Construction *)

(** C5.  Constructing a new, non-hydrating instance makes every declared
    field active: a field whose name is an own key of the input object holds
    the value created from the input, every other field holds its computed
    default; nothing else about the instance changes.  With
    [isDeserializing] the constructor fills no field: the instance is left
    exactly as it was. *)
Theorem constructor_fills_every_field createdValue (object : list (string * val))
    (this : Model) :
  (∃ this',
     constructor createdValue object false this = (Ok tt, this') ∧
     same_frame this this' ∧
     ∀ name f, descOf this name = Some (DField f) →
       ∃ f', descOf this' name = Some (DField f') ∧
             f_active f' = true ∧
             f' = match assoc_get name object with
                  | Some value => Field_createValue createdValue value f
                  | None => Field_setValue (f_default f) f
                  end) ∧
  constructor createdValue object true this = (Ok tt, this).
Proof.
  split; [|done].
  set (fu := λ (name : string) (f : Field),
               match assoc_get name object with
               | Some value => Field_createValue createdValue value f
               | None => Field_setValue (f_default f) f
               end).
  unfold constructor.
  edestruct (forFields_spec (S := unit) None
               (λ name field _,
                  match assoc_get name object with
                  | Some value => mutateField name (Field_createValue createdValue value)
                  | None => mutateField name (Field_setValue (f_default field))
                  end)
               fu (λ _ _ _, Ok tt)) as [Hacc Hst].
  { intros name f acc s p Hp Hd _. split.
    - by destruct (assoc_get name object).
    - intros _ _. unfold fu.
      destruct (assoc_get name object);
        by erewrite setFieldData_mutate. }
  destruct (loopAcc_inv (λ _, True) None (λ _ _ (_ : unit), Ok tt) (descOf this)
              (getPropertyNames this) tt) as ([] & Hloop & _); [by eauto|done|].
  rewrite Hloop in Hacc.
  destruct (forFields _ _ _ this) as [r this'] eqn:Hrun. cbn [fst snd] in *.
  subst r. exists this'. split; [done|].
  destruct (Hst tt eq_refl) as [Hfr Hd]. split; [done|].
  intros name f Hf. eexists. rewrite Hd, Hf. cbn.
  split; [done|]. split; [|done].
  unfold fu. by destruct (assoc_get name object).
Qed.

(** ** Assignment *)

Lemma assignEntries_cons store name value rest s :
  assignEntries store ((name, value) :: rest) s =
  match resolve s name with
  | None => assignEntries store rest (materialize name s)
  | Some p =>
      if isField p then
        assignEntries store rest
          (mutateField name (store value) (materialize name (materialize name s))).2
      else (Throw NotAField, materialize name s)
  end.
Proof.
  unfold assignEntries at 1. cbn [foldr]. fold (assignEntries store rest).
  unfold bind at 1. rewrite hasField_run.
  destruct (resolve s name) as [p|] eqn:Hr; [|done].
  destruct (isField p) eqn:Hfield; [|done].
  unfold bind. rewrite getField_run.
  destruct (materialize_owns _ _ _ Hr) as (p' & Hown & Hdesc & _).
  rewrite (resolve_own _ _ _ Hown).
  assert (isField p' = true) as -> by (unfold isField in *; by rewrite Hdesc).
  done.
Qed.

(** The only error an assignment loop can raise is the one of [$getField]. *)
Lemma assignEntries_errors store entries s e :
  (assignEntries store entries s).1 = Throw e → e = NotAField.
Proof.
  revert s. induction entries as [|[name value] rest IH]; intros s; [done|].
  rewrite assignEntries_cons.
  destruct (resolve s name) as [p|]; [|apply IH].
  destruct (isField p); [apply IH|]. cbn. congruence.
Qed.

Lemma assignEntries_spec store entries s :
  NoDup (map fst entries) →
  (∀ k, k ∈ map fst entries → descOf s k ≠ Some DMethod) →
  ∃ s',
    assignEntries store entries s = (Ok tt, s') ∧ same_frame s s' ∧
    ∀ name, descOf s' name = assignedDesc store entries name (descOf s name).
Proof.
  revert s. induction entries as [|[name value] rest IH]; intros s Hnd Hm.
  { exists s. split; [done|]. split; [apply same_frame_refl|].
    intros name. unfold assignedDesc. by destruct (descOf s name) as [[|]|]. }
  cbn [map fst] in Hnd, Hm. apply NoDup_cons in Hnd as [Hname Hnd].
  rewrite assignEntries_cons.
  destruct (resolve s name) as [p|] eqn:Hr.
  - assert (descOf s name = Some (p_desc p)) as Hdn by (unfold descOf; by rewrite Hr).
    destruct (p_desc p) as [f|] eqn:Hp.
    2:{ exfalso. apply (Hm name); [set_solver|done]. }
    assert (isField p = true) as -> by (unfold isField; by rewrite Hp).
    set (s1 := materialize name s).
    set (s2 := materialize name s1).
    assert (∀ m, descOf s2 m = descOf s m) as Hs2.
    { intros m. unfold s2, s1. by rewrite !descOf_materialize. }
    destruct (materialize_owns name s p Hr) as (p1 & Hown1 & Hdesc1 & _).
    pose proof (materialize_keeps_own name s1 name p1 Hown1) as Hown2. fold s2 in Hown2.
    set (s3 := (mutateField name (store value) s2).2).
    assert (descOf s3 name = Some (DField (store value f))) as Hs3n.
    { unfold s3. eapply descOf_mutate_eq; [exact Hown2|]. by rewrite Hdesc1. }
    assert (∀ m, m ≠ name → descOf s3 m = descOf s m) as Hs3.
    { intros m Hne. unfold s3. by rewrite descOf_mutate_ne, Hs2. }
    destruct (IH s3 Hnd) as (s' & Hrun & Hfr & Hd).
    { intros k Hk. rewrite Hs3; [apply Hm; set_solver|]. intros ->. done. }
    exists s'. split; [done|]. split.
    + eapply same_frame_trans; [apply materialize_frame|].
      eapply same_frame_trans; [apply materialize_frame|].
      eapply same_frame_trans; [apply mutateField_frame|]. exact Hfr.
    + intros m. rewrite Hd. unfold assignedDesc. cbn [assoc_get].
      destruct (decide (m = name)) as [->|Hne].
      * rewrite Hs3n, Hdn.
        assert (assoc_get name rest = None) as ->; [|done].
        destruct (assoc_get name rest) eqn:E; [|done].
        apply assoc_get_Some_elem in E. done.
      * by rewrite Hs3.
  - assert (descOf s name = None) as Hdn by (unfold descOf; by rewrite Hr).
    destruct (IH (materialize name s) Hnd) as (s' & Hrun & Hfr & Hd).
    { intros k Hk. rewrite descOf_materialize. apply Hm. set_solver. }
    exists s'. split; [done|]. split.
    + eapply same_frame_trans; [apply materialize_frame|exact Hfr].
    + intros m. rewrite Hd, descOf_materialize. unfold assignedDesc. cbn [assoc_get].
      destruct (decide (m = name)) as [->|Hne]; [by rewrite Hdn|done].
Qed.

(** Collecting the active fields of another model always succeeds. *)
Lemma activeFieldsOf_ok other this :
  ∃ fs, activeFieldsOf other this = (Ok fs, this).
Proof.
  unfold activeFieldsOf, onOther.
  edestruct (forFields_spec (S := list (string * val)) (activeFilter None)
               (λ name field acc, ret (acc ++ [(name, f_value field)]))
               (λ _ f, f) (λ name f acc, Ok (acc ++ [(name, f_value f)])))
    as [Hacc _].
  { intros name f acc s p Hp Hd _. split; [done|].
    intros _ _. cbn. symmetry. by eapply setFieldData_id. }
  rewrite Hacc.
  destruct (loopAcc_inv (λ _, True) (activeFilter None)
              (λ name f (acc : list (string * val)), Ok (acc ++ [(name, f_value f)]))
              (descOf other) (getPropertyNames other) []) as (fs & -> & _);
    [by eauto|done|].
  by exists fs.
Qed.

(** C9.  [$assign] throws its type-mismatch error exactly for inputs that
    are not undefined, not a model and not of typeof 'object'.
    [$assign(undefined)] returns without error and leaves the model as it
    was; [$assign(null)] takes the object branch and fails there with the
    runtime's own TypeError, not with the type-mismatch error. *)
Theorem assign_type_mismatch_exactly createdValue (object : val) (this : Model) :
  ((assign createdValue object this).1 = Throw TypeMismatch ↔
     object ≠ VUndefined ∧ isModel object = false ∧ typeof object ≠ "object") ∧
  assign createdValue VUndefined this = (Ok tt, this) ∧
  assign createdValue VNull this = (Throw NativeTypeError, this).
Proof.
  split; [|done].
  destruct object as [| |b|n|str| |entries|m].
  1-6: cbn; try (split; [by intros ?|by intros (?&?&?)]);
       try (split; [done|by intros _]).
  - (* a plain object *)
    split; [|by intros (?&?&?)].
    change (assign createdValue (VObject entries))
      with (assignEntries (Field_createValue createdValue) entries).
    intros H. apply assignEntries_errors in H. done.
  - (* a model *)
    split; [|by intros (?&?&?)].
    change (assign createdValue (VModel m))
      with (do otherFields <- activeFieldsOf m;
            assignEntries Field_setValue otherFields).
    unfold bind. destruct (activeFieldsOf_ok m this) as [fs ->].
    intros H. apply assignEntries_errors in H. done.
Qed.



(** ** Field declaration *)

(** C7.  On a model where [name] is already declared as a field,
    [$setField] with a [type] option that differs from the field's type
    throws the type-redeclaration error.  The failed call leaves the
    field's descriptor, and every other descriptor, as it was: no own entry
    is changed and the inherited property objects are untouched. *)
Theorem setField_type_redeclaration Field_new getOptions
    (name : string) (options : list (string * val)) (this : Model) (f : Field) (type : val) :
  descOf this name = Some (DField f) →
  assoc_get "type" options = Some type →
  type ≠ VUndefined → type ≠ VString (f_type f) →
  ∃ this',
    setField Field_new getOptions name options this = (Throw TypeRedeclaration, this') ∧
    descOf this' name = Some (DField f) ∧
    (∀ n, descOf this' n = descOf this n) ∧
    same_frame this this' ∧
    (∀ n p, assoc_get n (own_table this) = Some p →
            assoc_get n (own_table this') = Some p).
Proof.
  intros Hd Ht Hu Hne.
  unfold descOf in Hd. destruct (resolve this name) as [p|] eqn:Hr; [|done].
  cbn in Hd. injection Hd as Hp.
  exists (materialize name (materialize name this)).
  destruct (materialize_owns name this p Hr) as (p1 & Hown1 & Hdesc1 & _).
  assert (isField p1 = true) as Hf1. { unfold isField. by rewrite Hdesc1, Hp. }
  split; [|split; [|split; [|split]]].
  - unfold setField, hasProperty, bind. rewrite getProperty_run, Hr.
    cbn [bool_decide]. rewrite bool_decide_eq_true_2 by eauto.
    unfold ret at 1. cbv beta iota.
    rewrite getField_run, (resolve_own _ _ _ Hown1), Hf1.
    rewrite (proj2 (assoc_has_true _ _)) by eauto.
    cbn [fmap option_fmap option_map]. rewrite Hdesc1, Hp, Ht.
    change (default VUndefined (Some type)) with type.
    assert (is_undefined type = false) as -> by (by destruct type).
    assert (val_is type (f_type f) = false) as ->.
    { destruct type; try done. cbn. apply bool_decide_eq_false_2. congruence. }
    done.
  - rewrite !descOf_materialize. unfold descOf. by rewrite Hr, <- Hp.
  - intros n. by rewrite !descOf_materialize.
  - eapply same_frame_trans; apply materialize_frame.
  - intros n q Hq. by do 2 apply materialize_keeps_own.
Qed.

(** ** Copy-on-write property access *)

(** [$getProperty] on an entity that does not own the property makes a fork
    bound to the entity, stores it in the entity's own [__properties], and
    leaves the inherited [__properties] objects as they were. *)
Lemma getProperty_copy_on_write name t (this : Model) (p : Property) :
  assoc_get name (own_table this) = None →
  lookup_chain name (m_inherited this) = Some p →
  ∃ this',
    getProperty name t this = (Ok (Some (Property_fork p this)), this') ∧
    p_parent (Property_fork p this) = m_id this ∧
    p_desc (Property_fork p this) = p_desc p ∧
    m_own this' = Some (assoc_set name (Property_fork p this) (own_table this)) ∧
    assoc_get name (own_table this') = Some (Property_fork p this) ∧
    m_inherited this' = m_inherited this ∧
    lookup_chain name (m_inherited this') = Some p.
Proof.
  intros Hown Hinh.
  assert (resolve this name = Some p) as Hr by (by rewrite resolve_not_own).
  assert (assoc_has name (own_table this) = false) as Hhas.
  { unfold assoc_has. rewrite Hown. apply bool_decide_eq_false_2. by intros [? ?]. }
  eexists. rewrite getProperty_run, Hr, Hhas. split; [done|].
  unfold materialize. rewrite Hr, Hhas.
  repeat split; try done.
  change (own_table (with_own ?t this)) with t. apply assoc_get_set_eq.
Qed.

(** ** Field masks *)

(** A loop invariant that may mention the names already visited. *)
Lemma loopAcc_prefix {S : Type} (P : list string → S → Prop) filter au d names (acc : S) :
  NoDup names →
  (∀ pre n a, n ∉ pre → n ∈ names → P pre a →
     match d n with
     | Some (DField f) =>
         if passes filter f then ∃ a', au n f a = Ok a' ∧ P (pre ++ [n]) a'
         else P (pre ++ [n]) a
     | _ => P (pre ++ [n]) a
     end) →
  P [] acc →
  ∃ acc', loopAcc filter au d names acc = Ok acc' ∧ P names acc'.
Proof.
  intros Hnd Hstep.
  assert (∀ rest pre a, NoDup (pre ++ rest) → (∀ n, n ∈ rest → n ∈ names) → P pre a →
            ∃ acc', loopAcc filter au d rest a = Ok acc' ∧ P (pre ++ rest) acc') as Hgen.
  { induction rest as [|n ns IH]; intros pre a Hnd' Hsub HP.
    - exists a. by rewrite app_nil_r.
    - assert (n ∉ pre) as Hn.
      { apply NoDup_app in Hnd' as (_ & Hdis & _). intros Hin.
        apply (Hdis n Hin). set_solver. }
      assert (NoDup ((pre ++ [n]) ++ ns)) as Hnd'' by (by rewrite <- (assoc_L (++))).
      assert (∀ m, m ∈ ns → m ∈ names) as Hsub' by (intros m Hm; apply Hsub; set_solver).
      pose proof (Hstep pre n a Hn ltac:(apply Hsub; set_solver) HP) as Hs.
      cbn [loopAcc]. replace (pre ++ n :: ns) with ((pre ++ [n]) ++ ns)
        by (by rewrite <- (assoc_L (++))).
      destruct (d n) as [[f|]|]; try (by apply IH).
      destruct (passes filter f); [|by apply IH].
      destruct Hs as (a' & -> & Ha'). by apply IH. }
  intros HP. by apply (Hgen names [] acc).
Qed.

Lemma updDesc_id filter n d : updDesc filter (λ _ f, f) n d = d.
Proof. destruct d as [[f|]|]; cbn; [|done..]. by destruct (passes filter f). Qed.

Section Masks.
Variable schema : gmap string Model.
Variable filter : option (Field → bool).
Variable includeReferencedEntities : bool.

Lemma maskStep_run recur root name f acc s :
  maskStep schema recur root name f acc s
  = (maskStepResult schema recur root name f acc, s).
Proof.
  unfold maskStep, maskStepResult, selected. destruct acc as [norm stack]. cbn [fst snd].
  destruct (bool_decide (f_scalarType f ∈ stack)); [done|].
  assert (∀ fm : fmask,
            (do '(nested, _typeStack) <-
               Field__createFieldMask schema recur f fm ({[f_scalarType f]} ∪ stack);
             ret (assoc_set name nested norm, _typeStack ∖ {[f_scalarType f]})) s
            = (match nestedMask schema recur f fm ({[f_scalarType f]} ∪ stack) with
               | Ok (nested, st) => Ok (assoc_set name nested norm, st ∖ {[f_scalarType f]})
               | Throw e => Throw e
               end, s)) as Hn.
  { intros fm. unfold bind, Field__createFieldMask, nestedMask, onOther.
    destruct (schema !! f_scalarType f) as [proto|]; [|done].
    unfold bind. destruct (recur fm _ proto) as [[[nested st]|e] proto']; done. }
  destruct root as [b|entries].
  - destruct b; [apply Hn|done].
  - destruct (object_get name entries) as [[[|]|es]|]; cbn [mask_truthy default]; try done;
      apply Hn.
Qed.

(** The nested mask of a field whose type is not being expanded: the
    recursion, if any, runs with the type added and hands the set back. *)
Lemma nestedMask_ok fuel recur f fm stack :
  (∀ proto root' stack',
     size (dom schema ∖ stack') < fuel →
     ∃ m, (recur root' stack' proto).1 = Ok (m, stack')) →
  f_scalarType f ∉ stack →
  size (dom schema ∖ stack) ≤ fuel →
  ∃ nested,
    nestedMask schema recur f fm ({[f_scalarType f]} ∪ stack)
    = Ok (nested, {[f_scalarType f]} ∪ stack).
Proof.
  intros Hrec Hnot Hsize. unfold nestedMask.
  destruct (schema !! f_scalarType f) as [proto|] eqn:Hs; [|by eexists].
  destruct (Hrec proto fm ({[f_scalarType f]} ∪ stack)) as [m ->]; [|by eexists].
  eapply Nat.lt_le_trans; [|exact Hsize].
  apply subset_size. apply strict_spec_alt. split; [set_solver|].
  assert (f_scalarType f ∈ dom schema) by (apply elem_of_dom; eauto).
  intros Heq. assert (f_scalarType f ∈ dom schema ∖ stack) as Hin by set_solver.
  rewrite <- Heq in Hin. set_solver.
Qed.

Lemma createMask_spec fuel :
  ∀ (this : Model) root stack,
    size (dom schema ∖ stack) < fuel →
    ∃ m this',
      __createFieldMask schema fuel filter includeReferencedEntities root stack this
      = (Ok (m, stack), this') ∧
      same_frame this this' ∧
      (∀ n, descOf this' n = descOf this n) ∧
      ∀ name,
        maskEntrySpec schema
          (__createFieldMask schema (pred fuel) filter includeReferencedEntities)
          filter root stack name (descOf this name) (assoc_get name m).
Proof.
  induction fuel as [|fuel IH]; intros this root stack Hsize; [lia|].
  cbn [__createFieldMask pred].
  set (recur := __createFieldMask schema fuel filter includeReferencedEntities).
  assert (∀ proto root' stack',
            size (dom schema ∖ stack') < fuel →
            ∃ m, (recur root' stack' proto).1 = Ok (m, stack')) as Hrec.
  { intros proto root' stack' Hs.
    destruct (IH proto root' stack' Hs) as (m & proto' & Hrun & _).
    exists m. unfold recur. by rewrite Hrun. }
  edestruct (forFields_spec filter (maskStep schema recur root) (λ _ f, f)
               (maskStepResult schema recur root) ) as [Hacc Hst].
  { intros name f acc s p Hp Hd _. rewrite maskStep_run. split; [done|].
    intros _ _. cbn [snd]. symmetry. by eapply setFieldData_id. }
  destruct (loopAcc_prefix
              (λ pre (a : list (string * fmask) * gset string),
                 a.2 = stack ∧
                 (∀ name, name ∈ pre →
                    maskEntrySpec schema recur filter root stack name
                      (descOf this name) (assoc_get name a.1)) ∧
                 (∀ name, name ∉ pre → assoc_get name a.1 = None))
              filter (maskStepResult schema recur root) (descOf this)
              (getPropertyNames this) ([], stack) (NoDup_getPropertyNames this))
    as ([m st] & Hloop & Hst' & Hin & Hout).
  { intros pre n [m st] Hn _ (Hst' & Hin & Hout). cbn [fst snd] in *. subst st.
    assert (∀ a' : list (string * fmask) * gset string,
              a'.2 = stack →
              maskEntrySpec schema recur filter root stack n (descOf this n)
                (assoc_get n a'.1) →
              (∀ name, name ≠ n → assoc_get name a'.1 = assoc_get name m) →
              a'.2 = stack ∧
              (∀ name, name ∈ pre ++ [n] →
                 maskEntrySpec schema recur filter root stack name
                   (descOf this name) (assoc_get name a'.1)) ∧
              (∀ name, name ∉ pre ++ [n] → assoc_get name a'.1 = None)) as Hadd.
    { intros a' Hs Hentry Hother. split; [done|]. split.
      - intros name Hname. destruct (decide (name = n)) as [->|Hne]; [done|].
        rewrite Hother by done. apply Hin. set_solver.
      - intros name Hname. rewrite Hother by set_solver. apply Hout. set_solver. }
    pose proof (Hout n Hn) as Hnone.
    destruct (descOf this n) as [[f|]|] eqn:Hd.
    2,3: by apply (Hadd (m, stack)).
    destruct (passes filter f) eqn:Hpass.
    2:{ apply (Hadd (m, stack)); [done| |done]. cbn. by rewrite Hpass. }
    unfold maskStepResult. cbn [fst snd].
    destruct (bool_decide (f_scalarType f ∈ stack)) eqn:Hin_stack.
    { exists (m, stack). split; [done|]. apply Hadd; [done| |done].
      cbn. by rewrite Hpass, Hin_stack. }
    apply bool_decide_eq_false in Hin_stack as Hnot.
    destruct (mask_truthy (selected root n)) eqn:Hsel.
    2:{ exists (m, stack). split; [done|]. apply Hadd; [done| |done].
        cbn. by rewrite Hpass, Hin_stack, Hsel. }
    destruct (nestedMask_ok fuel recur f (default (FBool false) (selected root n)) stack
                Hrec Hnot ltac:(lia)) as [nested Hnested].
    rewrite Hnested. eexists. split; [done|]. apply Hadd; cbn [fst snd].
    - apply set_eq. intros x. set_solver.
    - cbn. rewrite Hpass, Hin_stack, Hsel. cbn. exists nested.
      split; [apply assoc_get_set_eq|done].
    - intros name Hne. by apply assoc_get_set_ne. }
  { cbn. split; [done|]. split; [set_solver|done]. }
  cbn [fst snd] in *. subst st.
  rewrite Hloop in Hacc.
  destruct (forFields filter _ _ this) as [r this'] eqn:Hrun. cbn [fst snd] in *.
  subst r. destruct (Hst _ eq_refl) as [Hfr Hd].
  exists m, this'. split; [done|]. split; [done|]. split.
  - intros n. by rewrite Hd, updDesc_id.
  - intros name. destruct (decide (name ∈ getPropertyNames this)) as [Hn|Hn].
    + by apply Hin.
    + rewrite (Hout name Hn).
      rewrite elem_of_getPropertyNames, is_Some_resolve_desc in Hn.
      destruct (descOf this name); [|done]. exfalso. eauto.
Qed.

Lemma createFieldMask_ok (fields : option fmask) (this : Model) :
  ∃ mask this',
    createFieldMask schema fields filter includeReferencedEntities this
    = (Ok mask, this') ∧
    __createFieldMask schema (S (size schema)) filter includeReferencedEntities
      (default (FBool true) fields) ∅ this
    = (Ok (mask, ∅), this') ∧
    same_frame this this' ∧
    ∀ n, descOf this' n = descOf this n.
Proof.
  destruct (createMask_spec (S (size schema)) this (default (FBool true) fields) ∅)
    as (m & this' & Hrun & Hfr & Hd & _).
  { rewrite difference_empty_L, size_dom. lia. }
  exists m, this'. split; [|done].
  unfold createFieldMask, bind. by rewrite Hrun.
Qed.

(** C2.  [$createFieldMask] returns for every model and every registry of
    model types, self-referential or not: the nesting bound of the embedding
    is never hit.  The set of types being expanded starts empty in each call.
    At every level of the construction, whatever the set [stack] holds on
    entry, the call hands the set back as it received it (each type is
    removed after its field's expansion); a field whose scalar type is in
    [stack] is left out of the mask; and a selected field whose type is not
    in [stack] gets the nested mask computed with its type added. *)
Theorem createFieldMask_terminates (fields : option fmask) (this : Model) :
  (∃ mask this',
     createFieldMask schema fields filter includeReferencedEntities this
     = (Ok mask, this') ∧
     __createFieldMask schema (S (size schema)) filter includeReferencedEntities
       (default (FBool true) fields) ∅ this
     = (Ok (mask, ∅), this') ∧
     ∀ n, descOf this' n = descOf this n) ∧
  (∀ fuel root stack,
     size (dom schema ∖ stack) ≤ fuel →
     ∃ m this',
       __createFieldMask schema (S fuel) filter includeReferencedEntities root stack this
       = (Ok (m, stack), this') ∧
       (∀ name f,
          descOf this name = Some (DField f) → f_scalarType f ∈ stack →
          assoc_get name m = None) ∧
       (∀ name,
          maskEntrySpec schema
            (__createFieldMask schema fuel filter includeReferencedEntities)
            filter root stack name (descOf this name) (assoc_get name m))).
Proof.
  split.
  - destruct (createFieldMask_ok fields this) as (m & this' & Hrun & Hrun' & _ & Hd).
    by exists m, this'.
  - intros fuel root stack Hsize.
    destruct (createMask_spec (S fuel) this root stack ltac:(lia))
      as (m & this' & Hrun & _ & _ & Hentry).
    exists m, this'. split; [done|]. split; [|exact Hentry].
    intros name f Hd Hin. specialize (Hentry name). rewrite Hd in Hentry.
    cbn in Hentry. rewrite (bool_decide_eq_true_2 _ Hin) in Hentry.
    by rewrite andb_false_r in Hentry.
Qed.

End Masks.

(** ** Serialization *)

(** A loop that, at each field, stores an entry under the field's name or
    leaves the accumulator alone: what the accumulator holds in the end. *)
Lemma loopAcc_keyed {S A : Type} (v : S → list (string * A)) filter au
    (entry : string → Field → option A) d names (acc0 : S) :
  NoDup names → v acc0 = [] →
  (∀ n f a, ∃ a', au n f a = Ok a' ∧
      v a' = match entry n f with Some x => assoc_set n x (v a) | None => v a end) →
  ∃ acc',
    loopAcc filter au d names acc0 = Ok acc' ∧
    ∀ name,
      assoc_get name (v acc')
      = if decide (name ∈ names) then
          match d name with
          | Some (DField f) => if passes filter f then entry name f else None
          | _ => None
          end
        else None.
Proof.
  intros Hnd Hv0 Hau.
  set (want := λ name, match d name with
                       | Some (DField f) => if passes filter f then entry name f else None
                       | _ => None
                       end).
  destruct (loopAcc_prefix
              (λ pre a, ∀ name,
                 assoc_get name (v a) = if decide (name ∈ pre) then want name else None)
              filter au d names acc0 Hnd) as (acc' & Hloop & HP).
  - intros pre n a Hn _ HP.
    assert (∀ a', (∀ name, name ≠ n → assoc_get name (v a') = assoc_get name (v a)) →
                  assoc_get n (v a') = want n →
                  ∀ name, assoc_get name (v a')
                          = if decide (name ∈ pre ++ [n]) then want name else None) as Hadd.
    { intros a' Hother Hn' name. destruct (decide (name = n)) as [->|Hne].
      - by rewrite decide_True by set_solver.
      - rewrite Hother, HP by done. destruct (decide (name ∈ pre)).
        + by rewrite decide_True by set_solver.
        + by rewrite decide_False by set_solver. }
    pose proof (HP n) as Hnone. rewrite decide_False in Hnone by done.
    unfold want in Hadd.
    destruct (d n) as [[f|]|] eqn:Hd; try (by apply Hadd).
    destruct (passes filter f) eqn:Hpass; [|by apply Hadd].
    destruct (Hau n f a) as (a' & Ha' & Hva'). exists a'. split; [done|].
    apply Hadd.
    + intros name Hne. rewrite Hva'. destruct (entry n f); [|done].
      by apply assoc_get_set_ne.
    + rewrite Hva'. destruct (entry n f); [apply assoc_get_set_eq|done].
  - intros name. by rewrite Hv0.
  - by exists acc'.
Qed.

Lemma spread_is_Some {A : Type} (a b : list (string * A)) name :
  is_Some (assoc_get name (spread a b))
  ↔ is_Some (assoc_get name a) ∨ is_Some (assoc_get name b).
Proof.
  unfold spread. revert a. induction b as [|[k x] b IH]; intros a; cbn [foldl assoc_get].
  - split; [eauto|]. intros [?|[? ?]]; done.
  - rewrite IH. cbn [fst snd]. destruct (decide (name = k)) as [->|Hne].
    + rewrite assoc_get_set_eq. split; eauto.
    + by rewrite assoc_get_set_ne.
Qed.

Lemma materialize_own_id name (s : Model) p :
  assoc_get name (own_table s) = Some p → materialize name s = s.
Proof.
  intros Hp. unfold materialize. rewrite (resolve_own _ _ _ Hp).
  rewrite (proj2 (assoc_has_true _ _)) by eauto.
  apply with_own_id. unfold own_table in *.
  by destruct (m_own s).
Qed.

Lemma targetIsLower_spec target (this : Model) :
  targetIsLower target this = true ↔
  ∃ t, target = Some t ∧ m_layerId this ≠ Some t ∧ m_parentLayerId this ≠ Some t.
Proof.
  unfold targetIsLower. destruct target as [t|].
  - rewrite negb_true_iff, orb_false_iff, !bool_decide_eq_false. split.
    + intros [H1 H2]. exists t. repeat split; congruence.
    + intros (t' & [= <-] & H1 & H2). split; congruence.
  - split; [done|]. by intros (t & ? & _).
Qed.

Section Serialization.
Variable serializeValue : Field → option string → fmask → val.
Variable super_serialize : Model → list (string * val).
Variable schema : gmap string Model.

Lemma passes_active f : passes (activeFilter None) f = f_active f.
Proof. cbn. by destruct (f_active f). Qed.

Lemma serializeFields_spec target root (this : Model) :
  ∃ serializedFields this',
    serializeFields serializeValue target root this = (Ok serializedFields, this') ∧
    same_frame this this' ∧
    (∀ n, descOf this' n = descOf this n) ∧
    ∀ name,
      assoc_get name serializedFields
      = match descOf this name with
        | Some (DField f) =>
            if f_active f then serializedEntry serializeValue target root name f else None
        | _ => None
        end.
Proof.
  unfold serializeFields.
  edestruct (forFields_spec (S := list (string * val)) (activeFilter None)
               (λ name field serializedFields,
                  let fieldMask := FieldMask_get root name in
                  if negb (mask_truthy (Some fieldMask)) then ret serializedFields
                  else
                    let value := serializeValue field target fieldMask in
                    if negb (is_undefined value)
                    then ret (assoc_set name value serializedFields)
                    else ret serializedFields)
               (λ _ f, f)
               (λ n f acc, Ok (match serializedEntry serializeValue target root n f with
                               | Some x => assoc_set n x acc
                               | None => acc
                               end))) as [Hacc Hst].
  { intros name f acc s p Hp Hd _. unfold serializedEntry. cbv zeta.
    assert (setFieldData name f s = s) as -> by (by eapply setFieldData_id).
    destruct (negb (mask_truthy _)); [done|].
    by destruct (negb (is_undefined _)). }
  destruct (loopAcc_keyed (A := val) id (activeFilter None)
              (λ n f acc, Ok (match serializedEntry serializeValue target root n f with
                              | Some x => assoc_set n x acc
                              | None => acc
                              end))
              (serializedEntry serializeValue target root)
              (descOf this) (getPropertyNames this) []
              (NoDup_getPropertyNames this) eq_refl) as (out & Hloop & Hout).
  { intros n f a. by eexists. }
  rewrite Hloop in Hacc.
  destruct (forFields _ _ _ this) as [r this'] eqn:Hrun. cbn [fst snd] in *. subst r.
  destruct (Hst _ eq_refl) as [Hfr Hd].
  exists out, this'. split; [done|]. split; [done|]. split.
  - intros n. by rewrite Hd, updDesc_id.
  - intros name. specialize (Hout name). unfold id in Hout. rewrite Hout.
    destruct (decide (name ∈ getPropertyNames this)) as [Hn|Hn].
    + destruct (descOf this name) as [[f|]|]; [|done..]. by rewrite passes_active.
    + rewrite elem_of_getPropertyNames, is_Some_resolve_desc in Hn.
      destruct (descOf this name); [|done]. exfalso. eauto.
Qed.


End Serialization.

(** ** Deserialization *)

Section Deserialization.
Variable deserializeValue : Field → val → option string → fmask → Field * option FieldMask.
Variable super_deserialize : list (string * val) → Model → Model.
Variable schema : gmap string Model.

Lemma getField_own name (s : Model) p f :
  assoc_get name (own_table s) = Some p → p_desc p = DField f →
  getField name true s = (Ok (Some p), s).
Proof.
  intros Hp Hd. rewrite getField_run, (resolve_own _ _ _ Hp).
  rewrite (materialize_own_id _ _ _ Hp).
  rewrite (proj2 (assoc_has_true _ _)) by eauto.
  unfold isField. by rewrite Hd.
Qed.

(** C3.  [$deserialize(object, {source, fields})], after the base merge,
    computes the root mask and visits every declared field.  For a field the
    mask selects: if [object] carries its key, the raw value is deserialized
    into the field and what that deserialization reports missing is recorded
    under the field's name; otherwise, if the instance is new, the field is
    set to its computed default and nothing is recorded; otherwise the field
    is left alone and its nested mask is recorded as missing.  A field the
    mask does not select is left alone and nothing is recorded for it. *)
Theorem deserialize_fills_or_reports (object : list (string * val))
    (source : option string) (fields : option fmask) (this : Model) :
  let merged := super_deserialize object this in
  ∃ root this1 missingFields this',
    createFieldMask schema fields None false merged = (Ok root, this1) ∧
    deserialize deserializeValue super_deserialize schema object source fields this
    = (Ok missingFields, this') ∧
    ∀ name f,
      descOf merged name = Some (DField f) →
      let fieldMask := FieldMask_get root name in
      let recorded := assoc_get name (default [] missingFields) in
      if mask_truthy (Some fieldMask) then
        match assoc_get name object with
        | Some value =>
            descOf this' name
            = Some (DField (deserializeValue f value source fieldMask).1) ∧
            recorded = FObj <$> (deserializeValue f value source fieldMask).2
        | None =>
            if m_isNew merged then
              descOf this' name = Some (DField (Field_setValue (f_default f) f)) ∧
              recorded = None
            else
              descOf this' name = Some (DField f) ∧ recorded = Some fieldMask
        end
      else descOf this' name = Some (DField f) ∧ recorded = None.
Proof.
  intros merged.
  destruct (createFieldMask_ok schema None false fields merged)
    as (root & this1 & Hroot & _ & Hfr1 & Hd1).
  assert (m_isNew this1 = m_isNew merged) as HisNew
    by (by destruct Hfr1 as (_ & _ & ? & _)).
  set (isNew := m_isNew merged) in *.
  set (fu := deserializedField deserializeValue object source root isNew).
  set (entry := missingEntry deserializeValue object source root isNew).
  set (au := λ n f (acc : option FieldMask),
               Ok (match entry n f with
                   | Some x => recordMissing n x acc
                   | None => acc
                   end) : result (option FieldMask)).
  edestruct (forFields_spec (S := option FieldMask) None
     (λ name (_ : Field) rootMissingFields,
       let fieldMask := FieldMask_get root name in
       if negb (mask_truthy (Some fieldMask)) then ret rootMissingFields
       else
         match assoc_get name object with
         | Some value =>
             do field <- getField name true;
             match p_desc <$> field with
             | Some (DField f) =>
                 let '(f', missingFields) := deserializeValue f value source fieldMask in
                 run mutateField name (λ _, f');
                 match missingFields with
                 | Some missingFields =>
                     ret (recordMissing name (FObj missingFields) rootMissingFields)
                 | None => ret rootMissingFields
                 end
             | _ => throw NotAField
             end
         | None =>
             if isNew then
               do field <- getField name true;
               match p_desc <$> field with
               | Some (DField f) =>
                   let defaultValue := f_default f in
                   run mutateField name (Field_setValue defaultValue);
                   ret rootMissingFields
               | _ => throw NotAField
               end
             else ret (recordMissing name fieldMask rootMissingFields)
         end) fu au) with (this := this1) (acc := @None FieldMask) as [Hacc Hst].
  { intros name f acc s p Hp Hd _.
    unfold au, entry, fu, missingEntry, deserializedField. cbv zeta.
    destruct (negb (mask_truthy (Some (FieldMask_get root name)))).
    { rewrite (setFieldData_id _ _ _ _ Hp Hd). done. }
    destruct (assoc_get name object) as [value|].
    - unfold bind. rewrite (getField_own _ _ _ _ Hp Hd). cbn [fmap option_fmap option_map].
      rewrite Hd.
      destruct (deserializeValue f value source (FieldMask_get root name)) as [f' [mf|]];
        done.
    - destruct isNew.
      + unfold bind. rewrite (getField_own _ _ _ _ Hp Hd). cbn [fmap option_fmap option_map].
        rewrite Hd. cbv zeta. split; [done|]. intros _ _. cbn [snd].
        by rewrite <- (setFieldData_mutate name (Field_setValue (f_default f)) s p f Hp Hd).
      + rewrite (setFieldData_id _ _ _ _ Hp Hd). done. }
  destruct (loopAcc_keyed (S := option FieldMask) (A := fmask) (default []) None au entry
              (descOf this1) (getPropertyNames this1) (@None FieldMask)
              (NoDup_getPropertyNames this1) eq_refl) as (missing & Hloop & Hmissing).
  { intros n f a. eexists. split; [done|]. by destruct (entry n f). }
  rewrite Hloop in Hacc.
  destruct (forFields None _ None this1) as [r this'] eqn:Hrun. cbn [fst snd] in *.
  subst r. destruct (Hst _ eq_refl) as [_ Hd].
  exists root, this1, missing, this'. split; [done|]. split.
  { unfold deserialize, bind, modify, gets. cbv beta iota. fold merged.
    rewrite Hroot. cbv beta iota. rewrite HisNew. exact Hrun. }
  intros name f Hf. cbv zeta.
  assert (descOf this1 name = Some (DField f)) as Hf1 by (by rewrite Hd1).
  assert (name ∈ getPropertyNames this1) as Hin.
  { rewrite elem_of_getPropertyNames, is_Some_resolve_desc, Hf1. eauto. }
  rewrite Hd, (Hmissing name), decide_True, Hf1 by done. cbn [updDesc passes].
  unfold fu, entry, deserializedField, missingEntry. cbv zeta.
  destruct (mask_truthy (Some (FieldMask_get root name))); cbn [negb]; [|done].
  destruct (assoc_get name object); [done|]. by destruct isNew.
Qed.

End Deserialization.

End ModelProofs.

(** * Forking *)

Section Forking.
Variable validateComponentName : string → bool → option Layer.nameKind.
Variable getComponentClassNameFromComponentInstanceName : string → string.

Abbreviation getComponent :=
  (Layer.getComponent validateComponentName
     getComponentClassNameFromComponentInstanceName).
Abbreviation className_of :=
  (Layer.className_of getComponentClassNameFromComponentInstanceName).

(** C4.  Forking never mutates the origin.  For a layer [L] with component
    map [cmL], [L.fork()] returns a new layer [F] and changes no existing
    object and no component; [F]'s component map is a new object that
    delegates to [cmL] and has no own entries.  A following
    [F.getComponent(name)] for a component [c] registered in [L] forks [c],
    binds the fork to [F], and stores it in [F]'s own map only: every object
    that existed before the fork, [L] and [cmL] among them, and every
    component that existed, [c] among them, is as it was.  Likewise
    [$getProperty] on an entity that does not itself own the property stores
    a fork bound to the entity in the entity's own [__properties] and leaves
    the inherited entries as they were. *)
Theorem fork_never_mutates_origin :
  (∀ (h : Layer.heap) (L cmL : nat),
     Layer.get h L "_components" = Some (Layer.VObj cmL) →
     let F := length (Layer.objs h) in
     ∃ h1,
       Layer.fork L h = (Ok F, h1) ∧
       (∀ l, l < length (Layer.objs h) → Layer.objs h1 !! l = Layer.objs h !! l) ∧
       Layer.comps h1 = Layer.comps h ∧
       Layer.get h1 F "_components" = Some (Layer.VObj (S F)) ∧
       Layer.objs h1 !! S F = Some (Layer.MkObj (Some cmL) ∅) ∧
       ∀ name incl kind c o throwIfMissing,
         name ≠ "" → validateComponentName name incl = Some kind →
         Layer.get h cmL (className_of name kind) = Some (Layer.VComp c) →
         Layer.comps h !! c = Some o →
         let c' := length (Layer.comps h) in
         ∃ h2,
           getComponent F name throwIfMissing incl h1
           = (Ok (Some (Layer.cref_of kind c')), h2) ∧
           Layer.comps h2 !! c'
           = Some (Layer.MkComp (Layer.ckind o) (Layer.cname o) (Some F) (Some c)) ∧
           Layer.objs h2 !! S F
           = Some (Layer.MkObj (Some cmL) {[className_of name kind := Layer.VComp c']}) ∧
           (∀ l, l < length (Layer.objs h) → Layer.objs h2 !! l = Layer.objs h !! l) ∧
           (∀ c0, c0 < length (Layer.comps h) → Layer.comps h2 !! c0 = Layer.comps h !! c0) ∧
           Layer.get h2 cmL (className_of name kind) = Some (Layer.VComp c) ∧
           Layer.comps h2 !! c = Some o) ∧
  (∀ (name : string) (throwIfNotFound : bool) (this : Model.Model) (p : Model.Property),
     Model.assoc_get name (Model.own_table this) = None →
     Model.lookup_chain name (Model.m_inherited this) = Some p →
     ∃ this',
       Model.getProperty name throwIfNotFound this
       = (Ok (Some (Model.Property_fork p this)), this') ∧
       Model.p_parent (Model.Property_fork p this) = Model.m_id this ∧
       Model.p_desc (Model.Property_fork p this) = Model.p_desc p ∧
       Model.assoc_get name (Model.own_table this') = Some (Model.Property_fork p this) ∧
       Model.m_inherited this' = Model.m_inherited this ∧
       Model.lookup_chain name (Model.m_inherited this') = Some p).
Proof.
  split.
  - intros h L cmL Hcm F.
    exists (Layer.forked_heap L cmL h).
    split; [by apply LayerProofs.fork_spec|].
    split; [intros l Hl; by apply LayerProofs.forked_heap_old|].
    split; [done|]. split.
    { eapply LayerProofs.get_own; [apply LayerProofs.forked_heap_layer|].
      apply lookup_singleton_eq. }
    split; [apply LayerProofs.forked_heap_map|].
    intros name incl kind c o throwIfMissing Hname Hvalid Hreg Hc c'.
    destruct (LayerProofs.getComponent_through_fork validateComponentName
                getComponentClassNameFromComponentInstanceName
                h L cmL name incl kind c o throwIfMissing Hcm Hname Hvalid Hreg Hc)
      as (h2 & Hrun & Hcomps & HmapF & Hother).
    assert (∀ l, l < length (Layer.objs h) → Layer.objs h2 !! l = Layer.objs h !! l)
      as Hold.
    { intros l Hl. rewrite Hother by (unfold F; lia).
      by apply LayerProofs.forked_heap_old. }
    assert (c < length (Layer.comps h)) as Hclt by (by eapply lookup_lt_Some).
    exists h2. split; [exact Hrun|]. split.
    { rewrite Hcomps. rewrite lookup_app_r by (unfold c'; lia).
      unfold c'. by rewrite Nat.sub_diag. }
    split; [exact HmapF|]. split; [exact Hold|]. split.
    { intros c0 Hc0. rewrite Hcomps. by rewrite lookup_app_l. }
    split.
    { unfold Layer.get in *. eapply LayerProofs.get_from_agree; [|exact Hreg].
      intros l ob Hl. rewrite Hold; [done|]. by eapply lookup_lt_Some. }
    rewrite Hcomps. by rewrite lookup_app_l.
  - intros name t this p Hown Hinh.
    destruct (ModelProofs.getProperty_copy_on_write name t this p Hown Hinh)
      as (this' & H1 & H2 & H3 & _ & H4 & H5 & H6).
    exists this'. by repeat split.
Qed.

End Forking.

(** * Worked instances *)

(** C10 at the sample registry: the layer is object 0, its map object 1. *)
Lemma getGhost_cached_and_shared_witness :
  Layer.get Layer.sampleLayer 0 "_components" = Some (Layer.VObj 1) ∧
  ∃ g h1,
    Layer.getGhost 0 Layer.sampleLayer = (Ok (Some g), h1) ∧
    g = Layer.VObj 2 ∧
    Layer.get h1 0 "_ghost" = Some g ∧
    Layer.isForkOf 2 0 h1 = true ∧
    Layer.getGhost 0 h1 = (Ok (Some g), h1).
Proof.
  split; [reflexivity|].
  destruct (LayerProofs.getGhost_cached_and_shared Layer.sampleLayer 0 1 eq_refl)
    as (g & h1 & H1 & [H2 _] & H3 & _ & H4 & _).
  destruct (H3 eq_refl) as (Hg & _ & _ & _ & Hfork).
  exists g, h1. split; [exact H1|]. split; [exact Hg|]. split; [exact H2|].
  split; [exact Hfork|exact H4].
Defined.

(** C8 at the sample registry: [Actor] (component 1) is registered, after
    which it is reachable by name. *)
Lemma registerComponent_spec_witness :
  ∃ h',
    Layer.registerComponent 0 (Layer.AComponent 1) Layer.sampleLayer = (Ok tt, h') ∧
    Layer.getComponent Layer.sampleValidate Layer.sampleClassName 0 "Actor" true false h'
    = (Ok (Some (Layer.ClassRef 1)), h').
Proof.
  destruct (LayerProofs.registerComponent_spec Layer.sampleValidate Layer.sampleClassName
              Layer.sampleLayer 0 1 (Layer.MkComp Layer.ComponentClass "Actor" None None)
              eq_refl) as (_ & _ & H & _).
  destruct (H 1 eq_refl eq_refl eq_refl) as (_ & _ & Hok).
  destruct Hok as (h' & Hrun & _ & _ & _ & Hget).
  - reflexivity.
  - reflexivity.
  - discriminate.
  - eexists. reflexivity.
  - exists h'. split; [exact Hrun|]. apply Hget; [discriminate|reflexivity].
Defined.

(** C4 at the sample registry and at the sample instance. *)
Lemma fork_never_mutates_origin_witness :
  (∃ h1 h2,
     Layer.fork 0 Layer.sampleLayer = (Ok 2, h1) ∧
     Layer.objs h1 !! 3 = Some (Layer.MkObj (Some 1) ∅) ∧
     Layer.getComponent Layer.sampleValidate Layer.sampleClassName 2 "Movie" true false h1
     = (Ok (Some (Layer.ClassRef 3)), h2) ∧
     Layer.get h2 1 "Movie" = Some (Layer.VComp 0) ∧
     Layer.comps h2 !! 0 = Layer.comps Layer.sampleLayer !! 0) ∧
  (∃ this',
     Model.getProperty "title" true Model.movie
     = (Ok (Some (Model.MkProperty 2 (Model.DField Model.titleField))), this') ∧
     Model.m_inherited this' = Model.m_inherited Model.movie).
Proof.
  destruct (fork_never_mutates_origin Layer.sampleValidate Layer.sampleClassName)
    as [HL HM].
  split.
  - destruct (HL Layer.sampleLayer 0 1 eq_refl) as (h1 & Hfork & _ & _ & _ & Hmap & Hget).
    destruct (Hget "Movie" false Layer.componentClassName 0
                (Layer.MkComp Layer.ComponentClass "Movie" (Some 0) None) true)
      as (h2 & Hrun & _ & _ & _ & Hcomps & Hreg & _).
    + discriminate.
    + reflexivity.
    + reflexivity.
    + reflexivity.
    + exists h1, h2. split; [exact Hfork|]. split; [exact Hmap|].
      split; [exact Hrun|]. split; [exact Hreg|].
      apply Hcomps. vm_compute. lia.
  - destruct (HM "title" true Model.movie (Model.MkProperty 1 (Model.DField Model.titleField))
                eq_refl eq_refl) as (this' & Hrun & _ & _ & _ & Hinh & _).
    exists this'. split; [exact Hrun|exact Hinh].
Defined.

(** C5 at the sample instance: [new Movie({title: 'Inception'})]. *)
Lemma constructor_fills_every_field_witness :
  ∃ this' f',
    Model.constructor Model.rawValue [("title", Model.VString "Inception")] false Model.movie
    = (Ok tt, this') ∧
    Model.descOf this' "title" = Some (Model.DField f') ∧
    Model.f_active f' = true ∧
    Model.f_value f' = Model.VString "Inception".
Proof.
  destruct (ModelProofs.constructor_fills_every_field Model.rawValue
              [("title", Model.VString "Inception")] Model.movie)
    as [(this' & Hrun & _ & Hfields) _].
  destruct (Hfields "title" Model.titleField eq_refl) as (f' & Hd & Hactive & Hf').
  exists this', f'. split; [exact Hrun|]. split; [exact Hd|]. split; [exact Hactive|].
  rewrite Hf'. reflexivity.
Defined.

(** C9 at the number 42. *)
Lemma assign_type_mismatch_exactly_witness :
  (Model.assign Model.rawValue (Model.VNumber 42) Model.movie).1 = Throw TypeMismatch ∧
  Model.assign Model.rawValue Model.VUndefined Model.movie = (Ok tt, Model.movie).
Proof.
  destruct (ModelProofs.assign_type_mismatch_exactly Model.rawValue (Model.VNumber 42)
              Model.movie) as (Hiff & Hundef & _).
  split; [|exact Hundef].
  apply Hiff. split; [discriminate|]. split; [reflexivity|discriminate].
Defined.


(** C7 at the sample instance: redeclaring [title] as a number. *)
Lemma setField_type_redeclaration_witness :
  ∃ this',
    Model.setField Model.sampleFieldNew Model.sampleGetOptions "title"
      [("type", Model.VString "number")] Model.movie
    = (Throw TypeRedeclaration, this') ∧
    Model.descOf this' "title" = Some (Model.DField Model.titleField) ∧
    Model.m_inherited this' = Model.m_inherited Model.movie.
Proof.
  destruct (ModelProofs.setField_type_redeclaration Model.sampleFieldNew
              Model.sampleGetOptions "title" [("type", Model.VString "number")]
              Model.movie Model.titleField (Model.VString "number"))
    as (this' & Hrun & Hd & _ & Hframe & _).
  - reflexivity.
  - reflexivity.
  - discriminate.
  - discriminate.
  - exists this'. split; [exact Hrun|]. split; [exact Hd|].
    destruct Hframe as (_ & Hinh & _). exact Hinh.
Defined.

(** C2 at the self-referential [Person]: the call returns, and inside the
    expansion of [friend] (where [Person] is in the set) the field [friend]
    is left out. *)
Lemma createFieldMask_terminates_witness :
  (∃ mask this',
     Model.createFieldMask Model.sampleSchema None None false Model.Person_prototype
     = (Ok mask, this')) ∧
  (∃ m this',
     Model.__createFieldMask Model.sampleSchema 1 None false (Model.FBool true)
       {["Person"]} Model.Person_prototype
     = (Ok (m, {["Person"]}), this') ∧
     Model.assoc_get "friend" m = None).
Proof.
  destruct (ModelProofs.createFieldMask_terminates Model.sampleSchema None false None
              Model.Person_prototype) as [(mask & this' & Hrun & _) Hlevel].
  split; [by exists mask, this'|].
  destruct (Hlevel 0 (Model.FBool true) {["Person"]}) as (m & this1 & Hrun1 & Homit & _).
  - vm_compute. lia.
  - exists m, this1. split; [exact Hrun1|].
    apply (Homit "friend"
             (Model.MkField "Person" "Person" true Model.VUndefined false Model.VUndefined)).
    + reflexivity.
    + apply elem_of_singleton. reflexivity.
Defined.


(** C3 at a hydrated [Person] whose payload carries [name] but not
    [friend]. *)
Lemma deserialize_fills_or_reports_witness :
  ∃ root this1 missingFields this',
    Model.createFieldMask Model.sampleSchema None None false Model.Person_prototype
    = (Ok root, this1) ∧
    Model.deserialize Model.sampleDeserializeValue Model.sampleMerge Model.sampleSchema
      [("name", Model.VString "Bob")] None None Model.Person_prototype
    = (Ok missingFields, this') ∧
    (if Model.mask_truthy (Some (Model.FieldMask_get root "friend"))
     then Model.assoc_get "friend" (default [] missingFields)
          = Some (Model.FieldMask_get root "friend")
     else Model.assoc_get "friend" (default [] missingFields) = None).
Proof.
  destruct (ModelProofs.deserialize_fills_or_reports Model.sampleDeserializeValue
              Model.sampleMerge Model.sampleSchema [("name", Model.VString "Bob")]
              None None Model.Person_prototype)
    as (root & this1 & missing & this' & Hroot & Hrun & Hfields).
  exists root, this1, missing, this'. split; [exact Hroot|]. split; [exact Hrun|].
  pose proof (Hfields "friend"
                (Model.MkField "Person" "Person" true Model.VUndefined false Model.VUndefined)
                eq_refl) as H.
  cbv zeta in H.
  destruct (Model.mask_truthy (Some (Model.FieldMask_get root "friend"))).
  - exact (proj2 H).
  - exact (proj2 H).
Defined.

(** * Further properties of the registry *)

Module LayerMore.
Import Layer LayerProofs.

(** ** Lookups on stores built by allocation *)

Lemma get_from_app_wf h os' (n : nat) l k :
  heap_wf h → l < length (objs h) →
  get_from n (objs h ++ os') l k = get_from n (objs h) l k.
Proof.
  intros Hwf. revert l. induction n as [|n IH]; intros l Hl; cbn [get_from]; [done|].
  rewrite lookup_app_l by done.
  destruct (objs h !! l) as [o|] eqn:E; [|done].
  destruct (own o !! k); [done|].
  destruct (proto o) as [p|] eqn:Ep; [|done].
  apply IH. pose proof (Hwf l o p E Ep). lia.
Qed.

Lemma get_from_insert_above h (n : nat) l l' o' k :
  heap_wf h → l < l' →
  get_from n (<[l' := o']> (objs h)) l k = get_from n (objs h) l k.
Proof.
  intros Hwf. revert l. induction n as [|n IH]; intros l Hl; cbn [get_from]; [done|].
  rewrite list_lookup_insert_ne by lia.
  destruct (objs h !! l) as [o|] eqn:E; [|done].
  destruct (own o !! k); [done|].
  destruct (proto o) as [p|] eqn:Ep; [|done].
  apply IH. pose proof (Hwf l o p E Ep). lia.
Qed.

Lemma get_set_above h l l' k k' v :
  heap_wf h → l < l' → get (set l' k' v h) l k = get h l k.
Proof.
  intros Hwf Hl. unfold get, set. destruct (objs h !! l'); [|done].
  cbn [objs]. by apply get_from_insert_above.
Qed.

Lemma get_forked_old this cm h l k :
  heap_wf h → l < length (objs h) → get (forked_heap this cm h) l k = get h l k.
Proof. intros Hwf Hl. unfold get, forked_heap. cbn [objs]. by apply get_from_app_wf. Qed.

(** Reading a key an object does not own is reading it on its prototype. *)
Lemma get_step h l o p k :
  heap_wf h → objs h !! l = Some o → own o !! k = None → proto o = Some p →
  get h l k = get h p k.
Proof.
  intros Hwf Hl Hown Hp. unfold get. cbn [get_from]. rewrite Hl, Hown, Hp.
  apply get_from_enough; [done|]. by eapply Hwf.
Qed.

(** A key other than [_components] is read through a fresh fork exactly as
    on its origin. *)
Lemma get_forked_layer this cm h k :
  heap_wf h → this < length (objs h) → cm ≤ length (objs h) → k ≠ "_components" →
  get (forked_heap this cm h) (length (objs h)) k = get h this k.
Proof.
  intros Hwf Hthis Hcm Hk.
  pose proof (heap_wf_forked this cm h Hwf Hthis Hcm) as Hwf1.
  rewrite (get_step _ _ _ this k Hwf1 (forked_heap_layer this cm h)).
  - by apply get_forked_old.
  - cbn [own]. by rewrite lookup_singleton_ne.
  - done.
Qed.

(** The fresh component map reads every key as the origin's map does. *)
Lemma get_forked_map this cm h k :
  heap_wf h → this < length (objs h) → cm < length (objs h) →
  get (forked_heap this cm h) (S (length (objs h))) k = get h cm k.
Proof.
  intros Hwf Hthis Hcm.
  pose proof (heap_wf_forked this cm h Hwf Hthis ltac:(lia)) as Hwf1.
  rewrite (get_step _ _ _ cm k Hwf1 (forked_heap_map this cm h)).
  - by apply get_forked_old.
  - done.
  - done.
Qed.

(** ** Names *)

(** X1: names.  On a layer [L], [setName] with a non-empty string followed by
    [getName] gives the string back, and [setName('')] throws and changes
    nothing.  A fork answers [getName] with its origin's name; [setName] and
    [unsetName] on the fork change the fork's answer only, also when the
    fork's name becomes undefined while the origin has one. *)
Theorem layer_name_round_trip_and_fork (h : heap) (L cm : loc) (s : string) :
  heap_wf h → get h L "_components" = Some (VObj cm) → cm ≤ length (objs h) → s ≠ "" →
  let F := length (objs h) in
  let h1 := forked_heap L cm h in
  (getName L (setName L (VStr s) h).2 = VStr s ∧ (setName L (VStr s) h).1 = Ok tt) ∧
  setName L (VStr "") h = (Throw ArgumentError, h) ∧
  fork L h = (Ok F, h1) ∧
  getName F h1 = getName L h ∧
  (getName F (setName F (VStr s) h1).2 = VStr s ∧
   getName L (setName F (VStr s) h1).2 = getName L h) ∧
  (getName F (unsetName F h1) = VUndef ∧
   getName L (unsetName F h1) = getName L h).
Proof.
  intros Hwf Hcm Hcmle Hs F h1.
  assert (L < length (objs h)) as HL by (by eapply get_allocated).
  pose proof (heap_wf_forked L cm h Hwf HL Hcmle) as Hwf1.
  assert (String.eqb s "" = false) as Hs' by (by apply String.eqb_neq).
  assert (is_Some (objs h1 !! F)) as HF by (unfold h1, F; rewrite forked_heap_layer; eauto).
  assert (∀ v, getName L (set F "_name" v h1) = getName L h) as Horigin.
  { intros v. unfold getName. rewrite get_set_above by done.
    unfold h1. by rewrite get_forked_old. }
  split; [|split; [done|split; [by apply fork_spec|split; [|split]]]].
  - unfold setName. rewrite Hs'. cbn [fst snd]. split; [|done].
    unfold getName. rewrite get_set_own; [done|]. by apply lookup_lt_is_Some.
  - unfold getName, h1, F. by rewrite get_forked_layer.
  - unfold setName. rewrite Hs'. cbn [snd]. split; [|apply Horigin].
    unfold getName. by rewrite get_set_own.
  - unfold unsetName. split; [|apply Horigin].
    unfold getName. by rewrite get_set_own.
Qed.

Lemma layer_name_round_trip_and_fork_witness :
  getName 0 sampleLayer = VStr "backend" ∧
  getName 2 (forked_heap 0 1 sampleLayer) = VStr "backend" ∧
  getName 2 (unsetName 2 (forked_heap 0 1 sampleLayer)) = VUndef ∧
  getName 0 (unsetName 2 (forked_heap 0 1 sampleLayer)) = VStr "backend".
Proof.
  destruct (layer_name_round_trip_and_fork sampleLayer 0 1 "frontend" sampleLayer_wf eq_refl)
    as (_ & _ & _ & Hinherit & _ & Hunset & Hkeep).
  - vm_compute. lia.
  - discriminate.
  - split; [reflexivity|]. split; [exact Hinherit|]. split; [exact Hunset|exact Hkeep].
Defined.

(** ** [isForkOf] *)

Lemma inPrototypeChain_above h (n : nat) target l :
  heap_wf h → l ≤ target → inPrototypeChain n (objs h) target l = false.
Proof.
  intros Hwf. revert l. induction n as [|n IH]; intros l Hl; cbn [inPrototypeChain]; [done|].
  destruct (objs h !! l) as [o|] eqn:E; [|done].
  destruct (proto o) as [p|] eqn:Ep; [|done].
  pose proof (Hwf l o p E Ep) as Hp.
  rewrite IH by lia. rewrite orb_false_r. apply Nat.eqb_neq. lia.
Qed.

Lemma inPrototypeChain_mono (n m : nat) os target l :
  n ≤ m → inPrototypeChain n os target l = true → inPrototypeChain m os target l = true.
Proof.
  revert m l. induction n as [|n IH]; intros m l Hle; cbn [inPrototypeChain]; [done|].
  destruct m as [|m]; [lia|]. cbn [inPrototypeChain].
  destruct (os !! l) as [o|]; [|done]. destruct (proto o) as [p|]; [|done].
  destruct (Nat.eqb p target); [done|]. cbn [orb]. apply IH. lia.
Qed.

Lemma inPrototypeChain_app (n : nat) os os' target l :
  inPrototypeChain n os target l = true → inPrototypeChain n (os ++ os') target l = true.
Proof.
  revert l. induction n as [|n IH]; intros l; cbn [inPrototypeChain]; [done|].
  destruct (os !! l) as [o|] eqn:E; [|done].
  rewrite (lookup_app_l_Some _ _ _ _ E).
  destruct (proto o) as [p|]; [|done].
  destruct (Nat.eqb p target); [done|]. cbn [orb]. apply IH.
Qed.

(** X2: [isForkOf].  A fork is a fork of its origin and of everything its
    origin is a fork of; no layer is a fork of itself, and the origin is not
    a fork of its fork. *)
Theorem isForkOf_after_fork (h : heap) (L cm : loc) :
  heap_wf h → get h L "_components" = Some (VObj cm) → cm ≤ length (objs h) →
  let F := length (objs h) in
  let h1 := forked_heap L cm h in
  fork L h = (Ok F, h1) ∧
  isForkOf F L h1 = true ∧
  (∀ A, isForkOf L A h = true → isForkOf F A h1 = true) ∧
  isForkOf L F h1 = false ∧
  (∀ l, isForkOf l l h1 = false).
Proof.
  intros Hwf Hcm Hcmle F h1.
  assert (L < length (objs h)) as HL by (by eapply get_allocated).
  pose proof (heap_wf_forked L cm h Hwf HL Hcmle) as Hwf1.
  split; [by apply fork_spec|]. split; [|split; [|split]].
  - unfold isForkOf. cbn [inPrototypeChain]. unfold h1, F. rewrite forked_heap_layer.
    cbn [proto]. by rewrite Nat.eqb_refl.
  - intros A HA. unfold isForkOf in *. cbn [inPrototypeChain]. unfold h1, F.
    rewrite forked_heap_layer. cbn [proto]. apply orb_true_iff. right.
    unfold forked_heap. cbn [objs]. apply inPrototypeChain_app.
    eapply inPrototypeChain_mono; [|exact HA]. lia.
  - unfold isForkOf. apply inPrototypeChain_above; [done|]. unfold F. lia.
  - intros l. unfold isForkOf. by apply inPrototypeChain_above.
Qed.

Lemma isForkOf_after_fork_witness :
  fork 0 sampleLayer = (Ok 2, forked_heap 0 1 sampleLayer) ∧
  isForkOf 2 0 (forked_heap 0 1 sampleLayer) = true ∧
  isForkOf 0 2 (forked_heap 0 1 sampleLayer) = false.
Proof.
  destruct (isForkOf_after_fork sampleLayer 0 1 sampleLayer_wf eq_refl)
    as (Hfork & Hfwd & _ & Hback & _).
  - vm_compute. lia.
  - split; [exact Hfork|]. split; [exact Hfwd|exact Hback].
Defined.

(** ** The ghost *)

(** X3: the ghost of a ghost.  When [getGhost()] creates the ghost [G] of a
    layer [L], [G] is a fork of [L], every object that existed before other
    than [L] is as it was, and [G.getGhost()] is [G] itself: the ghost reads
    [L]'s cache through delegation, so no chain of ghosts is built. *)
Theorem ghost_of_ghost_is_itself (h : heap) (L cm : loc) :
  get h L "_components" = Some (VObj cm) →
  truthy (get h L "_ghost") = false →
  let G := length (objs h) in
  ∃ h1,
    getGhost L h = (Ok (Some (VObj G)), h1) ∧
    getGhost G h1 = (Ok (Some (VObj G)), h1) ∧
    isForkOf G L h1 = true ∧
    (∀ l, l < length (objs h) → l ≠ L → objs h1 !! l = objs h !! l).
Proof.
  intros Hcm Hno G.
  assert (L < length (objs h)) as HL by (by eapply get_allocated).
  set (h1 := set L "_ghost" (VObj G) (forked_heap L cm h)).
  assert (objs h1 !! G = Some (MkObj (Some L) {["_components" := VObj (S G)]})) as HG.
  { unfold h1. rewrite set_objs_other by (unfold G; lia). apply forked_heap_layer. }
  assert (get h1 L "_ghost" = Some (VObj G)) as Hghost.
  { apply get_set_own. rewrite forked_heap_old by done. by apply lookup_lt_is_Some. }
  exists h1. split; [|split; [|split]].
  - unfold getGhost. rewrite Hno. cbn [negb]. rewrite (fork_spec _ _ _ Hcm).
    fold G. fold h1. by rewrite Hghost.
  - eapply direct_fork_ghost with (L := L) (cm := cm); [exact HG|done|done|done|].
    split; [|split; [exact Hghost|done]].
    apply get_set_ne; [done|]. by apply forked_heap_get.
  - unfold isForkOf. cbn [inPrototypeChain]. rewrite HG. cbn [proto].
    by rewrite Nat.eqb_refl.
  - intros l Hl Hne. unfold h1. rewrite set_objs_other by done.
    by apply forked_heap_old.
Qed.

Lemma ghost_of_ghost_is_itself_witness :
  ∃ h1,
    getGhost 0 sampleLayer = (Ok (Some (VObj 2)), h1) ∧
    getGhost 2 h1 = (Ok (Some (VObj 2)), h1).
Proof.
  destruct (ghost_of_ghost_is_itself sampleLayer 0 1 eq_refl eq_refl)
    as (h1 & H1 & H2 & _).
  exists h1. split; [exact H1|exact H2].
Defined.

(** ** Construction and lookup *)

Section Lookup.
Variable validateComponentName : string → bool → option nameKind.
Variable getComponentClassNameFromComponentInstanceName : string → string.

Abbreviation getComponent :=
  (getComponent validateComponentName getComponentClassNameFromComponentInstanceName).
Abbreviation className_of :=
  (className_of getComponentClassNameFromComponentInstanceName).

Lemma getComponent_className name incl kind this t h :
  name ≠ "" → validateComponentName name incl = Some kind →
  getComponent this name t incl h =
  match get h this "_components" with
  | Some (VObj cm) =>
      match get h cm (className_of name kind) with
      | None | Some VUndef =>
          if t then (Throw ComponentNotRegistered, h) else (Ok None, h)
      | Some (VComp c) =>
          if hasOwnProperty h cm (className_of name kind)
          then (Ok (Some (cref_of kind c)), h)
          else
            match Component_fork c h with
            | Some (c', h1) =>
                (Ok (Some (cref_of kind c')),
                 set cm (className_of name kind) (VComp c') (Component_setLayer c' this h1))
            | None => (Throw NativeTypeError, h)
            end
      | Some _ => (Throw NativeTypeError, h)
      end
  | _ => (Throw NativeTypeError, h)
  end.
Proof.
  intros Hname Hvalid. unfold Layer.getComponent.
  destruct (String.eqb_spec name "") as [|_]; [done|]. rewrite Hvalid.
  by destruct kind.
Qed.

(** X4: a fresh layer.  [new Layer(undefined, {name})] fails with an empty
    name and changes nothing; otherwise it returns a new layer that answers
    [getName] with the given name (undefined when none was given) and in
    which no component is registered: [getComponent] of any valid name
    throws, or returns undefined when [throwIfMissing] is false, and leaves
    the store as it is. *)
Theorem fresh_layer_has_no_component (h : heap) (name : option string) :
  new_Layer None (Some "") h = (Throw ArgumentError, h) ∧
  (name ≠ Some "" →
   ∃ h',
     new_Layer None name h = (Ok (length (objs h)), h') ∧
     getName (length (objs h)) h'
     = match name with Some n => VStr n | None => VUndef end ∧
     ∀ nm incl kind,
       nm ≠ "" → validateComponentName nm incl = Some kind →
       getComponent (length (objs h)) nm true incl h' = (Throw ComponentNotRegistered, h') ∧
       getComponent (length (objs h)) nm false incl h' = (Ok None, h')).
Proof.
  split; [done|]. intros Hname.
  set (this := length (objs h)).
  set (h2 := MkHeap (objs h ++ [MkObj None ∅; MkObj None ∅]) (comps h)).
  set (h3 := set this "_components" (VObj (S this)) h2).
  set (h4 := match name with Some n => set this "_name" (VStr n) h3 | None => h3 end).
  assert (new_Layer None name h = (Ok this, h4)) as Hnew.
  { unfold new_Layer, create. cbn [fst snd objs comps].
    rewrite length_app. cbn [length]. rewrite Nat.add_1_r.
    rewrite <- (assoc_L (++)). cbn [app]. fold this. fold h2. fold h3.
    destruct name as [n|]; [|done]. destruct n; [done|]. done. }
  assert (objs h2 !! this = Some (MkObj None ∅)) as Hthis2.
  { unfold h2, this. cbn [objs]. rewrite lookup_app_r by lia. by rewrite Nat.sub_diag. }
  assert (objs h2 !! S this = Some (MkObj None ∅)) as Hcm2.
  { unfold h2, this. cbn [objs]. rewrite lookup_app_r by lia.
    by replace (S (length (objs h)) - length (objs h)) with 1 by lia. }
  assert (objs h3 !! this = Some (MkObj None {["_components" := VObj (S this)]})) as Hthis3.
  { unfold h3. rewrite (set_objs_same _ _ _ _ _ Hthis2). cbn [proto own].
    by rewrite insert_empty. }
  assert (objs h4 !! S this = Some (MkObj None ∅)) as Hcm4.
  { unfold h4. destruct name; [rewrite set_objs_other by lia|];
      unfold h3; rewrite set_objs_other by lia; exact Hcm2. }
  assert (get h4 this "_components" = Some (VObj (S this))) as Hcomponents.
  { assert (get h3 this "_components" = Some (VObj (S this))) as H3
      by (eapply get_own; [exact Hthis3|apply lookup_singleton_eq]).
    unfold h4. destruct name; [by apply get_set_ne|done]. }
  assert (∀ k, get h4 (S this) k = None) as Hempty.
  { intros k. unfold get. cbn [get_from]. by rewrite Hcm4. }
  exists h4. split; [exact Hnew|]. split.
  - unfold getName, h4. destruct name as [n|].
    + rewrite get_set_own; [done|]. rewrite Hthis3. eauto.
    + unfold get. cbn [get_from]. rewrite Hthis3. cbn [own proto].
      by rewrite lookup_singleton_ne.
  - intros nm incl kind Hnm Hvalid.
    rewrite !(getComponent_className nm incl kind) by done.
    by rewrite Hcomponents, Hempty.
Qed.

(** X5: one fork per component.  The first [getComponent] through a fresh
    fork of a layer makes the fork [c'] of the registered component; every
    later [getComponent] of the same name through that fork returns [c']
    again and changes nothing. *)
Theorem forked_component_is_created_once (h : heap) (L cmL : loc) (name : string)
    (incl : bool) (kind : nameKind) (c : loc) (o : comp) (t : bool) :
  get h L "_components" = Some (VObj cmL) →
  name ≠ "" → validateComponentName name incl = Some kind →
  get h cmL (className_of name kind) = Some (VComp c) →
  comps h !! c = Some o →
  let F := length (objs h) in
  let c' := length (comps h) in
  ∃ h2,
    getComponent F name t incl (forked_heap L cmL h) = (Ok (Some (cref_of kind c')), h2) ∧
    length (comps h2) = S (length (comps h)) ∧
    ∀ t', getComponent F name t' incl h2 = (Ok (Some (cref_of kind c')), h2).
Proof.
  intros Hcm Hname Hvalid Hreg Hc F c'.
  destruct (getComponent_through_fork validateComponentName
              getComponentClassNameFromComponentInstanceName
              h L cmL name incl kind c o t Hcm Hname Hvalid Hreg Hc)
    as (h2 & Hrun & Hcomps & HmapF & Hother).
  exists h2. split; [exact Hrun|]. split.
  { rewrite Hcomps, length_app. cbn [length]. lia. }
  intros t'. rewrite (getComponent_className name incl kind) by done.
  assert (get h2 F "_components" = Some (VObj (S F))) as ->.
  { eapply get_own.
    - rewrite Hother by (unfold F; lia). apply forked_heap_layer.
    - apply lookup_singleton_eq. }
  assert (get h2 (S F) (className_of name kind) = Some (VComp c')) as ->.
  { eapply get_own; [exact HmapF|]. apply lookup_singleton_eq. }
  unfold hasOwnProperty. fold F in HmapF. rewrite HmapF. cbn [own].
  rewrite lookup_singleton_eq. by rewrite bool_decide_eq_true_2.
Qed.

(** ** Registration *)

Lemma registerComponent_success_inv this c h h' :
  registerComponent this (AComponent c) h = (Ok tt, h') →
  ∃ o, comps h !! c = Some o ∧ ckind o = ComponentClass ∧
       comps h' = <[c := MkComp ComponentClass (cname o) (Some this) (corigin o)]> (comps h).
Proof.
  unfold registerComponent. intros H.
  destruct (comps h !! c) as [o|] eqn:Hc; [|done].
  destruct (ckind o) eqn:Hk; [|done].
  destruct (Component_hasLayer c h); [done|].
  destruct (get h this "_components") as [[| |cm| |]|]; try done.
  assert (∀ r : result unit * heap,
            (if has_in h this (cname o) then (Throw SameNameAsProperty, h)
             else (Ok tt, set this (cname o) (VGetter (cname o))
                            (set cm (cname o) (VComp c) (Component_setLayer c this h))))
            = (Ok tt, h') →
            comps h' = <[c := MkComp ComponentClass (cname o) (Some this) (corigin o)]>
                         (comps h)) as Hend.
  { intros _ H'. destruct (has_in h this (cname o)); [done|].
    injection H' as <-. rewrite !set_comps. unfold Component_setLayer.
    rewrite Hc. cbn [comps]. by rewrite Hk. }
  exists o. split; [done|]. split; [done|].
  destruct (get h cm (cname o)) as [[| | | |]|]; try done; by apply (Hend (Ok tt, h)).
Qed.

(** X6: no double registration.  Once [registerComponent] has succeeded for
    a component, registering it again, in the same layer or in any other,
    throws "already registered" and changes nothing. *)
Theorem registered_component_is_refused (h : heap) (this c : loc) (h' : heap) :
  registerComponent this (AComponent c) h = (Ok tt, h') →
  ∀ that, registerComponent that (AComponent c) h' = (Throw AlreadyRegistered, h').
Proof.
  intros Hok that.
  destruct (registerComponent_success_inv _ _ _ _ Hok) as (o & Hc & Hk & Hcomps).
  assert (comps h' !! c = Some (MkComp ComponentClass (cname o) (Some this) (corigin o)))
    as Hc'.
  { rewrite Hcomps. apply list_lookup_insert_eq. by eapply lookup_lt_Some. }
  unfold registerComponent, Component_hasLayer. rewrite Hc'. cbn [ckind clayer].
  by rewrite bool_decide_eq_true_2 by eauto.
Qed.

Lemma fork_and_bind_comps h c o (F : loc) :
  comps h !! c = Some o →
  comps (Component_setLayer (length (comps h)) F
           (MkHeap (objs h)
              (comps h ++ [MkComp (ckind o) (cname o) (clayer o) (Some c)])))
  = comps h ++ [MkComp (ckind o) (cname o) (Some F) (Some c)].
Proof.
  intros Hc. unfold Component_setLayer. cbn [comps objs].
  rewrite lookup_app_r by lia. rewrite Nat.sub_diag. cbn [lookup list_lookup].
  cbn [ckind cname corigin comps].
  rewrite insert_app_r_alt by lia. by rewrite Nat.sub_diag.
Qed.

Lemma registerComponent_success this c o cm h :
  comps h !! c = Some o → ckind o = ComponentClass → clayer o = None →
  get h this "_components" = Some (VObj cm) →
  get h cm (cname o) = None → has_in h this (cname o) = false →
  registerComponent this (AComponent c) h
  = (Ok tt, set this (cname o) (VGetter (cname o))
              (set cm (cname o) (VComp c) (Component_setLayer c this h))).
Proof.
  intros Hc Hk Hl Hcm Hfree Hin. unfold registerComponent, Component_hasLayer.
  rewrite Hc, Hk, Hl, Hcm, Hfree, Hin.
  by rewrite bool_decide_eq_false_2 by (by intros [? ?]).
Qed.

Lemma has_in_false h l k :
  has_in h l k = false ↔ get h l k = None ∧ k ∉ Layer_prototype_keys.
Proof.
  unfold has_in. rewrite orb_false_iff, !bool_decide_eq_false.
  split; intros [H1 H2]; (split; [|done]).
  - destruct (get h l k); [|done]. exfalso. eauto.
  - rewrite H1. by intros [? ?].
Qed.

Lemma setLayer_objs c l h : objs (Component_setLayer c l h) = objs h.
Proof. unfold Component_setLayer. by destruct (comps h !! c). Qed.

Lemma heap_wf_objs h h' : objs h = objs h' → heap_wf h → heap_wf h'.
Proof. unfold heap_wf. by intros <-. Qed.

(** X7: registering in a fork.  A component registered in a fork of a layer
    is reachable in the fork's own map and stays unknown to the origin: the
    origin's map does not hold it, the origin gets no accessor for it, and
    [getComponent] on the origin still misses. *)
Theorem registration_in_fork_is_local (h : heap) (L cmL c : loc) (o : comp) :
  heap_wf h →
  get h L "_components" = Some (VObj cmL) → cmL < length (objs h) →
  comps h !! c = Some o → ckind o = ComponentClass → clayer o = None →
  get h cmL (cname o) = None → has_in h L (cname o) = false →
  let F := length (objs h) in
  ∃ h2,
    registerComponent F (AComponent c) (forked_heap L cmL h) = (Ok tt, h2) ∧
    get h2 (S F) (cname o) = Some (VComp c) ∧
    hasOwnProperty h2 (S F) (cname o) = true ∧
    get h2 cmL (cname o) = None ∧
    has_in h2 L (cname o) = false ∧
    (cname o ≠ "" → validateComponentName (cname o) false = Some componentClassName →
     getComponent L (cname o) false false h2 = (Ok None, h2)).
Proof.
  intros Hwf Hcm HcmL Hc Hk Hl Hfree Hin F.
  assert (L < length (objs h)) as HL by (by eapply get_allocated).
  apply has_in_false in Hin as [HinL Hbuiltin].
  assert (cname o ≠ "_components") as Hname by (intros Heq; by rewrite Heq, Hcm in HinL).
  set (h1 := forked_heap L cmL h).
  pose proof (heap_wf_forked L cmL h Hwf HL ltac:(lia)) as Hwf1. fold h1 in Hwf1.
  assert (get h1 F "_components" = Some (VObj (S F))) as HcmF.
  { eapply get_own; [apply forked_heap_layer|]. apply lookup_singleton_eq. }
  assert (get h1 (S F) (cname o) = None) as HfreeF.
  { unfold h1, F. by rewrite get_forked_map. }
  assert (has_in h1 F (cname o) = false) as HinF.
  { apply has_in_false. split; [|done]. unfold h1, F.
    by rewrite get_forked_layer by (done || lia). }
  rewrite (registerComponent_success F c o (S F) h1 Hc Hk Hl HcmF HfreeF HinF).
  set (ha := Component_setLayer c F h1).
  assert (objs ha = objs h1) as Hobjs by apply setLayer_objs.
  pose proof (heap_wf_objs h1 ha (eq_sym Hobjs) Hwf1) as Hwfa.
  set (hb := set (S F) (cname o) (VComp c) ha).
  pose proof (heap_wf_set ha (S F) (cname o) (VComp c) Hwfa) as Hwfb. fold hb in Hwfb.
  assert (objs hb !! S F = Some (MkObj (Some cmL) (<[cname o := VComp c]> ∅))) as HmapF.
  { unfold hb. apply (set_objs_same ha (S F) (MkObj (Some cmL) ∅)).
    rewrite Hobjs. apply forked_heap_map. }
  assert (∀ l k, l < F →
            get (set F (cname o) (VGetter (cname o)) hb) l k = get h l k) as Hbelow.
  { intros l k Hlt. rewrite get_set_above by (done || lia).
    unfold hb. rewrite get_set_above by (done || lia).
    rewrite (get_objs_eq ha h1) by done. unfold h1. by rewrite get_forked_old. }
  eexists. split; [done|]. split; [|split; [|split; [|split]]].
  - eapply get_own; [rewrite set_objs_other by lia; exact HmapF|].
    cbn [own]. apply lookup_insert_eq.
  - unfold hasOwnProperty. rewrite set_objs_other by lia. rewrite HmapF. cbn [own].
    rewrite lookup_insert_eq. by rewrite bool_decide_eq_true_2.
  - by rewrite Hbelow.
  - apply has_in_false. split; [|done]. by rewrite Hbelow.
  - intros Hne Hvalid.
    rewrite (getComponent_className (cname o) false componentClassName) by done.
    rewrite !Hbelow by done. cbn [className_of Layer.className_of]. rewrite Hcm.
    rewrite Hbelow by done. by rewrite Hfree.
Qed.

(** X8: registering in the origin after a fork.  A component registered in a
    layer after the layer was forked is seen through the fork, which
    delegates to the origin's map: [getComponent] on the fork hands out a
    fork of the component, bound to the forked layer, while the component
    itself stays bound to the origin. *)
Theorem registration_in_origin_reaches_fork (h : heap) (L cmL c : loc) (o : comp) (t : bool) :
  heap_wf h →
  get h L "_components" = Some (VObj cmL) → cmL < length (objs h) → cmL ≠ L →
  comps h !! c = Some o → ckind o = ComponentClass → clayer o = None →
  get h cmL (cname o) = None → has_in h L (cname o) = false →
  cname o ≠ "" → validateComponentName (cname o) false = Some componentClassName →
  let F := length (objs h) in
  let c' := length (comps h) in
  ∃ h2 h3,
    registerComponent L (AComponent c) (forked_heap L cmL h) = (Ok tt, h2) ∧
    getComponent F (cname o) t false h2 = (Ok (Some (ClassRef c')), h3) ∧
    comps h3 !! c' = Some (MkComp ComponentClass (cname o) (Some F) (Some c)) ∧
    comps h3 !! c = Some (MkComp ComponentClass (cname o) (Some L) (corigin o)).
Proof.
  intros Hwf Hcm HcmL Hne Hc Hk Hl Hfree Hin Hnonempty Hvalid F c'.
  assert (L < length (objs h)) as HL by (by eapply get_allocated).
  pose proof Hin as Hin'. apply has_in_false in Hin' as [HinL Hbuiltin].
  assert (cname o ≠ "_components") as Hname by (intros Heq; by rewrite Heq, Hcm in HinL).
  set (h1 := forked_heap L cmL h).
  assert (get h1 L "_components" = Some (VObj cmL)) as Hcm1 by (by apply forked_heap_get).
  assert (get h1 cmL (cname o) = None) as Hfree1
    by (unfold h1; by rewrite get_forked_old).
  assert (has_in h1 L (cname o) = false) as Hin1.
  { apply has_in_false. split; [|done]. unfold h1. by rewrite get_forked_old. }
  rewrite (registerComponent_success L c o cmL h1 Hc Hk Hl Hcm1 Hfree1 Hin1).
  set (ha := Component_setLayer c L h1).
  assert (objs ha = objs h1) as Hobjs by apply setLayer_objs.
  assert (comps ha = <[c := MkComp ComponentClass (cname o) (Some L) (corigin o)]> (comps h))
    as Hcompsa.
  { unfold ha, Component_setLayer. replace (comps h1) with (comps h) by done.
    rewrite Hc. cbn [comps]. by rewrite Hk. }
  set (hb := set cmL (cname o) (VComp c) ha).
  set (h2 := set L (cname o) (VGetter (cname o)) hb).
  assert (comps h2 = comps ha) as Hcomps2 by (unfold h2, hb; by rewrite !set_comps).
  assert (∀ l, l ≠ cmL → l ≠ L → objs h2 !! l = objs h1 !! l) as Hother.
  { intros l H1 H2. unfold h2, hb. rewrite !set_objs_other by done. by rewrite Hobjs. }
  assert (get h2 cmL (cname o) = Some (VComp c)) as Hreg.
  { unfold h2. destruct (lookup_lt_is_Some_2 (objs h1) cmL) as [ocm Hocm].
    { unfold h1, forked_heap. cbn [objs]. rewrite length_app. lia. }
    eapply get_own.
    - rewrite set_objs_other by done. unfold hb. apply set_objs_same.
      rewrite Hobjs. exact Hocm.
    - cbn [own]. apply lookup_insert_eq. }
  assert (get h2 F "_components" = Some (VObj (S F))) as HcmF.
  { eapply get_own.
    - rewrite Hother by (unfold F; lia). apply forked_heap_layer.
    - apply lookup_singleton_eq. }
  assert (objs h2 !! S F = Some (MkObj (Some cmL) ∅)) as HmapF.
  { rewrite Hother by (unfold F; lia). apply forked_heap_map. }
  assert (get h2 (S F) (cname o) = Some (VComp c)) as Hfound.
  { eapply get_delegates; [exact HmapF|done|done|unfold F; lia|exact Hreg]. }
  assert (comps h2 !! c = Some (MkComp ComponentClass (cname o) (Some L) (corigin o)))
    as Hc2.
  { rewrite Hcomps2, Hcompsa. apply list_lookup_insert_eq. by eapply lookup_lt_Some. }
  assert (length (comps h2) = c') as Hlen.
  { rewrite Hcomps2, Hcompsa. by rewrite length_insert. }
  pose proof (fork_and_bind_comps h2 c _ F Hc2) as Hcomps3. cbn [ckind cname clayer] in Hcomps3.
  exists h2, (set (S F) (cname o) (VComp (length (comps h2)))
                (Component_setLayer (length (comps h2)) F
                   (MkHeap (objs h2)
                      (comps h2 ++ [MkComp ComponentClass (cname o) (Some L) (Some c)])))).
  split; [done|]. rewrite <- Hlen. split; [|split].
  - rewrite (getComponent_className (cname o) false componentClassName) by done.
    cbn [className_of Layer.className_of cref_of]. rewrite HcmF, Hfound.
    unfold hasOwnProperty. rewrite HmapF. cbn [own]. rewrite lookup_empty.
    rewrite bool_decide_eq_false_2 by (by intros [? ?]).
    unfold Component_fork. by rewrite Hc2.
  - rewrite set_comps, Hcomps3. rewrite lookup_app_r by lia. by rewrite Nat.sub_diag.
  - rewrite set_comps, Hcomps3. rewrite lookup_app_l by (by eapply lookup_lt_Some).
    exact Hc2.
Qed.

End Lookup.

Lemma fresh_layer_has_no_component_witness :
  ∃ h',
    new_Layer None (Some "frontend") sampleLayer = (Ok 2, h') ∧
    Layer.getComponent sampleValidate sampleClassName 2 "Movie" false false h' = (Ok None, h').
Proof.
  destruct (fresh_layer_has_no_component sampleValidate sampleClassName sampleLayer
              (Some "frontend")) as [_ H].
  destruct H as (h' & Hnew & _ & Hmiss); [discriminate|].
  exists h'. split; [exact Hnew|].
  apply (Hmiss "Movie" false componentClassName); [discriminate|reflexivity].
Defined.

Lemma forked_component_is_created_once_witness :
  ∃ h2,
    Layer.getComponent sampleValidate sampleClassName 2 "Movie" true false
      (forked_heap 0 1 sampleLayer) = (Ok (Some (ClassRef 3)), h2) ∧
    Layer.getComponent sampleValidate sampleClassName 2 "Movie" true false h2
    = (Ok (Some (ClassRef 3)), h2).
Proof.
  destruct (forked_component_is_created_once sampleValidate sampleClassName sampleLayer 0 1
              "Movie" false componentClassName 0
              (MkComp ComponentClass "Movie" (Some 0) None) true)
    as (h2 & Hfirst & _ & Hagain).
  - reflexivity.
  - discriminate.
  - reflexivity.
  - reflexivity.
  - reflexivity.
  - exists h2. split; [exact Hfirst|apply Hagain].
Defined.

Lemma registered_component_is_refused_witness :
  registerComponent 0 (AComponent 1) sampleLayer
  = (Ok tt, (registerComponent 0 (AComponent 1) sampleLayer).2) ∧
  registerComponent 0 (AComponent 1) (registerComponent 0 (AComponent 1) sampleLayer).2
  = (Throw AlreadyRegistered, (registerComponent 0 (AComponent 1) sampleLayer).2).
Proof.
  assert (registerComponent 0 (AComponent 1) sampleLayer
          = (Ok tt, (registerComponent 0 (AComponent 1) sampleLayer).2)) as H
    by (vm_compute; reflexivity).
  split; [exact H|].
  exact (registered_component_is_refused sampleLayer 0 1 _ H 0).
Defined.

Lemma registration_in_fork_is_local_witness :
  ∃ h2,
    registerComponent 2 (AComponent 1) (forked_heap 0 1 sampleLayer) = (Ok tt, h2) ∧
    get h2 3 "Actor" = Some (VComp 1) ∧
    get h2 1 "Actor" = None ∧
    Layer.getComponent sampleValidate sampleClassName 0 "Actor" false false h2 = (Ok None, h2).
Proof.
  destruct (registration_in_fork_is_local sampleValidate sampleClassName sampleLayer 0 1 1
              (MkComp ComponentClass "Actor" None None) sampleLayer_wf eq_refl)
    as (h2 & Hreg & Hown & _ & Horigin & _ & Hmiss).
  - vm_compute. lia.
  - reflexivity.
  - reflexivity.
  - reflexivity.
  - reflexivity.
  - reflexivity.
  - exists h2. split; [exact Hreg|]. split; [exact Hown|]. split; [exact Horigin|].
    apply Hmiss; [discriminate|reflexivity].
Defined.

Lemma registration_in_origin_reaches_fork_witness :
  ∃ h2 h3,
    registerComponent 0 (AComponent 1) (forked_heap 0 1 sampleLayer) = (Ok tt, h2) ∧
    Layer.getComponent sampleValidate sampleClassName 2 "Actor" true false h2
    = (Ok (Some (ClassRef 3)), h3) ∧
    comps h3 !! 3 = Some (MkComp ComponentClass "Actor" (Some 2) (Some 1)).
Proof.
  destruct (registration_in_origin_reaches_fork sampleValidate sampleClassName sampleLayer
              0 1 1 (MkComp ComponentClass "Actor" None None) true sampleLayer_wf eq_refl)
    as (h2 & h3 & Hreg & Hget & Hfork & _).
  - vm_compute. lia.
  - discriminate.
  - reflexivity.
  - reflexivity.
  - reflexivity.
  - reflexivity.
  - reflexivity.
  - discriminate.
  - reflexivity.
  - exists h2, h3. split; [exact Hreg|]. split; [exact Hget|exact Hfork].
Defined.

End LayerMore.

(** * Further properties of models *)

Module ModelMore.
Import Model ModelProofs.

(** ** Lookups *)

Lemma descOf_with_own_table (this : Model) n :
  descOf (with_own (own_table this) this) n = descOf this n.
Proof. unfold descOf. by rewrite resolve_with_own_table. Qed.

Lemma materialize_missing name (this : Model) :
  resolve this name = None → materialize name this = with_own (own_table this) this.
Proof. intros Hr. unfold materialize. by rewrite Hr. Qed.

(** X9: missing names.  For a name that no [__properties] object of the
    chain holds, [$getProperty] throws "property not found", or returns
    undefined when [throwIfNotFound] is false; [$getField] and [$getMethod]
    do the same with their own errors; [$hasProperty], [$hasField] and
    [$hasMethod] return false.  All of them leave every descriptor and the
    inherited [__properties] objects as they were: at most an empty own
    [__properties] object is created. *)
Theorem missing_name_lookups (name : string) (this : Model) :
  resolve this name = None →
  let this' := with_own (own_table this) this in
  getProperty name true this = (Throw PropertyNotFound, this') ∧
  getProperty name false this = (Ok None, this') ∧
  hasProperty name this = (Ok false, this') ∧
  getField name true this = (Throw FieldNotFound, this') ∧
  getField name false this = (Ok None, this') ∧
  hasField name this = (Ok false, this') ∧
  getMethod name true this = (Fails MethodNotFound, this') ∧
  getMethod name false this = (Returns None, this') ∧
  hasMethod name this = (Returns false, this') ∧
  own_table this' = own_table this ∧
  same_frame this this' ∧
  (∀ n, descOf this' n = descOf this n).
Proof.
  intros Hr this'.
  assert (∀ t, getProperty name t this
               = (if t then Throw PropertyNotFound else Ok None, this')) as Hget.
  { intros t. rewrite getProperty_run, Hr. by rewrite materialize_missing. }
  assert (∀ t, getField name t this
               = (if t then Throw FieldNotFound else Ok None, this')) as HgetF.
  { intros t. rewrite getField_run, Hr. by rewrite materialize_missing. }
  assert (∀ t, getMethod name t this
               = (if t then Fails MethodNotFound else Returns None, this')) as HgetM.
  { intros t. unfold getMethod. rewrite (Hget false). by destruct t. }
  repeat split.
  - apply (Hget true).
  - apply (Hget false).
  - unfold hasProperty, bind. by rewrite (Hget false).
  - apply (HgetF true).
  - apply (HgetF false).
  - rewrite hasField_run, Hr. by rewrite materialize_missing.
  - apply (HgetM true).
  - apply (HgetM false).
  - unfold hasMethod. by rewrite (HgetM false).
  - intros n. apply descOf_with_own_table.
Qed.

Lemma missing_name_lookups_witness :
  getProperty "rating" true movie = (Throw PropertyNotFound, with_own [] movie) ∧
  hasField "rating" movie = (Ok false, with_own [] movie) ∧
  descOf (with_own [] movie) "title" = descOf movie "title".
Proof.
  destruct (missing_name_lookups "rating" movie eq_refl)
    as (H1 & _ & _ & _ & _ & H2 & _ & _ & _ & _ & _ & H3).
  split; [exact H1|]. split; [exact H2|exact (H3 "title")].
Defined.

(** X10: stable reads.  Once [$getProperty(name)] has returned a property, it
    returns that same property on every later call and changes nothing any
    more, also after other names have been read in between. *)
Theorem getProperty_is_stable (name : string) (t : bool) (this : Model)
    (p : Property) (this1 : Model) :
  getProperty name t this = (Ok (Some p), this1) →
  (∀ t', getProperty name t' this1 = (Ok (Some p), this1)) ∧
  (∀ other t' t'',
     (getProperty name t'' (getProperty other t' this1).2).1 = Ok (Some p)) ∧
  (∀ n, descOf this1 n = descOf this n).
Proof.
  rewrite getProperty_run. intros H.
  destruct (resolve this name) as [q|] eqn:Hr; [|by destruct t].
  injection H as Hp Hs.
  destruct (materialize_owns name this q Hr) as (p' & Hown & _ & Hp').
  rewrite <- Hp' in Hp. subst p'. rewrite Hs in Hown.
  assert (∀ s, assoc_get name (own_table s) = Some p →
               ∀ t', getProperty name t' s = (Ok (Some p), s)) as Hstable.
  { intros s Hs' t'. rewrite getProperty_run, (resolve_own _ _ _ Hs').
    rewrite (proj2 (assoc_has_true _ _)) by eauto.
    by rewrite (materialize_own_id _ _ _ Hs'). }
  split; [by apply Hstable|]. split.
  - intros other t' t''. rewrite (getProperty_run other). cbn [snd].
    rewrite Hstable; [done|]. by apply materialize_keeps_own.
  - intros n. rewrite <- Hs. apply descOf_materialize.
Qed.

Lemma getProperty_is_stable_witness :
  getProperty "title" true (getProperty "title" true movie).2
  = (Ok (Some (MkProperty 2 (DField titleField))), (getProperty "title" true movie).2).
Proof.
  apply (getProperty_is_stable "title" true movie
           (MkProperty 2 (DField titleField)) (getProperty "title" true movie).2).
  reflexivity.
Defined.

(** ** Declaring fields *)

Lemma own_table_with_own t (s : Model) : own_table (with_own t s) = t.
Proof. done. Qed.

Lemma m_inherited_with_own t (s : Model) : m_inherited (with_own t s) = m_inherited s.
Proof. done. Qed.

Lemma materialize_idem name (this : Model) :
  materialize name (materialize name this) = materialize name this.
Proof.
  destruct (resolve this name) as [p|] eqn:Hr.
  - destruct (materialize_owns name this p Hr) as (p' & Hown & _).
    by eapply materialize_own_id.
  - rewrite (materialize_missing _ _ Hr).
    rewrite materialize_missing by (by rewrite resolve_with_own_table).
    by apply with_own_id.
Qed.

Lemma own_or_fork_resolves name (this : Model) p :
  resolve this name = Some p →
  resolve (materialize name this) name
  = Some (if assoc_has name (own_table this) then p else Property_fork p this) ∧
  assoc_has name (own_table (materialize name this)) = true.
Proof.
  intros Hr. destruct (materialize_owns name this p Hr) as (p' & Hown & _ & ->).
  split; [by apply resolve_own|]. apply assoc_has_true. eauto.
Qed.

Lemma m_id_materialize name (this : Model) : m_id (materialize name this) = m_id this.
Proof. by destruct (materialize_frame name this) as (? & _). Qed.

Lemma getProperties_materialized name (this : Model) :
  __getProperties (materialize name this)
  = (Ok (own_table (materialize name this)), materialize name this).
Proof.
  destruct (materialize_own_Some name this) as [t Ht].
  unfold __getProperties, own_table. by rewrite Ht.
Qed.

Lemma bind_run {A B : Type} (c : M A) (k : A → M B) (s : Model) a s' :
  c s = (Ok a, s') → bind c k s = k a s'.
Proof. unfold bind. by intros ->. Qed.

Lemma bind_throw {A B : Type} (c : M A) (k : A → M B) (s : Model) e s' :
  c s = (Throw e, s') → bind c k s = (Throw e, s').
Proof. unfold bind. by intros ->. Qed.

Lemma hasProperty_run name (this : Model) :
  hasProperty name this
  = (Ok (bool_decide (is_Some (resolve this name))), materialize name this).
Proof.
  unfold hasProperty, bind. rewrite getProperty_run.
  destruct (resolve this name) as [p|]; cbn [ret].
  - by rewrite !bool_decide_eq_true_2 by eauto.
  - by rewrite !bool_decide_eq_false_2 by (by intros [? ?]).
Qed.

(** What [$setProperty] does, given what the constructor returns. *)
Lemma setProperty_run getOptions ctor name options (this : Model) :
  let s1 := materialize name this in
  let options' :=
    match resolve this name with
    | Some p =>
        spread (getOptions (if assoc_has name (own_table this) then p
                            else Property_fork p this)) options
    | None => options
    end in
  setProperty getOptions ctor name options this =
  match ctor s1 name options' with
  | Ok desc =>
      (Ok (MkProperty (m_id this) desc),
       with_own (assoc_set name (MkProperty (m_id this) desc) (own_table s1)) s1)
  | Throw e => (Throw e, s1)
  end.
Proof.
  intros s1 options'. unfold setProperty.
  rewrite (bind_run _ _ _ _ _ (hasProperty_run name this)). fold s1.
  assert ((if bool_decide (is_Some (resolve this name))
           then do existingProperty <- getProperty name true;
                match existingProperty with
                | Some existingProperty =>
                    ret (spread (getOptions existingProperty) options)
                | None => throw PropertyNotFound
                end
           else ret options) s1 = (Ok options', s1)) as Hopt.
  { unfold options'. destruct (resolve this name) as [p|] eqn:Hr.
    - rewrite bool_decide_eq_true_2 by eauto. unfold bind. rewrite getProperty_run.
      destruct (own_or_fork_resolves name this p Hr) as [Hres Hhas]. fold s1 in Hres, Hhas.
      rewrite Hres, Hhas. unfold s1. by rewrite materialize_idem.
    - by rewrite bool_decide_eq_false_2 by (by intros [? ?]). }
  rewrite (bind_run _ _ _ _ _ Hopt).
  rewrite (bind_run _ _ _ _ _ (getProperties_materialized name this)). fold s1.
  rewrite (bind_run (gets _) _ s1 _ s1 eq_refl).
  destruct (ctor s1 name options') as [desc|e]; [|done].
  rewrite (bind_run (gets _) _ s1 _ s1 eq_refl).
  unfold bind, setOwnProperty, modify, ret, with_own, own_table. cbn [fst snd].
  unfold s1. by rewrite !m_id_materialize.
Qed.

Lemma spread_get {A : Type} (a b : list (string * A)) k :
  NoDup (map fst b) →
  assoc_get k (spread a b)
  = match assoc_get k b with Some v => Some v | None => assoc_get k a end.
Proof.
  unfold spread. revert a. induction b as [|[k0 v0] b IH]; intros a Hnd; [done|].
  cbn [map fst] in Hnd. apply NoDup_cons in Hnd as [Hk0 Hnd].
  cbn [foldl fst snd assoc_get]. rewrite (IH _ Hnd).
  destruct (decide (k = k0)) as [->|Hne].
  - assert (assoc_get k0 b = None) as ->.
    { destruct (assoc_get k0 b) eqn:E; [|done]. by apply assoc_get_Some_elem in E. }
    apply assoc_get_set_eq.
  - destruct (assoc_get k b); [done|]. by apply assoc_get_set_ne.
Qed.

Section Declaring.
Variable Field_new : Model → string → list (string * val) → result (descriptor val).
Variable getOptions : Property → list (string * val).

Abbreviation setField := (setField Field_new getOptions).
Abbreviation setProperty := (setProperty getOptions Field_new).

Lemma setField_run name options (this : Model) :
  let s1 := materialize name this in
  setField name options this =
  match resolve this name with
  | None => setProperty name options s1
  | Some p =>
      match p_desc p with
      | DField f =>
          if redeclares options f then (Throw TypeRedeclaration, s1)
          else setProperty name options s1
      | DMethod => (Throw NotAField, s1)
      end
  end.
Proof.
  intros s1. unfold Model.setField.
  rewrite (bind_run _ _ _ _ _ (hasProperty_run name this)). fold s1.
  destruct (resolve this name) as [p|] eqn:Hr.
  - rewrite bool_decide_eq_true_2 by eauto.
    destruct (own_or_fork_resolves name this p Hr) as [Hres Hhas]. fold s1 in Hres, Hhas.
    assert (materialize name s1 = s1) as Hidem by apply materialize_idem.
    unfold bind at 1. unfold bind at 1. rewrite getField_run, Hres, Hhas, Hidem.
    assert (isField (if assoc_has name (own_table this) then p else Property_fork p this)
            = isField p) as -> by (by destruct (assoc_has _ _)).
    assert (p_desc (if assoc_has name (own_table this) then p else Property_fork p this)
            = p_desc p) as Hdesc by (by destruct (assoc_has _ _)).
    unfold isField. destruct (p_desc p) as [f|] eqn:Hp; cbn [negb]; [|done].
    cbn [fmap option_fmap option_map]. rewrite Hdesc. fold (redeclares options f).
    by destruct (redeclares options f).
  - rewrite bool_decide_eq_false_2 by (by intros [? ?]).
    by rewrite (bind_run (ret tt) _ s1 tt s1 eq_refl).
Qed.

(** X11: declaring a new field.  [$setField] for a name that is not yet a
    property hands the options to the field constructor; if that succeeds,
    the new property, bound to the model, is appended to the model's own
    [__properties] and is what [$getProperty] returns from then on, every
    other name and the inherited [__properties] being as before; if the
    constructor throws, the error is passed on and nothing is declared. *)
Theorem setField_declares_a_new_field (name : string) (options : list (string * val))
    (this : Model) :
  resolve this name = None →
  let s1 := with_own (own_table this) this in
  match Field_new s1 name options with
  | Ok desc =>
      let property := MkProperty (m_id this) desc in
      ∃ this',
        setField name options this = (Ok property, this') ∧
        own_table this' = own_table this ++ [(name, property)] ∧
        (∀ t, getProperty name t this' = (Ok (Some property), this')) ∧
        descOf this' name = Some desc ∧
        (∀ n, n ≠ name → descOf this' n = descOf this n) ∧
        same_frame this this'
  | Throw e =>
      setField name options this = (Throw e, s1) ∧
      (∀ n, descOf s1 n = descOf this n)
  end.
Proof.
  intros Hr s1.
  assert (materialize name this = s1) as Hs1 by (by apply materialize_missing).
  assert (resolve s1 name = None) as Hr1 by (unfold s1; by rewrite resolve_with_own_table).
  assert (materialize name s1 = s1) as Hs1' by (rewrite <- Hs1; apply materialize_idem).
  pose proof (setField_run name options this) as Hrun. cbv zeta in Hrun.
  rewrite Hr, Hs1 in Hrun.
  pose proof (setProperty_run getOptions Field_new name options s1) as Hset.
  cbv zeta in Hset. rewrite Hr1, Hs1' in Hset. rewrite Hset in Hrun. clear Hset.
  destruct (Field_new s1 name options) as [desc|e].
  2:{ split; [exact Hrun|]. intros n. apply descOf_with_own_table. }
  assert (assoc_get name (own_table this) = None) as Hown.
  { destruct (assoc_get name (own_table this)) eqn:E; [|done].
    by rewrite (resolve_own _ _ _ E) in Hr. }
  assert (assoc_set name (MkProperty (m_id this) desc) (own_table this)
          = own_table this ++ [(name, MkProperty (m_id this) desc)]) as Happend.
  { revert Hown. generalize (own_table this). intros t.
    induction t as [|[k a] t IH]; cbn [assoc_get assoc_set app]; [done|].
    destruct (decide (name = k)); [done|]. intros H. by rewrite IH. }
  eexists. split; [exact Hrun|].
  change (m_id s1) with (m_id this).
  change (own_table s1) with (own_table this).
  set (property := MkProperty (m_id this) desc).
  set (this' := with_own (assoc_set name property (own_table this)) s1).
  assert (assoc_get name (own_table this') = Some property) as Hown'
    by apply assoc_get_set_eq.
  split; [exact Happend|]. split; [|split; [|split]].
  - intros t. rewrite getProperty_run, (resolve_own _ _ _ Hown').
    rewrite (proj2 (assoc_has_true _ _)) by eauto.
    by rewrite (materialize_own_id _ _ _ Hown').
  - unfold descOf. by rewrite (resolve_own _ _ _ Hown').
  - intros n Hne. unfold descOf. rewrite !resolve_via_own_table.
    change (own_table this') with (assoc_set name property (own_table this)).
    by rewrite assoc_get_set_ne.
  - by repeat split.
Qed.

(** X12: redeclaring a field.  [$setField] on an existing field, with no
    [type] option or with the field's own type, builds a new field from the
    existing field's options overridden by the given ones (an option given
    wins, an option not given is kept), and the new descriptor replaces the
    old one under the same name; other names are not affected. *)
Theorem setField_redeclares_with_merged_options (name : string)
    (options : list (string * val)) (this : Model) (f : Field) :
  descOf this name = Some (DField f) →
  redeclares options f = false →
  let s1 := materialize name this in
  ∃ existing,
    resolve s1 name = Some existing ∧ p_desc existing = DField f ∧
    let merged := spread (getOptions existing) options in
    (NoDup (map fst options) →
     ∀ k, assoc_get k merged
          = match assoc_get k options with
            | Some v => Some v
            | None => assoc_get k (getOptions existing)
            end) ∧
    match Field_new s1 name merged with
    | Ok desc =>
        ∃ this',
          setField name options this = (Ok (MkProperty (m_id this) desc), this') ∧
          descOf this' name = Some desc ∧
          (∀ n, n ≠ name → descOf this' n = descOf this n) ∧
          same_frame this this'
    | Throw e =>
        setField name options this = (Throw e, s1) ∧
        descOf s1 name = Some (DField f)
    end.
Proof.
  intros Hd Hok s1.
  unfold descOf in Hd. destruct (resolve this name) as [p|] eqn:Hr; [|done].
  cbn in Hd. injection Hd as Hp.
  destruct (own_or_fork_resolves name this p Hr) as [Hres Hhas]. fold s1 in Hres, Hhas.
  set (existing := if assoc_has name (own_table this) then p else Property_fork p this)
    in *.
  assert (p_desc existing = DField f) as Hdesc.
  { unfold existing. by destruct (assoc_has _ _). }
  assert (materialize name s1 = s1) as Hidem by apply materialize_idem.
  exists existing. split; [exact Hres|]. split; [exact Hdesc|]. cbv zeta.
  split; [intros Hnd k; by apply spread_get|].
  pose proof (setField_run name options this) as Hrun. cbv zeta in Hrun.
  rewrite Hr, Hp, Hok in Hrun. fold s1 in Hrun.
  pose proof (setProperty_run getOptions Field_new name options s1) as Hset.
  cbv zeta in Hset. rewrite Hres, Hhas, Hidem in Hset. rewrite Hset in Hrun. clear Hset.
  destruct (Field_new s1 name (spread (getOptions existing) options)) as [desc|e].
  2:{ split; [exact Hrun|]. unfold descOf. rewrite Hres. cbn. by rewrite Hdesc. }
  eexists. split; [rewrite Hrun; unfold s1; by rewrite m_id_materialize|].
  split; [|split].
  - unfold descOf. erewrite resolve_own; [|apply assoc_get_set_eq]. done.
  - intros n Hne. unfold descOf at 1. rewrite resolve_via_own_table.
    rewrite own_table_with_own, m_inherited_with_own.
    rewrite assoc_get_set_ne by done.
    rewrite <- resolve_via_own_table. apply descOf_materialize.
  - eapply same_frame_trans; [apply materialize_frame|]. by repeat split.
Qed.

(** X13: a method is not a field.  On a name declared as a method,
    [$getField] throws "not a field" whatever [throwIfNotFound] is, and so
    do [$hasField], [$setField] and the field accessor; the method's
    descriptor stays in place. *)
Theorem field_lookups_reject_methods (name : string) (options : list (string * val))
    (this : Model) :
  descOf this name = Some DMethod →
  let s1 := materialize name this in
  (∀ t, getField name t this = (Throw NotAField, s1)) ∧
  hasField name this = (Throw NotAField, s1) ∧
  setField name options this = (Throw NotAField, s1) ∧
  accessor_get name this = (Throw NotAField, s1) ∧
  descOf s1 name = Some DMethod ∧
  (∀ n, descOf s1 n = descOf this n).
Proof.
  intros Hd s1.
  unfold descOf in Hd. destruct (resolve this name) as [p|] eqn:Hr; [|done].
  cbn in Hd. injection Hd as Hp.
  assert (isField p = false) as Hf by (unfold isField; by rewrite Hp).
  assert (∀ t, getField name t this = (Throw NotAField, s1)) as Hget.
  { intros t. by rewrite getField_run, Hr, Hf. }
  split; [exact Hget|]. split; [|split; [|split; [|split]]].
  - by rewrite hasField_run, Hr, Hf.
  - pose proof (setField_run name options this) as Hrun. cbv zeta in Hrun.
    by rewrite Hr, Hp in Hrun.
  - unfold accessor_get. by rewrite (bind_throw _ _ _ _ _ (Hget true)).
  - unfold s1. rewrite descOf_materialize. unfold descOf. rewrite Hr. cbn. by rewrite Hp.
  - intros n. apply descOf_materialize.
Qed.

End Declaring.

Lemma setField_declares_a_new_field_witness :
  ∃ this',
    Model.setField sampleFieldNew sampleGetOptions "rating" [("type", VString "number")] movie
    = (Ok (MkProperty 2 (DField (MkField "number" "number" false VUndefined false VUndefined))),
       this') ∧
    own_table this'
    = [("rating",
        MkProperty 2 (DField (MkField "number" "number" false VUndefined false VUndefined)))] ∧
    descOf this' "title" = descOf movie "title".
Proof.
  pose proof (setField_declares_a_new_field sampleFieldNew sampleGetOptions "rating"
                [("type", VString "number")] movie eq_refl) as H.
  cbv zeta in H.
  change (sampleFieldNew (with_own (own_table movie) movie) "rating"
            [("type", VString "number")])
    with (@Ok (descriptor val)
            (DField (MkField "number" "number" false VUndefined false VUndefined))) in H.
  cbv beta iota in H.
  destruct H as (this' & Hrun & Hown & _ & _ & Hother & _).
  exists this'. split; [exact Hrun|]. split; [exact Hown|].
  apply Hother. discriminate.
Defined.

Lemma setField_redeclares_with_merged_options_witness :
  ∃ existing this',
    p_desc existing = DField titleField ∧
    assoc_get "type" (spread (sampleGetOptions existing) [("default", VString "?")])
    = Some (VString "string") ∧
    Model.setField sampleFieldNew sampleGetOptions "title" [("default", VString "?")] movie
    = (Ok (MkProperty 2 (DField (MkField "string" "string" false VUndefined false VUndefined))),
       this').
Proof.
  destruct (setField_redeclares_with_merged_options sampleFieldNew sampleGetOptions "title"
              [("default", VString "?")] movie titleField eq_refl eq_refl)
    as (existing & Hres & Hdesc & Hmerge & Hrun).
  assert (sampleGetOptions existing = [("type", VString "string")]) as Hopts.
  { unfold sampleGetOptions. rewrite Hdesc. reflexivity. }
  rewrite Hopts in Hmerge, Hrun.
  change (sampleFieldNew (materialize "title" movie) "title"
            (spread [("type", VString "string")] [("default", VString "?")]))
    with (@Ok (descriptor val)
            (DField (MkField "string" "string" false VUndefined false VUndefined))) in Hrun.
  cbv beta iota in Hrun. destruct Hrun as (this' & Hrun & _).
  exists existing, this'. split; [exact Hdesc|]. split; [|exact Hrun].
  rewrite Hopts. reflexivity.
Defined.

Lemma field_lookups_reject_methods_witness :
  getField "load" false movie = (Throw NotAField, materialize "load" movie) ∧
  hasField "load" movie = (Throw NotAField, materialize "load" movie).
Proof.
  destruct (field_lookups_reject_methods sampleFieldNew sampleGetOptions "load" [] movie
              eq_refl) as (Hget & Hhas & _).
  split; [exact (Hget false)|exact Hhas].
Defined.

(** ** Methods *)

Lemma getMethod_run name t (this : Model) :
  getMethod name t this =
  (match resolve this name with
   | None => if t then Fails MethodNotFound else Returns None
   | Some p =>
       if isMethod p
       then Returns (Some (if assoc_has name (own_table this) then p
                           else Property_fork p this))
       else Fails NotAMethod
   end,
   materialize name this).
Proof.
  unfold getMethod. rewrite getProperty_run.
  destruct (resolve this name) as [p|]; [|by destruct t].
  assert (isMethod (if assoc_has name (own_table this) then p else Property_fork p this)
          = isMethod p) as -> by (by destruct (assoc_has _ _)).
  by destruct (isMethod p).
Qed.

Section DeclaringMethods.
Variable getOptions : Property → list (string * val).
Variable Method_new : Model → string → list (string * val) → result (descriptor val).

Abbreviation setMethod := (setMethod getOptions Method_new).

Lemma setMethod_run name options (this : Model) :
  let s1 := materialize name this in
  setMethod name options this =
  match resolve this name with
  | None => lift (setProperty getOptions Method_new name options) s1
  | Some p =>
      if isMethod p then lift (setProperty getOptions Method_new name options) s1
      else (Fails NotAMethod, s1)
  end.
Proof.
  intros s1. unfold Model.setMethod. rewrite hasProperty_run. fold s1.
  destruct (resolve this name) as [p|] eqn:Hr.
  - rewrite bool_decide_eq_true_2 by eauto. rewrite getMethod_run.
    destruct (own_or_fork_resolves name this p Hr) as [Hres _]. fold s1 in Hres.
    rewrite Hres.
    assert (materialize name s1 = s1) as -> by apply materialize_idem.
    assert (isMethod (if assoc_has name (own_table this) then p else Property_fork p this)
            = isMethod p) as -> by (by destruct (assoc_has _ _)).
    by destruct (isMethod p).
  - by rewrite bool_decide_eq_false_2 by (by intros [? ?]).
Qed.

(** X14: methods.  On a name declared as a field, [$getMethod] throws "not a
    method" whatever [throwIfNotFound] is, and so do [$hasMethod] and
    [$setMethod], which leaves the field's descriptor in place.  On a name
    that is not yet a property, [$setMethod] hands the options to the method
    constructor; when that returns a method, the new property is bound to
    the model, is what [$getMethod] returns and [$hasMethod] reports from
    then on, and no other name is affected. *)
Theorem method_lookups_and_declaration (name : string) (options : list (string * val))
    (this : Model) :
  (∀ f, descOf this name = Some (DField f) →
     let s1 := materialize name this in
     (∀ t, getMethod name t this = (Fails NotAMethod, s1)) ∧
     hasMethod name this = (Fails NotAMethod, s1) ∧
     setMethod name options this = (Fails NotAMethod, s1) ∧
     (∀ n, descOf s1 n = descOf this n)) ∧
  (resolve this name = None →
   Method_new (with_own (own_table this) this) name options = Ok DMethod →
   let property := MkProperty (m_id this) DMethod in
   ∃ this',
     setMethod name options this = (Returns property, this') ∧
     (∀ t, getMethod name t this' = (Returns (Some property), this')) ∧
     hasMethod name this' = (Returns true, this') ∧
     descOf this' name = Some DMethod ∧
     (∀ n, n ≠ name → descOf this' n = descOf this n) ∧
     same_frame this this').
Proof.
  split.
  - intros f Hd s1.
    unfold descOf in Hd. destruct (resolve this name) as [p|] eqn:Hr; [|done].
    cbn in Hd. injection Hd as Hp.
    assert (isMethod p = false) as Hm by (unfold isMethod; by rewrite Hp).
    assert (∀ t, getMethod name t this = (Fails NotAMethod, s1)) as Hget.
    { intros t. by rewrite getMethod_run, Hr, Hm. }
    split; [exact Hget|]. split; [|split].
    + unfold hasMethod. by rewrite (Hget false).
    + pose proof (setMethod_run name options this) as Hrun. cbv zeta in Hrun.
      by rewrite Hr, Hm in Hrun.
    + intros n. apply descOf_materialize.
  - intros Hr Hnew property.
    set (s1 := with_own (own_table this) this) in *.
    assert (materialize name this = s1) as Hs1 by (by apply materialize_missing).
    assert (resolve s1 name = None) as Hr1
      by (unfold s1; by rewrite resolve_with_own_table).
    assert (materialize name s1 = s1) as Hs1' by (rewrite <- Hs1; apply materialize_idem).
    pose proof (setMethod_run name options this) as Hrun. cbv zeta in Hrun.
    rewrite Hr, Hs1 in Hrun. unfold lift in Hrun.
    pose proof (setProperty_run getOptions Method_new name options s1) as Hset.
    cbv zeta in Hset. rewrite Hr1, Hs1', Hnew in Hset. rewrite Hset in Hrun. clear Hset.
    assert (own_table s1 = own_table this) as Hot by apply own_table_with_own.
    rewrite Hot in Hrun. change (m_id s1) with (m_id this) in Hrun.
    fold property in Hrun.
    set (this' := with_own (assoc_set name property (own_table this)) s1) in *.
    assert (assoc_get name (own_table this') = Some property) as Hown
      by apply assoc_get_set_eq.
    assert (∀ t, getMethod name t this' = (Returns (Some property), this')) as Hget.
    { intros t. rewrite getMethod_run, (resolve_own _ _ _ Hown).
      rewrite (proj2 (assoc_has_true _ _)) by eauto.
      by rewrite (materialize_own_id _ _ _ Hown). }
    exists this'. split; [exact Hrun|]. split; [exact Hget|]. split; [|split; [|split]].
    + unfold hasMethod. rewrite (Hget false). by rewrite bool_decide_eq_true_2 by eauto.
    + unfold descOf. by rewrite (resolve_own _ _ _ Hown).
    + intros n Hne. unfold descOf. rewrite !resolve_via_own_table.
      unfold this'. rewrite own_table_with_own, m_inherited_with_own.
      by rewrite assoc_get_set_ne.
    + by repeat split.
Qed.

End DeclaringMethods.

(** A method constructor that makes a method whatever the options. *)
Lemma method_lookups_and_declaration_witness :
  getMethod "title" false movie = (Fails NotAMethod, materialize "title" movie) ∧
  ∃ this',
    Model.setMethod sampleGetOptions (λ _ _ _, Ok DMethod) "save" [] movie
    = (Returns (MkProperty 2 DMethod), this') ∧
    hasMethod "save" this' = (Returns true, this').
Proof.
  destruct (method_lookups_and_declaration sampleGetOptions (λ _ _ _, Ok DMethod)
              "save" [] movie) as [_ Hnew].
  destruct (method_lookups_and_declaration sampleGetOptions (λ _ _ _, Ok DMethod)
              "title" [] movie) as [Hfield _].
  split.
  - destruct (Hfield titleField eq_refl) as (Hget & _). exact (Hget false).
  - destruct (Hnew eq_refl eq_refl) as (this' & Hrun & _ & Hhas & _).
    exists this'. split; [exact Hrun|exact Hhas].
Defined.

(** ** The field accessors *)

(** X15: the field accessor.  On a declared field, the setter followed by the
    getter gives the value back; the write lands in the model's own
    [__properties] (the field is forked first if it was inherited), no other
    field changes, and the inherited [__properties] objects, with the value
    they hold for the field, are as before.  On a name that is no property
    both accessors throw "field not found". *)
Theorem field_accessor_round_trip (name : string) (value : val) (this : Model) :
  (∀ f, descOf this name = Some (DField f) →
     accessor_get name this = (Ok (f_value f), materialize name this) ∧
     ∃ s1,
       accessor_set name value this = (Ok tt, s1) ∧
       accessor_get name s1 = (Ok value, s1) ∧
       descOf s1 name = Some (DField (Field_setValue value f)) ∧
       (∀ n, n ≠ name → descOf s1 n = descOf this n) ∧
       m_inherited s1 = m_inherited this ∧
       lookup_chain name (m_inherited s1) = lookup_chain name (m_inherited this)) ∧
  (resolve this name = None →
   (accessor_get name this).1 = Throw FieldNotFound ∧
   (accessor_set name value this).1 = Throw FieldNotFound).
Proof.
  split.
  - intros f Hd.
    unfold descOf in Hd. destruct (resolve this name) as [p|] eqn:Hr; [|done].
    cbn in Hd. injection Hd as Hp.
    destruct (materialize_owns name this p Hr) as (p' & Hown & Hdesc & Hp').
    assert (getField name true this = (Ok (Some p'), materialize name this)) as Hget.
    { rewrite getField_run, Hr. unfold isField. by rewrite Hp, Hp'. }
    split.
    { unfold accessor_get. rewrite (bind_run _ _ _ _ _ Hget).
      cbn [fmap option_fmap option_map]. by rewrite Hdesc, Hp. }
    set (s0 := materialize name this) in *.
    set (s1 := (mutateField name (Field_setValue value) s0).2).
    assert (descOf s1 name = Some (DField (Field_setValue value f))) as Hd1.
    { unfold s1. eapply descOf_mutate_eq; [exact Hown|]. by rewrite Hdesc. }
    exists s1. split; [|split; [|split; [|split; [|split]]]].
    + unfold accessor_set. by rewrite (bind_run _ _ _ _ _ Hget).
    + unfold descOf in Hd1. destruct (resolve s1 name) as [q|] eqn:Hq; [|done].
      cbn in Hd1. injection Hd1 as Hq'.
      assert (assoc_get name (own_table s1) = Some q) as Hown1.
      { rewrite resolve_via_own_table in Hq. unfold s1 in *.
        rewrite own_table_mutate, assoc_get_alter_eq, Hown in *. cbn in *. done. }
      assert (getField name true s1 = (Ok (Some q), s1)) as Hget1.
      { rewrite getField_run, (resolve_own _ _ _ Hown1).
        rewrite (proj2 (assoc_has_true _ _)) by eauto.
        rewrite (materialize_own_id _ _ _ Hown1).
        unfold isField. by rewrite Hq'. }
      unfold accessor_get. rewrite (bind_run _ _ _ _ _ Hget1).
      cbn [fmap option_fmap option_map]. by rewrite Hq'.
    + exact Hd1.
    + intros n Hne. unfold s1. rewrite descOf_mutate_ne by done. apply descOf_materialize.
    + pose proof (materialize_frame name this) as (_ & Hinh & _). exact Hinh.
    + pose proof (materialize_frame name this) as (_ & Hinh & _).
      change (m_inherited s1) with (m_inherited s0). unfold s0. by rewrite Hinh.
  - intros Hr.
    assert (getField name true this = (Throw FieldNotFound, materialize name this)) as Hget
      by (by rewrite getField_run, Hr).
    unfold accessor_get, accessor_set. by rewrite !(bind_throw _ _ _ _ _ Hget).
Qed.

Lemma field_accessor_round_trip_witness :
  ∃ s1,
    accessor_set "title" (VString "Inception") movie = (Ok tt, s1) ∧
    accessor_get "title" s1 = (Ok (VString "Inception"), s1) ∧
    m_inherited s1 = [Movie_properties].
Proof.
  destruct (field_accessor_round_trip "title" (VString "Inception") movie) as [H _].
  destruct (H titleField eq_refl) as (_ & s1 & Hset & Hget & _ & _ & Hinh & _).
  exists s1. split; [exact Hset|]. split; [exact Hget|exact Hinh].
Defined.

(** ** Field names and method names *)

(** A loop over the properties whose body appends the name at each property
    the filter lets through. *)
Lemma forProperties_collect filt (fd : descriptor val → bool)
    (b : string → Property → list string → M (list string)) names s acc :
  (∀ p, filt p = fd (p_desc p)) →
  (∀ name p acc s, filt p = true → b name p acc s = (Ok (acc ++ [name]), s)) →
  (∀ n, n ∈ names → is_Some (resolve s n)) →
  ∃ s', forProperties names filt b acc s
        = (Ok (acc ++ List.filter
                        (λ n, match descOf s n with Some d => fd d | None => false end)
                        names), s') ∧
        (∀ n, descOf s' n = descOf s n) ∧ same_frame s s'.
Proof.
  intros Hfilt Hb. revert s acc.
  induction names as [|n ns IH]; intros s acc Hres.
  { exists s. cbn. rewrite app_nil_r. split; [done|]. split; [done|apply same_frame_refl]. }
  rewrite forProperties_cons.
  destruct (Hres n) as [p Hp]; [by left|]. rewrite Hp. cbv zeta.
  set (p' := if assoc_has n (own_table s) then p else Property_fork p s).
  assert (p_desc p' = p_desc p) as Hdesc by (unfold p'; by destruct (assoc_has _ _)).
  assert (descOf s n = Some (p_desc p)) as Hd by (unfold descOf; by rewrite Hp).
  assert (∀ n', n' ∈ ns → is_Some (resolve (materialize n s) n')) as Hres'.
  { intros n' Hn'. rewrite is_Some_resolve_desc, descOf_materialize,
      <- is_Some_resolve_desc. apply Hres. by right. }
  assert (∀ acc',
    acc' ++ List.filter
              (λ n0, match descOf (materialize n s) n0 with
                     | Some d => fd d | None => false end) ns
    = acc' ++ List.filter
                (λ n0, match descOf s n0 with Some d => fd d | None => false end) ns)
    as Hext.
  { intros acc'. f_equal. apply List.filter_ext. intros a. by rewrite descOf_materialize. }
  cbn [List.filter]. rewrite Hd.
  destruct (filt p') eqn:Hf.
  - rewrite (Hb _ _ _ _ Hf). rewrite Hfilt, Hdesc in Hf. rewrite Hf.
    destruct (IH (materialize n s) (acc ++ [n]) Hres') as (s' & Hrun & Hds & Hfr).
    exists s'. rewrite Hrun, Hext, <- app_assoc. split; [done|]. split.
    + intros n0. by rewrite Hds, descOf_materialize.
    + eapply same_frame_trans; [apply materialize_frame|exact Hfr].
  - rewrite Hfilt, Hdesc in Hf. rewrite Hf.
    destruct (IH (materialize n s) acc Hres') as (s' & Hrun & Hds & Hfr).
    exists s'. rewrite Hrun, Hext. split; [done|]. split.
    + intros n0. by rewrite Hds, descOf_materialize.
    + eapply same_frame_trans; [apply materialize_frame|exact Hfr].
Qed.

(** X16: field and method names.  [$getFieldNames] yields the names of
    [$getPropertyNames] that resolve to a field and [$getMethodNames] those
    that resolve to a method, both in the order of the [for ... in] walk and
    each name once; every property name is in exactly one of the two lists.
    Neither call changes what any name resolves to. *)
Theorem field_and_method_names_partition (this : Model) :
  ∃ s1 s2,
    getFieldNames this
    = (Ok (List.filter (isFieldName this) (getPropertyNames this)), s1) ∧
    getMethodNames this
    = (Ok (List.filter (isMethodName this) (getPropertyNames this)), s2) ∧
    (∀ n, descOf s1 n = descOf this n) ∧ (∀ n, descOf s2 n = descOf this n) ∧
    NoDup (List.filter (isFieldName this) (getPropertyNames this)) ∧
    NoDup (List.filter (isMethodName this) (getPropertyNames this)) ∧
    (∀ n, is_Some (resolve this n) ↔
          n ∈ List.filter (isFieldName this) (getPropertyNames this) ∨
          n ∈ List.filter (isMethodName this) (getPropertyNames this)) ∧
    (∀ n, ¬ (n ∈ List.filter (isFieldName this) (getPropertyNames this) ∧
             n ∈ List.filter (isMethodName this) (getPropertyNames this))).
Proof.
  assert (∀ n, n ∈ getPropertyNames this → is_Some (resolve this n)) as Hres
    by (intros n; by rewrite elem_of_getPropertyNames).
  destruct (forProperties_collect (fieldsFilter None)
              (λ d, match d with DField _ => true | DMethod => false end)
              (λ name p acc,
                 match p_desc p with
                 | DField f => ret (acc ++ [name])
                 | DMethod => ret acc
                 end)
              (getPropertyNames this) this [])
    as (s1 & Hrun1 & Hd1 & _); [done| |done|].
  { intros name p acc s. unfold fieldsFilter. by destruct (p_desc p). }
  destruct (forProperties_collect (methodsFilter None)
              (λ d, match d with DField _ => false | DMethod => true end)
              (λ name _ acc, ret (acc ++ [name]))
              (getPropertyNames this) this [])
    as (s2 & Hrun2 & Hd2 & _); [|done|done|].
  { intros p. unfold methodsFilter, isMethod. by destruct (p_desc p). }
  assert (∀ P : string → bool, NoDup (List.filter P (getPropertyNames this))) as Hnd.
  { intros P. apply NoDup_ListNoDup, List.NoDup_filter, NoDup_ListNoDup,
      NoDup_getPropertyNames. }
  assert (∀ (P : string → bool) n,
            n ∈ List.filter P (getPropertyNames this)
            ↔ is_Some (resolve this n) ∧ P n = true) as Hin.
  { intros P n. rewrite <- elem_of_getPropertyNames, !list_elem_of_In.
    apply List.filter_In. }
  exists s1, s2. split; [|split; [|split; [|split; [|split; [|split; [|split]]]]]].
  - unfold getFieldNames, forFields, bind, gets. rewrite Hrun1. cbn [app].
    rewrite (List.filter_ext _ (isFieldName this)); [done|].
    intros n. unfold isFieldName. by destruct (descOf this n) as [[|]|].
  - unfold getMethodNames, bind, gets. rewrite Hrun2. cbn [app].
    rewrite (List.filter_ext _ (isMethodName this)); [done|].
    intros n. unfold isMethodName. by destruct (descOf this n) as [[|]|].
  - exact Hd1.
  - exact Hd2.
  - apply Hnd.
  - apply Hnd.
  - intros n. rewrite !Hin. unfold isFieldName, isMethodName.
    rewrite is_Some_resolve_desc. destruct (descOf this n) as [[f|]|].
    + split; [intros _; left; eauto|eauto].
    + split; [intros _; right; eauto|eauto].
    + split; [by intros [? ?]|by intros [[[? ?] _]|[[? ?] _]]].
  - intros n. rewrite !Hin. unfold isFieldName, isMethodName.
    destruct (descOf this n) as [[f|]|]; by intros [[_ ?] [_ ?]].
Qed.

(** Array indices come first, in ascending order. *)
Lemma field_and_method_names_partition_witness :
  ∃ s1 s2,
    getFieldNames numbered = (Ok ["2"; "10"; "b"], s1) ∧
    getMethodNames numbered = (Ok ["load"], s2).
Proof.
  destruct (field_and_method_names_partition numbered) as (s1 & s2 & H1 & H2 & _).
  exists s1, s2. split; [exact H1|exact H2].
Defined.

(** ** The keys of a field mask *)

Lemma assoc_all_None {A : Type} (l : list (string * A)) :
  (∀ name, assoc_get name l = None) → l = [].
Proof.
  destruct l as [|[k a] l]; [done|]. intros H. specialize (H k).
  cbn in H. by rewrite decide_True in H.
Qed.

Section MaskKeys.
Variable schema : gmap string Model.

Lemma nestedMask_truthy recur f fm stack nested st :
  nestedMask schema recur f fm stack = Ok (nested, st) →
  mask_truthy (Some nested) = true.
Proof.
  unfold nestedMask. destruct (schema !! f_scalarType f).
  - destruct (recur fm stack m).1 as [[? ?]|]; [|done]. by intros [= <- <-].
  - by intros [= <- <-].
Qed.

(** The top level of the mask [$createFieldMask] returns. *)
Lemma mask_top_level filter incl (fields : option fmask) (this : Model) :
  ∃ mask this',
    createFieldMask schema fields filter incl this = (Ok mask, this') ∧
    same_frame this this' ∧
    (∀ n, descOf this' n = descOf this n) ∧
    ∀ name,
      (is_Some (assoc_get name mask) ↔
       ∃ f, descOf this name = Some (DField f) ∧ passes filter f = true ∧
            mask_truthy (selected (default (FBool true) fields) name) = true) ∧
      mask_truthy (Some (FieldMask_get mask name))
      = bool_decide (is_Some (assoc_get name mask)).
Proof.
  destruct (createFieldMask_ok schema filter incl fields this)
    as (mask & this' & Hrun & Hrun' & Hfr & Hd).
  destruct (createMask_spec schema filter incl (S (size schema)) this
              (default (FBool true) fields) ∅)
    as (m & this'' & Hrun2 & _ & _ & Hentry).
  { rewrite difference_empty_L, size_dom. lia. }
  rewrite Hrun' in Hrun2. injection Hrun2 as <- <-.
  exists mask, this'. split; [done|]. split; [done|]. split; [done|].
  intros name. specialize (Hentry name). unfold maskEntrySpec in Hentry.
  unfold FieldMask_get.
  destruct (descOf this name) as [[f|]|].
  - rewrite (bool_decide_eq_false_2 (f_scalarType f ∈ (∅ : gset string))) in Hentry
      by set_solver.
    cbn [negb] in Hentry. rewrite andb_true_r in Hentry.
    destruct (passes filter f) eqn:Hp; cbn [andb] in Hentry.
    + destruct (mask_truthy (selected (default (FBool true) fields) name)) eqn:Hsel.
      * destruct Hentry as (nested & -> & Hnested).
        rewrite (nestedMask_truthy _ _ _ _ _ _ Hnested).
        rewrite bool_decide_eq_true_2 by eauto. split; [|done].
        split; [intros _; by exists f|eauto].
      * rewrite Hentry. split; [|done].
        split; [by intros [? ?]|]. intros (f' & [= <-] & _ & ?). congruence.
    + rewrite Hentry. split; [|done].
      split; [by intros [? ?]|]. intros (f' & [= <-] & ? & _). congruence.
  - rewrite Hentry. split; [|done]. split; [by intros [? ?]|by intros (? & ? & _)].
  - rewrite Hentry. split; [|done]. split; [by intros [? ?]|by intros (? & ? & _)].
Qed.


End MaskKeys.


(** ** Validation *)

Lemma assoc_set_not_nil {A : Type} k (a : A) l : assoc_set k a l ≠ [].
Proof. destruct l as [|[k' a'] l]; cbn; [done|]. by destruct (decide (k = k')). Qed.

Section Validation.
Variable Field_getFailedValidators : Field → fmask → val.
Variable isEmpty : val → bool.
Variable schema : gmap string Model.

Abbreviation getFailedValidators :=
  (getFailedValidators Field_getFailedValidators isEmpty schema).
Abbreviation failedEntry := (failedEntry Field_getFailedValidators isEmpty).

(** The loop of [$getFailedValidators], for a given root mask. *)
Lemma failedValidators_loop root (this : Model) :
  ∃ result this',
    forFields (activeFilter None)
      (λ name field result,
         let fieldMask := FieldMask_get root name in
         if negb (mask_truthy (Some fieldMask)) then ret result
         else
           let failedValidators := Field_getFailedValidators field fieldMask in
           if negb (isEmpty failedValidators)
           then ret (Some (assoc_set name failedValidators (default [] result)))
           else ret result)
      None this = (Ok result, this') ∧
    same_frame this this' ∧
    (∀ n, descOf this' n = descOf this n) ∧
    result ≠ Some [] ∧
    ∀ name,
      assoc_get name (default [] result)
      = match descOf this name with
        | Some (DField f) => if f_active f then failedEntry root name f else None
        | _ => None
        end.
Proof.
  set (au := λ (n : string) (f : Field) (acc : option (list (string * val))),
               @Ok (option (list (string * val)))
                 (match failedEntry root n f with
                  | Some x => Some (assoc_set n x (default [] acc))
                  | None => acc
                  end)).
  edestruct (forFields_spec (S := option (list (string * val))) (activeFilter None)
               (λ name field result,
                  let fieldMask := FieldMask_get root name in
                  if negb (mask_truthy (Some fieldMask)) then ret result
                  else
                    let failedValidators := Field_getFailedValidators field fieldMask in
                    if negb (isEmpty failedValidators)
                    then ret (Some (assoc_set name failedValidators (default [] result)))
                    else ret result)
               (λ _ f, f) au) with (this := this) (acc := @None (list (string * val)))
    as [Hacc Hst].
  { intros name f acc s p Hp Hd _. unfold au, Model.failedEntry. cbv zeta.
    assert (setFieldData name f s = s) as -> by (by eapply setFieldData_id).
    destruct (negb (mask_truthy _)); [done|].
    by destruct (negb (isEmpty _)). }
  destruct (loopAcc_keyed (A := val) (default []) (activeFilter None) au
              (failedEntry root) (descOf this) (getPropertyNames this) None
              (NoDup_getPropertyNames this) eq_refl) as (out & Hloop & Hout).
  { intros n f a. eexists. split; [done|]. by destruct (failedEntry root n f). }
  destruct (loopAcc_inv (λ a : option (list (string * val)), a ≠ Some [])
              (activeFilter None) au (descOf this) (getPropertyNames this) None)
    as (out' & Hloop' & Hne); [|done|].
  { intros n f a _ _ _ Ha. eexists. split; [done|].
    destruct (failedEntry root n f); [|done].
    intros [= H]. by apply assoc_set_not_nil in H. }
  rewrite Hloop in Hloop'. injection Hloop' as <-.
  rewrite Hloop in Hacc.
  destruct (forFields _ _ _ this) as [r this'] eqn:Hrun. cbn [fst snd] in *. subst r.
  destruct (Hst _ eq_refl) as [Hfr Hd].
  exists out, this'. split; [done|]. split; [done|]. split; [|split; [done|]].
  - intros n. by rewrite Hd, updDesc_id.
  - intros name. rewrite (Hout name).
    destruct (decide (name ∈ getPropertyNames this)) as [Hn|Hn].
    + destruct (descOf this name) as [[f|]|]; [|done..]. by rewrite passes_active.
    + rewrite elem_of_getPropertyNames, is_Some_resolve_desc in Hn.
      destruct (descOf this name); [|done]. exfalso. eauto.
Qed.

(** X18: validation.  [$getFailedValidators] returns for every model; its
    result maps a name to that field's failed validators exactly when the
    name is an active field which the root mask selects and whose own
    [getFailedValidators] is not empty, and it is [undefined] (never an empty
    object) exactly when there is no such field.  [$isValid] returns true
    exactly in that case, and [$validate] returns in that case and throws an
    error carrying the same mapping otherwise. *)
Theorem validation_reports_failed_fields (fields : option fmask) (this : Model) :
  ∃ root this1 result this',
    createFieldMask schema fields None false this = (Ok root, this1) ∧
    getFailedValidators fields this = (Ok result, this') ∧
    (∀ n, descOf this' n = descOf this n) ∧
    (∀ name,
       assoc_get name (default [] result)
       = match descOf this name with
         | Some (DField f) => if f_active f then failedEntry root name f else None
         | _ => None
         end) ∧
    (result = None ↔
       ∀ name f, descOf this name = Some (DField f) → f_active f = true →
                 failedEntry root name f = None) ∧
    isValid Field_getFailedValidators isEmpty schema fields this
    = (Ok (bool_decide (result = None)), this') ∧
    validate Field_getFailedValidators isEmpty schema fields this
    = (match result with
       | None => Returns tt
       | Some failedValidators => Fails (ValidationFailed failedValidators)
       end, this').
Proof.
  destruct (createFieldMask_ok schema None false fields this)
    as (root & this1 & Hroot & _ & _ & Hd1).
  destruct (failedValidators_loop root this1) as (result & this' & Hloop & _ & Hd & Hne & Hres).
  assert (getFailedValidators fields this = (Ok result, this')) as Hrun.
  { unfold Model.getFailedValidators. by rewrite (bind_run _ _ _ _ _ Hroot). }
  exists root, this1, result, this'.
  split; [done|]. split; [done|]. split; [|split; [|split; [|split]]].
  - intros n. by rewrite Hd, Hd1.
  - intros name. by rewrite Hres, Hd1.
  - split.
    + intros -> name f Hf Hact. specialize (Hres name).
      rewrite Hd1, Hf, Hact in Hres. by rewrite <- Hres.
    + intros Hall. destruct result as [l|]; [|done]. exfalso. apply Hne. f_equal.
      apply assoc_all_None. intros name. specialize (Hres name).
      change (default [] (Some l)) with l in Hres.
      rewrite Hres, Hd1. destruct (descOf this name) as [[f|]|] eqn:Hf; [|done..].
      destruct (f_active f) eqn:Hact; [|done]. by eapply Hall.
  - unfold isValid. rewrite (bind_run _ _ _ _ _ Hrun). unfold ret. do 2 f_equal.
    by destruct result.
  - unfold validate. rewrite Hrun. by destruct result.
Qed.

End Validation.

(** ** Loops that append to a list *)

(** What a field contributes to a loop that appends [g name field]. *)
Lemma loopAcc_collect {A : Type} filter (g : string → Field → list A)
    (d : string → option (descriptor val)) names (acc : list A) :
  loopAcc filter (λ n f acc, Ok (acc ++ g n f)) d names acc
  = Ok (acc ++ concat (map (λ n, match d n with
                                 | Some (DField f) => if passes filter f then g n f else []
                                 | _ => []
                                 end) names)).
Proof.
  revert acc. induction names as [|n ns IH]; intros acc; cbn [loopAcc map concat].
  { by rewrite app_nil_r. }
  destruct (d n) as [[f|]|]; [|by rewrite IH..].
  destruct (passes filter f); rewrite IH; [|done]. by rewrite <- app_assoc.
Qed.

Lemma elem_of_concat_map {A B : Type} (h : B → list A) (l : list B) (x : A) :
  x ∈ concat (map h l) ↔ ∃ b, b ∈ l ∧ x ∈ h b.
Proof.
  induction l as [|b l IH]; cbn [map concat].
  - split; [by intros ?%elem_of_nil|by intros (? & ?%elem_of_nil & _)].
  - rewrite elem_of_app, IH. split.
    + intros [Hx|(b' & Hb' & Hx)]; [exists b; split; [by left|done]|].
      exists b'. split; [by right|done].
    + intros (b' & Hb' & Hx). apply elem_of_cons in Hb' as [->|Hb']; [by left|].
      right. by exists b'.
Qed.

(** A list collected with at most one entry per name, over names without
    repetition. *)
Lemma collect_keyed {A : Type} (e : string → option A) names :
  NoDup names →
  let l := concat (map (λ n, match e n with Some a => [(n, a)] | None => [] end) names) in
  NoDup (map fst l) ∧
  ∀ name, assoc_get name l = if decide (name ∈ names) then e name else None.
Proof.
  intros Hnd. cbv zeta. induction Hnd as [|n ns Hn Hnd [IHnd IHget]].
  { split; [constructor|]. intros name. by rewrite decide_False by apply not_elem_of_nil. }
  cbn [map concat]. split.
  - destruct (e n) as [a|]; [|done]. cbn [app map fst]. constructor; [|done].
    rewrite list_elem_of_fmap. intros ([k x] & Hk & Hin). cbn in Hk. subst k.
    apply elem_of_concat_map in Hin as (b & Hb & Hin).
    destruct (e b); [|by apply elem_of_nil in Hin].
    apply list_elem_of_singleton in Hin. injection Hin as -> _. done.
  - intros name. destruct (decide (name = n)) as [->|Hne].
    + rewrite decide_True by (by left).
      destruct (e n) as [a|]; cbn [app assoc_get].
      * by rewrite decide_True.
      * rewrite IHget. by rewrite decide_False.
    + assert (assoc_get name
                ((match e n with Some a => [(n, a)] | None => [] end) ++
                 concat (map (λ n0, match e n0 with Some a => [(n0, a)] | None => [] end) ns))
              = assoc_get name
                  (concat (map (λ n0, match e n0 with Some a => [(n0, a)] | None => [] end) ns)))
        as ->.
      { destruct (e n); cbn [app assoc_get]; [|done]. by rewrite decide_False. }
      rewrite IHget. destruct (decide (name ∈ ns)) as [Hin|Hin].
      * by rewrite decide_True by (by right).
      * rewrite decide_False; [done|]. intros [?|?]%elem_of_cons; done.
Qed.

(** ** [$assign] from another model *)

(** The active fields of another model, as [__assignOther] walks them. *)
Lemma activeFieldsOf_spec other (this : Model) :
  ∃ fs,
    activeFieldsOf other this = (Ok fs, this) ∧
    NoDup (map fst fs) ∧
    ∀ name,
      assoc_get name fs
      = match descOf other name with
        | Some (DField g) => if f_active g then Some (f_value g) else None
        | _ => None
        end.
Proof.
  unfold activeFieldsOf, onOther.
  edestruct (forFields_spec (S := list (string * val)) (activeFilter None)
               (λ name field acc, ret (acc ++ [(name, f_value field)]))
               (λ _ f, f) (λ name f acc, Ok (acc ++ [(name, f_value f)])))
    with (this := other) (acc := @nil (string * val)) as [Hacc _].
  { intros name f acc s p Hp Hd _. split; [done|].
    intros _ _. cbn. symmetry. by eapply setFieldData_id. }
  pose proof (loopAcc_collect (activeFilter None) (λ n f, [(n, f_value f)])
                (descOf other) (getPropertyNames other) []) as Hc.
  cbv beta in Hc. rewrite Hc in Hacc. clear Hc. cbn [app] in Hacc.
  set (e := λ n, match descOf other n with
                 | Some (DField g) => if f_active g then Some (f_value g) else None
                 | _ => None
                 end).
  destruct (collect_keyed e (getPropertyNames other) (NoDup_getPropertyNames other))
    as [Hnd Hget].
  assert (map (λ n, match descOf other n with
                    | Some (DField f) =>
                        if passes (activeFilter None) f then [(n, f_value f)] else []
                    | _ => []
                    end) (getPropertyNames other)
          = map (λ n, match e n with Some a => [(n, a)] | None => [] end)
                (getPropertyNames other)) as Hmap.
  { apply List.map_ext. intros n. unfold e.
    destruct (descOf other n) as [[f|]|]; [|done..].
    rewrite passes_active. by destruct (f_active f). }
  rewrite Hmap in Hacc. rewrite Hacc.
  eexists. split; [done|]. split; [exact Hnd|].
  intros name. rewrite Hget. unfold e.
  destruct (decide (name ∈ getPropertyNames other)) as [Hn|Hn]; [done|].
  rewrite elem_of_getPropertyNames, is_Some_resolve_desc in Hn.
  destruct (descOf other name); [|done]. exfalso. eauto.
Qed.

(** An assignment loop that meets a method throws. *)
Lemma assignEntries_method store entries s k :
  k ∈ map fst entries → descOf s k = Some DMethod →
  (assignEntries store entries s).1 = Throw NotAField.
Proof.
  revert s. induction entries as [|[name value] rest IH]; intros s Hk Hm.
  { by apply elem_of_nil in Hk. }
  rewrite assignEntries_cons. cbn [map fst] in Hk.
  destruct (resolve s name) as [p|] eqn:Hr.
  - destruct (isField p) eqn:Hf; [|done].
    assert (k ≠ name) as Hne.
    { intros ->. unfold descOf in Hm. rewrite Hr in Hm. cbn in Hm.
      unfold isField in Hf. injection Hm as Hm. by rewrite Hm in Hf. }
    apply IH; [set_solver|].
    by rewrite descOf_mutate_ne, !descOf_materialize.
  - assert (k ≠ name) as Hne.
    { intros ->. unfold descOf in Hm. by rewrite Hr in Hm. }
    apply IH; [set_solver|]. by rewrite descOf_materialize.
Qed.

(** X19: [$assign] given another model.  When an active field of the other
    model has the name of one of this model's methods, the call throws
    "not a field".  Otherwise it returns, and afterwards each field of this
    model whose name is an active field of the other model holds that
    field's value and is active, while every other property, and everything
    else about the model, is as before; no property is created. *)
Theorem assign_from_another_model createdValue (other this : Model) :
  let clash :=
    ∃ k g, descOf other k = Some (DField g) ∧ f_active g = true ∧
           descOf this k = Some DMethod in
  (clash → (assign createdValue (VModel other) this).1 = Throw NotAField) ∧
  (¬ clash →
   ∃ this',
     assign createdValue (VModel other) this = (Ok tt, this') ∧
     same_frame this this' ∧
     ∀ name,
       descOf this' name
       = match descOf this name, descOf other name with
         | Some (DField f), Some (DField g) =>
             if f_active g then Some (DField (Field_setValue (f_value g) f))
             else Some (DField f)
         | d, _ => d
         end).
Proof.
  intros clash.
  change (assign createdValue (VModel other))
    with (do otherFields <- activeFieldsOf other;
          assignEntries Field_setValue otherFields).
  destruct (activeFieldsOf_spec other this) as (fs & Hfs & Hnd & Hget).
  rewrite (bind_run _ _ _ _ _ Hfs).
  assert (∀ k, k ∈ map fst fs ↔
               ∃ g, descOf other k = Some (DField g) ∧ f_active g = true) as Hkeys.
  { intros k.
    assert (k ∈ map fst fs ↔ is_Some (assoc_get k fs)) as ->.
    { destruct (assoc_get k fs) as [a|] eqn:Hk.
      - split; [eauto|]. intros _. by eapply assoc_get_Some_elem.
      - split; [|by intros [? ?]]. intros Hin. by apply assoc_get_None_elem in Hk. }
    rewrite Hget.
    destruct (descOf other k) as [[g|]|].
    - destruct (f_active g) eqn:Ha.
      + split; [intros _; by exists g|eauto].
      + split; [by intros [? ?]|]. intros (g' & [= <-] & ?). congruence.
    - split; [by intros [? ?]|by intros (? & ? & _)].
    - split; [by intros [? ?]|by intros (? & ? & _)]. }
  split.
  - intros (k & g & Hk & Ha & Hm).
    eapply assignEntries_method; [|exact Hm]. apply Hkeys. by exists g.
  - intros Hno.
    destruct (assignEntries_spec Field_setValue fs this Hnd) as (this' & Hrun & Hfr & Hd).
    { intros k Hk Hm. apply Hkeys in Hk as (g & Hg & Ha). apply Hno. by exists k, g. }
    exists this'. split; [done|]. split; [done|].
    intros name. rewrite Hd. unfold assignedDesc. rewrite Hget.
    destruct (descOf this name) as [[f|]|]; [|done..].
    destruct (descOf other name) as [[g|]|]; [|done..].
    by destruct (f_active g).
Qed.

(** Alice assigned to the [Person] prototype, and to a model in which
    [name] is a method. *)
Lemma assign_from_another_model_witness :
  (∃ this',
     assign rawValue (VModel alice) Person_prototype = (Ok tt, this') ∧
     descOf this' "name"
     = Some (DField (MkField "string" "string" true (VString "") true (VString "Alice")))) ∧
  (assign rawValue (VModel alice)
     (MkModel 5 (Some [("name", MkProperty 5 DMethod)]) [] false None None)).1
  = Throw NotAField.
Proof.
  split.
  - destruct (assign_from_another_model rawValue alice Person_prototype) as [_ H].
    destruct H as (this' & Hrun & _ & Hd).
    { intros (k & g & _ & _ & Hm). unfold descOf, resolve in Hm.
      cbn [chain Person_prototype m_own m_inherited lookup_chain Person_properties
           assoc_get] in Hm.
      destruct (decide (k = "name")); [done|].
      destruct (decide (k = "friend")); done. }
    exists this'. split; [exact Hrun|]. by rewrite Hd.
  - destruct (assign_from_another_model rawValue alice
                (MkModel 5 (Some [("name", MkProperty 5 DMethod)]) [] false None None))
      as [H _].
    apply H. exists "name". eexists. split; [reflexivity|]. split; reflexivity.
Defined.

(** ** Field values and inspection *)

Lemma passes_activeFilter filter f :
  passes (activeFilter filter) f = f_active f && passes filter f.
Proof. cbn. destruct (f_active f); [|done]. by destruct filter. Qed.

Section FieldValues.
Variable Field_getValues : Field → list val.
Variable schema : gmap string Model.

(** X20: [$getFieldValues].  The call returns for every model.  What it
    yields is, for each name of the walk over the model's properties that is
    an active field passing the caller's filter and selected by the root
    mask (computed with referenced entities included), the values of that
    field, each paired with the field's entry of the root mask, field after
    field; nothing is yielded for a method, an inactive field or a field the
    mask leaves out.  No descriptor changes. *)
Theorem getFieldValues_yields (fields : option fmask) (filter : option (Field → bool))
    (this : Model) :
  ∃ root this1 yielded this',
    createFieldMask schema fields None true this = (Ok root, this1) ∧
    getFieldValues Field_getValues schema fields filter this = (Ok yielded, this') ∧
    (∀ n, descOf this' n = descOf this n) ∧
    yielded
    = concat (map (λ name,
                     match descOf this name with
                     | Some (DField f) =>
                         if f_active f && passes filter f
                            && mask_truthy (Some (FieldMask_get root name))
                         then map (λ value, (value, FieldMask_get root name))
                                  (Field_getValues f)
                         else []
                     | _ => []
                     end) (getPropertyNames this1)) ∧
    ∀ value m,
      (value, m) ∈ yielded ↔
      ∃ name f,
        descOf this name = Some (DField f) ∧ f_active f = true ∧
        passes filter f = true ∧
        mask_truthy (Some (FieldMask_get root name)) = true ∧
        m = FieldMask_get root name ∧ value ∈ Field_getValues f.
Proof.
  destruct (createFieldMask_ok schema None true fields this)
    as (root & this1 & Hroot & _ & _ & Hd1).
  set (g := λ (n : string) (f : Field),
              if mask_truthy (Some (FieldMask_get root n))
              then map (λ value, (value, FieldMask_get root n)) (Field_getValues f)
              else []).
  edestruct (forFields_spec (S := list (val * fmask)) (activeFilter filter)
               (λ name field yielded,
                  let fieldMask := FieldMask_get root name in
                  if negb (mask_truthy (Some fieldMask)) then ret yielded
                  else ret (yielded ++ map (λ value, (value, fieldMask))
                                           (Field_getValues field)))
               (λ _ f, f) (λ n f acc, Ok (acc ++ g n f)))
    with (this := this1) (acc := @nil (val * fmask)) as [Hacc Hst].
  { intros name f acc s p Hp Hd _. unfold g. cbv zeta.
    assert (setFieldData name f s = s) as -> by (by eapply setFieldData_id).
    destruct (mask_truthy _); cbn [negb]; [done|]. by rewrite app_nil_r. }
  rewrite loopAcc_collect in Hacc. cbn [app] in Hacc.
  assert (map (λ n, match descOf this1 n with
                    | Some (DField f) =>
                        if passes (activeFilter filter) f then g n f else []
                    | _ => []
                    end) (getPropertyNames this1)
          = map (λ name,
                   match descOf this name with
                   | Some (DField f) =>
                       if f_active f && passes filter f
                          && mask_truthy (Some (FieldMask_get root name))
                       then map (λ value, (value, FieldMask_get root name))
                                (Field_getValues f)
                       else []
                   | _ => []
                   end) (getPropertyNames this1)) as Hmap.
  { apply List.map_ext. intros n. rewrite Hd1. unfold g.
    destruct (descOf this n) as [[f|]|]; [|done..].
    rewrite passes_activeFilter.
    destruct (f_active f && passes filter f); [|done].
    by destruct (mask_truthy _). }
  rewrite Hmap in Hacc. clear Hmap.
  destruct (forFields _ _ _ this1) as [r this'] eqn:Hrun. cbn [fst snd] in *. subst r.
  destruct (Hst _ eq_refl) as [_ Hd].
  eexists root, this1, _, this'. split; [done|]. split.
  { unfold getFieldValues. rewrite (bind_run _ _ _ _ _ Hroot). exact Hrun. }
  split; [|split; [done|]].
  - intros n. by rewrite Hd, updDesc_id, Hd1.
  - intros value m. rewrite elem_of_concat_map. split.
    + intros (name & _ & Hin).
      destruct (descOf this name) as [[f|]|] eqn:Hf; [|by apply elem_of_nil in Hin..].
      destruct (f_active f) eqn:Ha; [|by apply elem_of_nil in Hin].
      destruct (passes filter f) eqn:Hp; [|by apply elem_of_nil in Hin].
      destruct (mask_truthy (Some (FieldMask_get root name))) eqn:Hm;
        [|by apply elem_of_nil in Hin].
      cbn [andb] in Hin. apply list_elem_of_fmap in Hin as (v & [= -> ->] & Hv).
      by exists name, f.
    + intros (name & f & Hf & Ha & Hp & Hm & -> & Hv).
      exists name. split.
      * apply elem_of_getPropertyNames. rewrite is_Some_resolve_desc, Hd1, Hf. eauto.
      * rewrite Hf, Ha, Hp, Hm. cbn [andb]. apply list_elem_of_fmap. by exists value.
Qed.

End FieldValues.


(** ** What [$serialize] leaves alone *)

Section Reading.
Variable serializeValue : Field → option string → fmask → val.
Variable super_serialize : Model → list (string * val).
Variable schema : gmap string Model.

(** X22: [$serialize] only reads.  For every target and selector the call
    returns, and afterwards every name resolves to the descriptor it had and
    the model's identity, new mark and layers are as before.  Every key of
    the base representation is a key of the output, and a model with no
    active field serializes to the base representation alone. *)
Theorem serialize_only_reads (target : option string) (fields : option fmask)
    (this : Model) :
  ∃ output this',
    serialize serializeValue super_serialize schema target fields this = (Ok output, this') ∧
    same_frame this this' ∧
    (∀ n, descOf this' n = descOf this n) ∧
    (∀ name, is_Some (assoc_get name (super_serialize this')) →
             is_Some (assoc_get name output)) ∧
    ((∀ name f, descOf this name = Some (DField f) → f_active f = false) →
     output = super_serialize this').
Proof.
  assert (∃ root this1,
            (if targetIsLower target this
             then createFieldMaskForExposedFields schema fields
             else createFieldMask schema fields None false) this = (Ok root, this1) ∧
            same_frame this this1 ∧
            ∀ n, descOf this1 n = descOf this n) as (root & this1 & Hroot & Hfr1 & Hd1).
  { destruct (targetIsLower target this).
    - destruct (createFieldMask_ok schema (Some f_exposed) false fields this)
        as (m & t1 & Hrun & _ & Hfr & Hd). by exists m, t1.
    - destruct (createFieldMask_ok schema None false fields this)
        as (m & t1 & Hrun & _ & Hfr & Hd). by exists m, t1. }
  destruct (serializeFields_spec serializeValue target root this1)
    as (sf & this' & Hsf & Hfr & Hd & Hentries).
  exists (spread (super_serialize this') sf), this'.
  split; [|split; [|split; [|split]]].
  - unfold serialize, bind, gets. cbv beta iota.
    destruct (targetIsLower target this); rewrite Hroot, Hsf; done.
  - by eapply same_frame_trans.
  - intros n. by rewrite Hd, Hd1.
  - intros name Hbase. rewrite spread_is_Some. by left.
  - intros Hinactive. assert (sf = []) as ->; [|done].
    apply assoc_all_None. intros name. rewrite Hentries, Hd1.
    destruct (descOf this name) as [[f|]|] eqn:Hf; [|done..].
    by rewrite (Hinactive name f Hf).
Qed.

End Reading.

(** ** A normalized mask is a fixed point *)

(** Two loops whose steps agree wherever an invariant of the accumulator
    holds compute the same. *)
Lemma loopAcc_agree {S : Type} (P : S → Prop) filter
    (au1 au2 : string → Field → S → result S) d names (acc : S) :
  P acc →
  (∀ n f a, n ∈ names → d n = Some (DField f) → passes filter f = true → P a →
     au1 n f a = au2 n f a ∧ ∀ a', au1 n f a = Ok a' → P a') →
  loopAcc filter au1 d names acc = loopAcc filter au2 d names acc.
Proof.
  revert acc. induction names as [|n ns IH]; intros acc HP Hstep; [done|].
  assert (∀ a, P a → loopAcc filter au1 d ns a = loopAcc filter au2 d ns a) as IH'.
  { intros a Ha. apply IH; [done|]. intros n' f a' Hn'. apply Hstep. by right. }
  cbn [loopAcc]. destruct (d n) as [[f|]|] eqn:Hd; [|by apply IH'..].
  destruct (passes filter f) eqn:Hp; [|by apply IH'].
  destruct (Hstep n f acc) as [Heq Hinv]; [by left|done..|].
  rewrite <- Heq. destruct (au1 n f acc) as [a'|e]; [|done].
  apply IH'. by apply Hinv.
Qed.

(** The name of a property of a plainly named model is no member of
    [Object.prototype]: a selector object is read at it by own entry. *)
Lemma selected_own (this : Model) name entries d :
  plainlyNamed this = true → descOf this name = Some d →
  selected (FObj entries) name = assoc_get name entries.
Proof.
  intros Hplain Hd. unfold selected, object_get.
  destruct (assoc_get name entries); [done|].
  assert (is_Some (resolve this name)) as Hres by (rewrite is_Some_resolve_desc, Hd; eauto).
  assert (∀ n, List.In n ("__proto__" :: Object_prototype_methods) → n ≠ name) as Hno.
  { intros n Hin ->. unfold plainlyNamed in Hplain.
    rewrite List.forallb_forall in Hplain. specialize (Hplain name Hin).
    by rewrite bool_decide_eq_true_2 in Hplain. }
  unfold Object_prototype_member.
  rewrite bool_decide_eq_false_2.
  - rewrite bool_decide_eq_false_2; [done|]. intros ->. apply (Hno "__proto__"); [by left|done].
  - intros Hin. apply (Hno name); [|done]. right. by apply list_elem_of_In.
Qed.

Section MaskFixedPoint.
Variable schema : gmap string Model.
Variable filter : option (Field → bool).
Variable includeReferencedEntities : bool.

Abbreviation recur fuel := (__createFieldMask schema fuel filter includeReferencedEntities).

(** No registered model type has a property named like a member of
    [Object.prototype]. *)
Hypothesis Hschema : ∀ T proto, schema !! T = Some proto → plainlyNamed proto = true.

Lemma createMask_loop fuel root stack (this : Model) :
  (recur (S fuel) root stack this).1
  = loopAcc filter (maskStepResult schema (recur fuel) root) (descOf this)
      (getPropertyNames this) ([], stack).
Proof.
  cbn [__createFieldMask].
  edestruct (forFields_spec filter (maskStep schema (recur fuel) root) (λ _ f, f)
               (maskStepResult schema (recur fuel) root))
    with (this := this) (acc := (@nil (string * fmask), stack)) as [Hacc _];
    [|exact Hacc].
  intros name f acc s p Hp Hd _. rewrite maskStep_run. split; [done|].
  intros _ _. cbn [snd]. symmetry. by eapply setFieldData_id.
Qed.

(** The nested mask of a field, given as the selector of that field, comes
    back as it is. *)
Lemma nestedMask_again fuel f fm stack nested :
  (∀ proto root' stack' m,
     plainlyNamed proto = true →
     size (dom schema ∖ stack') < fuel →
     (recur fuel root' stack' proto).1 = Ok (m, stack') →
     (recur fuel (FObj m) stack' proto).1 = Ok (m, stack')) →
  f_scalarType f ∉ stack →
  size (dom schema ∖ stack) ≤ fuel →
  nestedMask schema (recur fuel) f fm ({[f_scalarType f]} ∪ stack)
  = Ok (nested, {[f_scalarType f]} ∪ stack) →
  nestedMask schema (recur fuel) f nested ({[f_scalarType f]} ∪ stack)
  = Ok (nested, {[f_scalarType f]} ∪ stack).
Proof.
  intros Hfix Hnot Hsize. unfold nestedMask.
  destruct (schema !! f_scalarType f) as [proto|] eqn:Hs; [|by intros [= <-]].
  destruct (recur fuel fm ({[f_scalarType f]} ∪ stack) proto).1 as [[nm st]|] eqn:Hrun;
    [|done].
  intros [= <- ->]. rewrite (Hfix proto fm _ nm); [done|by eapply Hschema| |exact Hrun].
  eapply Nat.lt_le_trans; [|exact Hsize].
  apply subset_size. apply strict_spec_alt. split; [set_solver|].
  assert (f_scalarType f ∈ dom schema) by (apply elem_of_dom; eauto).
  intros Heq. assert (f_scalarType f ∈ dom schema ∖ stack) as Hin by set_solver.
  rewrite <- Heq in Hin. set_solver.
Qed.

Lemma createMask_fixed_point fuel :
  ∀ (this : Model) root stack m,
    plainlyNamed this = true →
    size (dom schema ∖ stack) < fuel →
    (recur fuel root stack this).1 = Ok (m, stack) →
    (recur fuel (FObj m) stack this).1 = Ok (m, stack).
Proof.
  induction fuel as [|fuel IH]; intros this root stack m Hplain Hsize Hrun; [lia|].
  destruct (createMask_spec schema filter includeReferencedEntities (S fuel)
              this root stack Hsize) as (m0 & this0 & Hrun0 & _ & _ & Hentry).
  cbn [pred] in Hentry. rewrite Hrun0 in Hrun. cbn [fst] in Hrun.
  injection Hrun as ->.
  pose proof (createMask_loop fuel root stack this) as Hloop.
  rewrite Hrun0 in Hloop. cbn [fst] in Hloop.
  rewrite createMask_loop, Hloop. symmetry.
  apply (loopAcc_agree (λ a : list (string * fmask) * gset string, a.2 = stack)); [done|].
  intros n f [norm st] _ Hd Hp Hst. cbn [snd] in Hst. subst st.
  specialize (Hentry n). rewrite Hd in Hentry. cbn [maskEntrySpec] in Hentry.
  rewrite Hp in Hentry. cbn [andb] in Hentry.
  unfold maskStepResult. cbn [fst snd].
  destruct (bool_decide (f_scalarType f ∈ stack)) eqn:Hin; [by split; [|intros ? [= <-]]|].
  apply bool_decide_eq_false in Hin as Hnot. cbn [negb andb] in Hentry.
  rewrite (selected_own this n m (DField f) Hplain Hd).
  destruct (mask_truthy (selected root n)) eqn:Hsel.
  - destruct Hentry as (nested & Hm & Hnested). rewrite Hm, Hnested.
    rewrite (nestedMask_truthy _ _ _ _ _ _ _ Hnested).
    change (default (FBool false) (Some nested)) with nested.
    rewrite (nestedMask_again fuel f _ stack nested IH Hnot ltac:(lia) Hnested).
    split; [done|]. intros a' [= <-]. cbn [snd]. apply set_eq. intros x. set_solver.
  - rewrite Hentry. cbn [mask_truthy]. by split; [|intros ? [= <-]].
Qed.


End MaskFixedPoint.


End ModelMore.
